(** * Anomaly-detection notebooks: numeric routines and their properties

    A shallow embedding of the numeric routines of the blog-post notebooks:

    - the PCA component cut ([i_comp_thresholds]),
    - the Gaussian anomaly scorer ([GaussianAD], [mahalanobis_distance]),
    - the frequency-domain defect extractor ([ft_extract_anomalies]),
    - the bounding-box post-processing ([find_bounding_boxes]) and their
      composition ([ft_defect_detection]),
    - the code around them: the selection of and projection on principal
      components, the [GaussianAD] object, the loops that fill the feature
      banks, the patch grid, the anomaly maps of [AnomalyDetector] and the
      test dataset with its labels.

    Python exceptions are values of [exn]; a function that can raise returns
    [result A = exn + A].  numpy's float64 is modelled by exact numbers
    (rationals where only [+] and comparisons occur, reals where [sqrt],
    [log] or the Fourier transform occur), extended with the IEEE special
    values where the source can produce them. *)

From Stdlib Require Import List Bool Arith ZArith QArith Qround Lia Lqa.
From Stdlib Require Import Reals Lra Sorted.
From Stdlib Require String Ascii.
Import ListNotations.

(** ** Python exceptions *)

Inductive exn : Set :=
| AssertionError
| ValueError
| NameError
| RuntimeError.

Definition result (A : Type) : Type := (exn + A)%type.

Definition raise {A : Type} (e : exn) : result A := inl e.
Definition ret {A : Type} (a : A) : result A := inr a.

Definition bind {A B : Type} (m : result A) (k : A -> result B) : result B :=
  match m with
  | inl e => inl e
  | inr a => k a
  end.

Notation "x <- m ;; k" := (bind m (fun x => k))
  (at level 61, m at next level, right associativity).

(** [assert c] raises [AssertionError] when [c] is false. *)
Definition assert (c : bool) : result unit :=
  if c then ret tt else raise AssertionError.

(** ** PCA component cut *)

Module PCA.

Local Open Scope Q_scope.

(** [np.cumsum]: running sums, the first entry being the first element. *)
Fixpoint cumsum_from (acc : Q) (l : list Q) : list Q :=
  match l with
  | [] => []
  | x :: r => (acc + x) :: cumsum_from (acc + x) r
  end.

Definition cumsum (l : list Q) : list Q :=
  match l with
  | [] => []
  | x :: r => x :: cumsum_from x r
  end.

(** [variances > variance_threshold], element-wise. *)
Definition gtb (v t : Q) : bool := negb (Qle_bool v t).

Definition exceeds (variances : list Q) (variance_threshold : Q) : list bool :=
  map (fun v => gtb v variance_threshold) variances.

(** [ndarray.argmax] of a boolean array: the index of the first occurrence
    of the maximum; scanning keeps the best value seen so far and moves
    only on a strictly larger one.  An empty array raises [ValueError]. *)
Definition bool_ltb (a b : bool) : bool := negb a && b.

Fixpoint argmax_scan (best : bool) (ibest : nat) (i : nat) (l : list bool) : nat :=
  match l with
  | [] => ibest
  | b :: r =>
      if bool_ltb best b then argmax_scan b i (S i) r
      else argmax_scan best ibest (S i) r
  end.

Definition argmax (l : list bool) : result nat :=
  match l with
  | [] => raise ValueError
  | b :: r => ret (argmax_scan b 0%nat 1%nat r)
  end.

(** One iteration of the loop body:
    [(variances > variance_threshold).argmax()]. *)
Definition i_comp_threshold (explained_variance_ratio : list Q)
    (variance_threshold : Q) : result nat :=
  argmax (exceeds (cumsum explained_variance_ratio) variance_threshold).

(** The loop over [variance_thresholds], appending each cut. *)
Fixpoint i_comp_thresholds (explained_variance_ratio : list Q)
    (variance_thresholds : list Q) : result (list nat) :=
  match variance_thresholds with
  | [] => ret []
  | t :: ts =>
      i <- i_comp_threshold explained_variance_ratio t ;;
      rest <- i_comp_thresholds explained_variance_ratio ts ;;
      ret (i :: rest)
  end.

(** [pca.components_[: i]] and [pca.components_[i :]]. *)
Definition pca_comps {A : Type} (components : list A) (i : nat) : list A :=
  firstn i components.

Definition npca_comps {A : Type} (components : list A) (i : nat) : list A :=
  skipn i components.

(** [first_exceeding vs t i]: [i] is the first index whose cumulative
    variance is strictly greater than [t]. *)
Definition first_exceeding (variances : list Q) (t : Q) (i : nat) : Prop :=
  (exists v, nth_error variances i = Some v /\ t < v) /\
  (forall j v, (j < i)%nat -> nth_error variances j = Some v -> v <= t).

End PCA.

(** ** float64 with its special values

    A float64 is an exact real or one of the IEEE special values.  Rounding
    is not modelled; what is modelled is where the special values arise
    ([log 0], [inf - inf], [0 * inf], [sqrt] of a negative number) and how
    comparisons treat them (every comparison with [NaN] is false). *)

Module Float.

Local Open Scope R_scope.

Inductive float64 : Type :=
| Fin (r : R)
| PInf
| NInf
| NaN.

Definition Rltb (a b : R) : bool := if Rlt_dec a b then true else false.
Definition Rleb (a b : R) : bool := if Rle_dec a b then true else false.

Inductive sign : Set := Neg | Zero | Pos.

Definition Rsign (r : R) : sign :=
  if Rlt_dec 0 r then Pos else if Rlt_dec r 0 then Neg else Zero.

Definition sign_mul (a b : sign) : sign :=
  match a, b with
  | Zero, _ | _, Zero => Zero
  | Pos, Pos | Neg, Neg => Pos
  | Pos, Neg | Neg, Pos => Neg
  end.

Definition of_sign (s : sign) : float64 :=
  match s with
  | Pos => PInf
  | Neg => NInf
  | Zero => NaN
  end.

Definition fsign (a : float64) : sign :=
  match a with
  | Fin r => Rsign r
  | PInf => Pos
  | NInf => Neg
  | NaN => Zero
  end.

Definition fneg (a : float64) : float64 :=
  match a with
  | Fin r => Fin (- r)
  | PInf => NInf
  | NInf => PInf
  | NaN => NaN
  end.

Definition fadd (a b : float64) : float64 :=
  match a, b with
  | NaN, _ | _, NaN => NaN
  | Fin x, Fin y => Fin (x + y)
  | PInf, NInf | NInf, PInf => NaN
  | PInf, _ | _, PInf => PInf
  | NInf, _ | _, NInf => NInf
  end.

Definition fsub (a b : float64) : float64 := fadd a (fneg b).

Definition fmul (a b : float64) : float64 :=
  match a, b with
  | NaN, _ | _, NaN => NaN
  | Fin x, Fin y => Fin (x * y)
  | _, _ => of_sign (sign_mul (fsign a) (fsign b))
  end.

(** [a > b] and [a <= b]: false as soon as one side is [NaN]. *)
Definition fgtb (a b : float64) : bool :=
  match a, b with
  | NaN, _ | _, NaN => false
  | Fin x, Fin y => Rltb y x
  | PInf, PInf => false
  | PInf, _ => true
  | _, PInf => false
  | NInf, _ => false
  | Fin _, NInf => true
  end.

Definition fleb (a b : float64) : bool :=
  match a, b with
  | NaN, _ | _, NaN => false
  | Fin x, Fin y => Rleb x y
  | _, PInf => true
  | PInf, _ => false
  | NInf, _ => true
  | Fin _, NInf => false
  end.

(** [np.maximum] / [np.minimum] as used by [ndarray.max] / [ndarray.min]:
    a [NaN] operand wins. *)
Definition fmax (a b : float64) : float64 :=
  match a, b with
  | NaN, _ | _, NaN => NaN
  | _, _ => if fgtb b a then b else a
  end.

Definition fmin (a b : float64) : float64 :=
  match a, b with
  | NaN, _ | _, NaN => NaN
  | _, _ => if fgtb a b then b else a
  end.

(** [np.sqrt] on a real: [NaN] below zero. *)
Definition np_sqrt (r : R) : float64 :=
  if Rlt_dec r 0 then NaN else Fin (sqrt r).

(** [np.log] on a real: [-inf] at zero, [NaN] below. *)
Definition np_log (r : R) : float64 :=
  if Rlt_dec 0 r then Fin (ln r) else if Rlt_dec r 0 then NaN else NInf.

(** [ndarray.max()] / [ndarray.min()] over the flattened entries; a
    zero-size array raises [ValueError]. *)
Definition array_max (l : list float64) : result float64 :=
  match l with
  | [] => raise ValueError
  | a :: r => ret (fold_left fmax r a)
  end.

Definition array_min (l : list float64) : result float64 :=
  match l with
  | [] => raise ValueError
  | a :: r => ret (fold_left fmin r a)
  end.

(** Truncation toward zero, and the cast [astype(np.uint8)] of a float.
    A value from 0 up to, not including, 256 is truncated.  For a value
    outside that range numpy leaves the result to the platform's
    conversion; the low eight bits of the truncated value, taken here, are
    what x86-64 gives.  Only the in-range values and the range of the
    result are relied on below. *)
Definition trunc (r : R) : Z :=
  if Rle_dec 0 r then Int_part r else (- Int_part (- r))%Z.

Definition astype_uint8 (r : R) : Z := (trunc r mod 256)%Z.

(** The values [np.log(np.abs(z))] can take: a real or [-inf]. *)
Definition log_value (v : float64) : Prop :=
  match v with
  | Fin _ | NInf => True
  | PInf | NaN => False
  end.

End Float.

(** ** Gaussian anomaly scorer *)

Module Gaussian.

Import Float.
Local Open Scope R_scope.

(** A numpy array of reals: its shape and its entries in row-major order. *)
Record ndarray : Type := mk_ndarray {
  shape : list nat;
  data : list R
}.

Definition ndim (a : ndarray) : nat := length (shape a).

(** [a.shape[k]] and [a.shape[-1]]. *)
Definition dim (a : ndarray) (k : nat) : nat := nth k (shape a) 0%nat.
Definition last_dim (a : ndarray) : nat := last (shape a) 0%nat.

Definition size (a : ndarray) : nat := fold_right Nat.mul 1%nat (shape a).

Definition well_formed (a : ndarray) : Prop := length (data a) = size a.

(** Entry [a[i, j]] of a two-dimensional array. *)
Definition at2 (a : ndarray) (i j : nat) : R :=
  nth (i * dim a 1 + j) (data a) 0.

(** Sum of [f 0 .. f (n-1)]. *)
Fixpoint sum_upto (n : nat) (f : nat -> R) : R :=
  match n with
  | O => 0
  | S k => sum_upto k f + f k
  end.

(** Row-major entries of the [rows x cols] array whose entry [(i, j)] is
    [f i j]. *)
Definition build2 (rows cols : nat) (f : nat -> nat -> R) : ndarray :=
  mk_ndarray [rows; cols]
    (flat_map (fun i => map (f i) (seq 0 cols)) (seq 0 rows)).

(** [np.expand_dims(mean, 0)] of a one-dimensional array. *)
Definition expand_dims0 (a : ndarray) : ndarray :=
  mk_ndarray (1%nat :: shape a) (data a).

(** [values - mean] for two-dimensional operands with the same number of
    columns: numpy broadcasts a single row against any number of rows and
    raises [ValueError] on any other mismatch of the row counts. *)
Definition broadcast_rows (b k : nat) : result nat :=
  if (b =? k)%nat then ret b
  else if (b =? 1)%nat then ret k
  else if (k =? 1)%nat then ret b
  else raise ValueError.

Definition subtract (values mean : ndarray) : result ndarray :=
  let b := dim values 0 in
  let k := dim mean 0 in
  rows <- broadcast_rows b k ;;
  ret (build2 rows (dim values 1)
         (fun i m =>
            at2 values (if (b =? 1)%nat then 0%nat else i) m
            - at2 mean (if (k =? 1)%nat then 0%nat else i) m)).

(** [np.einsum("im,mn,in->i", x_mu, inv_covariance, x_mu)]. *)
Definition quad_form (x_mu inv_covariance : ndarray) (i : nat) : R :=
  sum_upto (dim x_mu 1) (fun m =>
    sum_upto (dim x_mu 1) (fun n =>
      at2 x_mu i m * at2 inv_covariance m n * at2 x_mu i n)).

Definition einsum_im_mn_in (x_mu inv_covariance : ndarray) : list R :=
  map (quad_form x_mu inv_covariance) (seq 0 (dim x_mu 0)).

Definition mahalanobis_distance (values mean inv_covariance : ndarray)
    : result (list float64) :=
  _ <- assert (ndim values =? 2)%nat ;;
  _ <- assert ((1 <=? ndim mean)%nat && (ndim mean <=? 2)%nat) ;;
  _ <- assert (ndim inv_covariance =? 2)%nat ;;
  _ <- assert (dim values 1 =? last_dim mean)%nat ;;
  _ <- assert (last_dim mean =? dim inv_covariance 0)%nat ;;
  _ <- assert (dim inv_covariance 0 =? dim inv_covariance 1)%nat ;;
  let mean := if (ndim mean =? 1)%nat then expand_dims0 mean else mean in
  x_mu <- subtract values mean ;;
  let dist := einsum_im_mn_in x_mu inv_covariance in
  ret (map np_sqrt dist).

(** The state of a [GaussianAD] object after [fit]: the column mean of the
    training features and the precision matrix of the Ledoit-Wolf
    estimate. *)
Record GaussianAD : Type := mk_GaussianAD {
  mean : ndarray;
  lw_prec : ndarray
}.

Definition decision_function (self : GaussianAD) (X : ndarray)
    : result (list float64) :=
  mahalanobis_distance X (mean self) (lw_prec self).




(** The mean vector presented as a test matrix of one row. *)
Definition as_row (a : ndarray) : ndarray := expand_dims0 a.

(** A model of feature dimension 1: zero mean, unit precision. *)
Definition unit_model : GaussianAD :=
  mk_GaussianAD (mk_ndarray [1%nat] [0]) (mk_ndarray [1%nat; 1%nat] [1]).



End Gaussian.

(** ** Two-dimensional arrays as lists of rows *)

Module Array2.

Definition matrix (A : Type) : Type := list (list A).

Section Ops.

Context {A : Type}.

(** [x.shape[0]] and [x.shape[1]]. *)
Definition shape0 (x : matrix A) : nat := length x.
Definition shape1 (x : matrix A) : nat := length (hd [] x).

(** [x[i, j]], with [d] outside the array. *)
Definition get (d : A) (x : matrix A) (i j : nat) : A :=
  nth j (nth i x []) d.

(** The [h x w] array whose entry [(i, j)] is [f i j]. *)
Definition tabulate (h w : nat) (f : nat -> nat -> A) : matrix A :=
  map (fun i => map (f i) (seq 0 w)) (seq 0 h).

(** [h] rows of [w] entries each. *)
Definition rect (h w : nat) (x : matrix A) : Prop :=
  length x = h /\ Forall (fun row => length row = w) x.

End Ops.

(** Element-wise application of [f]. *)
Definition mmap {A B : Type} (f : A -> B) (x : matrix A) : matrix B :=
  map (map f) x.

(** A PIL image in mode "L": rows of 8-bit pixels. *)
Definition Image : Type := matrix Z.

Definition uint8_image (img : Image) : Prop :=
  Forall (Forall (fun p => (0 <= p < 256)%Z)) img.

(** The [h x w] image whose pixels all equal [c]. *)
Definition constant_image (h w : nat) (c : Z) : Image :=
  tabulate h w (fun _ _ => c).

(** Pixel coordinates in raster order. *)
Definition raster (h w : nat) : list (nat * nat) :=
  list_prod (seq 0 h) (seq 0 w).

End Array2.

(** ** Frequency-domain defect extractor *)

Module Fourier.

Import Float Array2.
Local Open Scope R_scope.

(** Complex numbers as pairs. *)
Definition C : Type := (R * R)%type.

Definition C0 : C := (0, 0).
Definition Cadd (a b : C) : C := (fst a + fst b, snd a + snd b).
Definition Cmul (a b : C) : C :=
  (fst a * fst b - snd a * snd b, fst a * snd b + snd a * fst b).
Definition Cscale (r : R) (a : C) : C := (r * fst a, r * snd a).
Definition Cabs (a : C) : R := sqrt (fst a * fst a + snd a * snd a).
Definition RtoC (r : R) : C := (r, 0).

(** [exp(i * theta)]. *)
Definition cis (theta : R) : C := (cos theta, sin theta).

(** Sum of [f 0 .. f (n-1)]. *)
Fixpoint Csum (n : nat) (f : nat -> C) : C :=
  match n with
  | O => C0
  | S k => Cadd (Csum k f) (f k)
  end.

(** The angle [2 pi (k m / h + l n / w)] of the two-dimensional transform. *)
Definition angle (h w k l m n : nat) : R :=
  2 * PI * (INR k * INR m / INR h + INR l * INR n / INR w).

(** The all-zero spectrum. *)
Definition zeros (h w : nat) : matrix C := tabulate h w (fun _ _ => C0).

(** [numpy.fft.fft2] and [numpy.fft.ifft2]: the discrete Fourier transform
    over both axes and its inverse; an axis of length zero raises
    [ValueError]. *)
Definition dft2 (sgn : R) (x : matrix C) : matrix C :=
  let h := shape0 x in
  let w := shape1 x in
  tabulate h w (fun k l =>
    Csum h (fun m => Csum w (fun n =>
      Cmul (get C0 x m n) (cis (sgn * angle h w k l m n))))).

Definition fft2 (x : matrix R) : result (matrix C) :=
  if ((shape0 x =? 0) || (shape1 x =? 0))%nat then raise ValueError
  else ret (dft2 (-1) (mmap RtoC x)).

Definition ifft2 (x : matrix C) : result (matrix C) :=
  if ((shape0 x =? 0) || (shape1 x =? 0))%nat then raise ValueError
  else ret (mmap (Cscale (/ (INR (shape0 x) * INR (shape1 x)))) (dft2 1 x)).

(** [numpy.fft.fftshift] rolls each axis forward by half its length,
    [ifftshift] rolls it back. *)
Definition fftshift {A : Type} (d : A) (x : matrix A) : matrix A :=
  let h := shape0 x in
  let w := shape1 x in
  tabulate h w (fun i j =>
    get d x ((i + (h - h / 2)) mod h) ((j + (w - w / 2)) mod w)).

Definition ifftshift {A : Type} (d : A) (x : matrix A) : matrix A :=
  let h := shape0 x in
  let w := shape1 x in
  tabulate h w (fun i j => get d x ((i + h / 2) mod h) ((j + w / 2) mod w)).

(** [cv2.threshold(src, thresh, maxval, cv2.THRESH_BINARY)] on a float
    array: [maxval] where [src > thresh], zero elsewhere. *)
Definition cv2_threshold_binary (src : matrix float64) (thresh : float64)
    (maxval : R) : matrix R :=
  mmap (fun v => if fgtb v thresh then maxval else 0) src.

(** [astype(bool)]: true on every non-zero entry. *)
Definition astype_bool (x : matrix R) : matrix bool :=
  mmap (fun v => if Req_dec_T v 0 then false else true) x.

(** [np.array(img) / 255.0]. *)
Definition prepare (img : Image) : matrix R :=
  mmap (fun p => IZR p / 255) img.

(** The shifted spectrum of an image with at least one pixel. *)
Definition shifted (img : Image) : matrix C :=
  fftshift C0 (dft2 (-1) (mmap RtoC (prepare img))).

(** [fftshift(fft2(img_np))]. *)
Definition spectrum (img : Image) : result (matrix C) :=
  f <- fft2 (prepare img) ;;
  ret (fftshift C0 f).

(** [np.log(np.abs(fshift))]. *)
Definition log_magnitude (fshift : matrix C) : matrix float64 :=
  mmap (fun z => np_log (Cabs z)) fshift.

(** [mag_img.min() + mag_thresh * (max_val - mag_img.min())]. *)
Definition between (min_val max_val : float64) (mag_thresh : R) : float64 :=
  fadd min_val (fmul (Fin mag_thresh) (fsub max_val min_val)).

Definition thresh_val (mag_img : matrix float64) (mag_thresh : R)
    : result float64 :=
  max_val <- array_max (concat mag_img) ;;
  min_val <- array_min (concat mag_img) ;;
  ret (between min_val max_val mag_thresh).

(** The mask of the frequencies whose log-magnitude exceeds the threshold
    value, and its inverse. *)
Definition magnitude_mask (mag_img : matrix float64) (thresh : float64)
    : matrix bool :=
  astype_bool (cv2_threshold_binary mag_img thresh 1).

Definition invert (mask : matrix bool) : matrix bool := mmap negb mask.

(** [fshift * mag_img_mask_inv]: a true entry keeps the coefficient, a
    false entry zeroes it. *)
Definition apply_mask (fshift : matrix C) (mask : matrix bool) : matrix C :=
  tabulate (shape0 fshift) (shape1 fshift) (fun i j =>
    if get false mask i j then get C0 fshift i j else C0).

(** [np.abs(ifft2(ifftshift(fshift_proc)))]. *)
Definition reconstruct (fshift_proc : matrix C) : result (matrix R) :=
  img_proc <- ifft2 (ifftshift C0 fshift_proc) ;;
  ret (mmap Cabs img_proc).

(** [Image.fromarray((img_proc * 255.0).astype(np.uint8))]. *)
Definition to_image (img_proc : matrix R) : Image :=
  mmap (fun m => astype_uint8 (m * 255)) img_proc.

(** The reconstruction before it is converted to an image. *)
Definition ft_reconstruction (img : Image) (mag_thresh : R)
    : result (matrix R) :=
  fshift <- spectrum img ;;
  let mag_img := log_magnitude fshift in
  thresh <- thresh_val mag_img mag_thresh ;;
  let mag_img_mask := magnitude_mask mag_img thresh in
  let mag_img_mask_inv := invert mag_img_mask in
  let fshift_proc := apply_mask fshift mag_img_mask_inv in
  reconstruct fshift_proc.

Definition ft_extract_anomalies (img : Image) (mag_thresh : R)
    : result Image :=
  img_proc <- ft_reconstruction img mag_thresh ;;
  ret (to_image img_proc).

(** The threshold value and the two masks [ft_extract_anomalies] computes
    on the way. *)
Definition ft_thresh_val (img : Image) (mag_thresh : R) : result float64 :=
  fshift <- spectrum img ;;
  thresh_val (log_magnitude fshift) mag_thresh.

Definition ft_magnitude_mask (img : Image) (mag_thresh : R)
    : result (matrix bool) :=
  fshift <- spectrum img ;;
  thresh <- thresh_val (log_magnitude fshift) mag_thresh ;;
  ret (magnitude_mask (log_magnitude fshift) thresh).

Definition ft_retained (img : Image) (mag_thresh : R)
    : result (matrix bool) :=
  mask <- ft_magnitude_mask img mag_thresh ;;
  ret (invert mask).

(** The retained frequencies in the words of the specification: those
    whose log-magnitude is at or below the threshold value. *)
Definition at_or_below (mag_img : matrix float64) (thresh : float64)
    : matrix bool :=
  mmap (fun v => fleb v thresh) mag_img.

Definition spec_retained (img : Image) (mag_thresh : R)
    : result (matrix bool) :=
  fshift <- spectrum img ;;
  thresh <- thresh_val (log_magnitude fshift) mag_thresh ;;
  ret (at_or_below (log_magnitude fshift) thresh).

Definition spec_reconstruction (img : Image) (mag_thresh : R)
    : result (matrix R) :=
  fshift <- spectrum img ;;
  thresh <- thresh_val (log_magnitude fshift) mag_thresh ;;
  reconstruct (apply_mask fshift (at_or_below (log_magnitude fshift) thresh)).

(** The degenerate case as the specification wants it handled: the input
    comes back unchanged and the threshold value is a number. *)
Definition guarded (img : Image) (mag_thresh : R) : Prop :=
  ft_extract_anomalies img mag_thresh = ret img /\
  exists r, ft_thresh_val img mag_thresh = ret (Fin r).

(** Number of true entries of a mask. *)
Definition count_true (mask : matrix bool) : nat :=
  length (filter (fun b => b) (concat mask)).

End Fourier.

(** ** Bounding boxes of the defect regions *)

Module Boxes.

Import Array2.

Definition pixel : Type := (nat * nat)%type.

Definition pixel_eqb (p q : pixel) : bool :=
  (fst p =? fst q)%nat && (snd p =? snd q)%nat.

Definition mem (p : pixel) (l : list pixel) : bool := existsb (pixel_eqb p) l.

(** *** Thresholding at a percentile *)

(** Insertion sort of the flattened pixel values. *)
Fixpoint insert (x : Z) (l : list Z) : list Z :=
  match l with
  | [] => [x]
  | y :: r => if (x <=? y)%Z then x :: l else y :: insert x r
  end.

Definition sort (l : list Z) : list Z := fold_right insert [] l.

(** [np.percentile(a, q)] with the default linear interpolation: the
    virtual index [(n - 1) q / 100] falls between two neighbours of the
    sorted array, and the result interpolates between them.  A [q] outside
    [0, 100] raises [ValueError].  (On an empty array numpy gives [nan];
    [find_bounding_boxes] never gets there, [max()] having raised.) *)
Definition percentile (a : list Z) (q : Q) : result Q :=
  if negb (Qle_bool 0 q && Qle_bool q 100) then raise ValueError
  else
    let s := sort a in
    let n := length s in
    let virtual := (inject_Z (Z.of_nat (n - 1)) * q / 100)%Q in
    let previous := Z.to_nat (Qfloor virtual) in
    let next := Nat.min (S previous) (n - 1) in
    let gamma := (virtual - inject_Z (Z.of_nat previous))%Q in
    let lo := nth previous s 0%Z in
    let hi := nth next s 0%Z in
    ret (inject_Z lo + inject_Z (hi - lo) * gamma)%Q.

(** Python's [int()] of a number: truncation toward zero. *)
Definition py_int (q : Q) : Z := Z.quot (Qnum q) (Zpos (Qden q)).

(** [cv2.threshold(img_np, t, 1.0, cv2.THRESH_BINARY)] on 8-bit pixels,
    followed by [> 0]: true where the pixel exceeds [t]. *)
Definition cv2_threshold (img_np : Image) (t : Z) : matrix bool :=
  mmap (fun p => (t <? p)%Z) img_np.

(** [ndarray.max()] of the pixel array; only its [ValueError] on a
    zero-size array matters, the value is not used. *)
Definition array_max (a : list Z) : result Z :=
  match a with
  | [] => raise ValueError
  | x :: r => ret (fold_left Z.max r x)
  end.

(** *** Dilation *)

(** [morphology.binary_dilation(img, np.ones([d, d]))]: a pixel is set when
    the [d x d] window around it, centred at index [d / 2] of the
    footprint, meets a set pixel; outside the image nothing is set.  What
    an empty footprint ([d = 0]) gives depends on the version of the
    library: the releases that refuse it raise [RuntimeError], taken here;
    the properties that depend on it assume [1 <= d]. *)
Definition window_hit (img : matrix bool) (d i j : nat) : bool :=
  let c := (d / 2)%nat in
  existsb (fun a =>
    existsb (fun b =>
      (a <=? i + c)%nat && (b <=? j + c)%nat &&
      get false img (i + c - a) (j + c - b))
      (seq 0 d))
    (seq 0 d).

Definition binary_dilation (img : matrix bool) (d : nat)
    : result (matrix bool) :=
  if (d =? 0)%nat then raise RuntimeError
  else ret (tabulate (shape0 img) (shape1 img) (window_hit img d)).

(** *** Connected regions *)

(** The up to eight neighbours of a pixel. *)
Definition around (i : nat) : list nat :=
  (if (i =? 0)%nat then [] else [(i - 1)%nat]) ++ [i; S i].

Definition neighbours (p : pixel) : list pixel :=
  filter (fun q => negb (pixel_eqb q p))
    (list_prod (around (fst p)) (around (snd p))).

(** Flood fill from the pixels of [frontier]: [acc] collects the pixels
    accepted by [ok], each once. *)
Fixpoint flood (fuel : nat) (ok : pixel -> bool) (frontier acc : list pixel)
    : list pixel :=
  match fuel with
  | O => acc
  | S fuel' =>
      match frontier with
      | [] => acc
      | p :: rest =>
          if ok p && negb (mem p acc)
          then flood fuel' ok (neighbours p ++ rest) (p :: acc)
          else flood fuel' ok rest acc
      end
  end.

(** Every pixel enters the frontier at most eight times after the seed. *)
Definition flood_fuel (h w : nat) : nat := S (S (8 * (h * w))).

Definition in_regions (p : pixel) (regions : list (list pixel)) : bool :=
  existsb (mem p) regions.

(** The pixel is set in the binary image. *)
Definition set_at (img : matrix bool) (p : pixel) : bool :=
  get false img (fst p) (snd p).

(** A set pixel that no region found so far contains. *)
Definition fresh (img : matrix bool) (regions : list (list pixel)) (q : pixel)
    : bool :=
  set_at img q && negb (in_regions q regions).

(** [measure.label(img)] with its default full connectivity: the connected
    regions of set pixels, in the order in which a raster scan meets their
    first pixel.  The label image is represented by this list, region
    [k + 1] of the label image being entry [k]. *)
Fixpoint label_scan (fuel : nat) (img : matrix bool) (todo : list pixel)
    (regions : list (list pixel)) : list (list pixel) :=
  match todo with
  | [] => regions
  | p :: rest =>
      if fresh img regions p
      then label_scan fuel img rest
             (regions ++ [flood fuel (fresh img regions) [p] []])
      else label_scan fuel img rest regions
  end.

Definition label (img : matrix bool) : list (list pixel) :=
  let h := shape0 img in
  let w := shape1 img in
  label_scan (flood_fuel h w) img (raster h w) [].

(** [segmentation.clear_border(img)]: every region with a pixel on the
    first or last row or column is cleared. *)
Definition on_border (h w : nat) (p : pixel) : bool :=
  (fst p =? 0)%nat || (snd p =? 0)%nat ||
  (S (fst p) =? h)%nat || (S (snd p) =? w)%nat.

Definition clear_border (img : matrix bool) : matrix bool :=
  let h := shape0 img in
  let w := shape1 img in
  let touching := filter (existsb (on_border h w)) (label img) in
  tabulate h w (fun i j =>
    set_at img (i, j) && negb (in_regions (i, j) touching)).

(** *** Region properties *)

Record BBox : Set := mk_BBox {
  min_row : nat;
  min_col : nat;
  max_row : nat;
  max_col : nat
}.

Record RegionProperties : Type := mk_RegionProperties {
  coords : list pixel;
  area : nat;
  bbox : BBox
}.

Definition minimum (l : list nat) : nat :=
  match l with
  | [] => 0%nat
  | x :: r => fold_left Nat.min r x
  end.

Definition maximum (l : list nat) : nat := fold_left Nat.max l 0%nat.

(** The bounding box is half-open: [max_row] and [max_col] lie one past the
    last row and column of the region. *)
Definition bbox_of (region : list pixel) : BBox :=
  mk_BBox (minimum (map fst region)) (minimum (map snd region))
          (S (maximum (map fst region))) (S (maximum (map snd region))).

(** [measure.regionprops(img_lab)]: one entry per label, in label order. *)
Definition regionprops (img_lab : list (list pixel)) : list RegionProperties :=
  map (fun region => mk_RegionProperties region (length region) (bbox_of region))
      img_lab.

(** *** find_bounding_boxes *)

(** The notebook's module-level variables a function body can read. *)
Record Globals : Type := mk_Globals {
  img_proc_np : option Image
}.

Definition lookup_img_proc_np (g : Globals) : result Image :=
  match img_proc_np g with
  | None => raise NameError
  | Some a => ret a
  end.

Definition find_bounding_boxes (g : Globals) (img : Image) (perc_thresh : Q)
    (area_thresh : Q) (dilation_size : nat) : result (list BBox) :=
  let img_np := img in
  max_val <- array_max (concat img_np) ;;
  thresh_val <- percentile (concat img_np) perc_thresh ;;
  let img_thresh := cv2_threshold img_np (py_int thresh_val) in
  img_morph <- binary_dilation img_thresh dilation_size ;;
  let img_morph := clear_border img_morph in
  let img_lab := label img_morph in
  let regions := regionprops img_lab in
  shape_of <- lookup_img_proc_np g ;;
  let area_thresh :=
    (inject_Z (Z.of_nat (shape0 shape_of)) * inject_Z (Z.of_nat (shape1 shape_of))
     * area_thresh)%Q in
  ret (map bbox
         (filter (fun reg => Qle_bool area_thresh (inject_Z (Z.of_nat (area reg))))
                 regions)).

(** The regions whose boxes [find_bounding_boxes] returns, for a threshold
    already multiplied out. *)
Definition kept_regions (img : Image) (perc_thresh : Q) (dilation_size : nat)
    (threshold : Q) : result (list RegionProperties) :=
  max_val <- array_max (concat img) ;;
  thresh_val <- percentile (concat img) perc_thresh ;;
  img_morph <- binary_dilation (cv2_threshold img (py_int thresh_val))
                 dilation_size ;;
  ret (filter (fun reg => Qle_bool threshold (inject_Z (Z.of_nat (area reg))))
         (regionprops (label (clear_border img_morph)))).

(** [reach ok seed q]: [q] is joined to [seed] by a chain of neighbouring
    pixels accepted by [ok]. *)
Inductive reach (ok : pixel -> bool) (seed : pixel) : pixel -> Prop :=
| reach_seed : ok seed = true -> reach ok seed seed
| reach_step (q n : pixel) :
    reach ok seed q -> In n (neighbours q) -> ok n = true -> reach ok seed n.

(** A region that is a connected component of the set pixels. *)
Definition component (img : matrix bool) (r : list pixel) : Prop :=
  exists seed, In seed r /\ forall q, In q r <-> reach (set_at img) seed q.

(** The accepted pixels of [universe] the fill has not collected yet, and
    the bound on the steps the fill still takes. *)
Definition remaining (ok : pixel -> bool) (universe acc : list pixel)
    : list pixel :=
  filter (fun q => ok q && negb (mem q acc)) universe.

Definition potential (ok : pixel -> bool) (universe frontier acc : list pixel)
    : nat :=
  length frontier + 8 * length (remaining ok universe acc).

(** Two regions share no pixel. *)
Definition disjoint (r1 r2 : list pixel) : Prop :=
  forall p, In p r1 -> ~ In p r2.

(** What labelling guarantees of its regions: no two share a pixel, none is
    empty, none lists a pixel twice. *)
Definition regions_ok (regions : list (list pixel)) : Prop :=
  ForallOrdPairs disjoint regions /\
  Forall (fun r => r <> [] /\ NoDup r) regions.

(** Two boxes share a pixel. *)
Definition overlap (a b : BBox) : bool :=
  (min_row a <? max_row b)%nat && (min_row b <? max_row a)%nat &&
  (min_col a <? max_col b)%nat && (min_col b <? max_col a)%nat.

(** A box of at least one pixel. *)
Definition proper (b : BBox) : Prop :=
  (min_row b < max_row b)%nat /\ (min_col b < max_col b)%nat.

(** Pixel [p] lies inside box [b]. *)
Definition inside (p : pixel) (b : BBox) : Prop :=
  (min_row b <= fst p < max_row b)%nat /\ (min_col b <= snd p < max_col b)%nat.

(** A 5 x 5 image with a bright L-shaped region and one bright pixel in the
    corner the L leaves open. *)
Definition l_and_dot : Image :=
  [ [0;   0;   0;   0; 0];
    [0; 255;   0; 255; 0];
    [0; 255;   0;   0; 0];
    [0; 255; 255; 255; 0];
    [0;   0;   0;   0; 0] ]%Z.

(** *** ft_defect_detection *)

Definition ft_defect_detection (g : Globals) (img : Image) (mag_thresh : R)
    (perc_thresh : Q) (area_thresh : Q) (dilation_size : nat)
    : result (list BBox) :=
  img_proc <- Fourier.ft_extract_anomalies img mag_thresh ;;
  find_bounding_boxes g img_proc perc_thresh area_thresh dilation_size.

End Boxes.

(** ** Selecting and projecting on components *)

Module Selection.

Import PCA.
Local Open Scope Q_scope.

(** The share of the variance a selection of components explains: the sum
    of their entries of [explained_variance_ratio_]. *)
Definition explained (ratios : list Q) : Q := fold_right Qplus 0 ratios.

(** Python's [l[start:]] and [l[:stop]]: a negative index counts from the
    end, and an index outside the list is clipped. *)
Definition slice_index (n : nat) (i : Z) : nat :=
  Z.to_nat (if (i <? 0)%Z then Z.max 0 (i + Z.of_nat n)
            else Z.min i (Z.of_nat n)).

Definition slice_from {A : Type} (start : Z) (l : list A) : list A :=
  skipn (slice_index (length l) start) l.

Definition slice_to {A : Type} (stop : Z) (l : list A) : list A :=
  firstn (slice_index (length l) stop) l.

(** The patch-wise variant of the two selections:
    [pca.components_[: i_comp_thresholds[0] + 1]] and
    [pca.components_[i_comp_thresholds[1] - 1 :]]. *)
Definition patch_pca_comps {A : Type} (components : list A) (i : nat)
    : list A :=
  slice_to (Z.of_nat i + 1) components.

Definition patch_npca_comps {A : Type} (components : list A) (i : nat)
    : list A :=
  slice_from (Z.of_nat i - 1) components.

End Selection.

Module Projection.

Import Float Gaussian.
Local Open Scope R_scope.

(** [a[: i]] and [a[i :]] on the rows of a two-dimensional array. *)
Definition rows_to (a : ndarray) (i : nat) : ndarray :=
  let k := Nat.min i (dim a 0) in
  mk_ndarray [k; dim a 1] (firstn (k * dim a 1) (data a)).

Definition rows_from (a : ndarray) (i : nat) : ndarray :=
  let k := Nat.min i (dim a 0) in
  mk_ndarray [(dim a 0 - k)%nat; dim a 1] (skipn (k * dim a 1) (data a)).

(** [a.T] of a two-dimensional array. *)
Definition transpose (a : ndarray) : ndarray :=
  build2 (dim a 1) (dim a 0) (fun i j => at2 a j i).

(** [np.matmul(a, b)] of two-dimensional arrays: [ValueError] unless the
    columns of [a] match the rows of [b]. *)
Definition matmul (a b : ndarray) : result ndarray :=
  if (dim a 1 =? dim b 0)%nat then
    ret (build2 (dim a 0) (dim b 1) (fun i j =>
           sum_upto (dim a 1) (fun k => at2 a i k * at2 b k j)))
  else raise ValueError.

(** [np.matmul(X, pca.components_[: i].T)] and
    [np.matmul(X, pca.components_[i :].T)]. *)
Definition pca_features (X components : ndarray) (i : nat) : result ndarray :=
  matmul X (transpose (rows_to components i)).

Definition npca_features (X components : ndarray) (i : nat) : result ndarray :=
  matmul X (transpose (rows_from components i)).

End Projection.

(** ** The Gaussian detector as an object *)

Module GaussianObject.

Import Float Gaussian.
Local Open Scope R_scope.

(** What a method of the object can raise: one of the exceptions above, or
    [AttributeError] when an attribute is read off [None]. *)
Inductive error : Set :=
| Raised (e : exn)
| AttributeError.

Definition outcome (A : Type) : Type := (error + A)%type.

Definition lift {A : Type} (m : result A) : outcome A :=
  match m with
  | inl e => inl (Raised e)
  | inr a => inr a
  end.

(** A fitted [LedoitWolf] estimator; only [precision_] is read. *)
Record LedoitWolf : Type := mk_LedoitWolf {
  precision_ : ndarray
}.

(** The three attributes of a [GaussianAD] object, [None] until [fit]. *)
Record GaussianAD : Type := mk_GaussianAD {
  mean : option ndarray;
  lw_cov : option LedoitWolf;
  lw_prec : option ndarray
}.

(** [GaussianAD()]. *)
Definition init : GaussianAD := mk_GaussianAD None None None.

(** [np.mean(X, axis=0)] of a two-dimensional array with at least one row:
    the vector of the column means. *)
Definition np_mean_axis0 (X : ndarray) : ndarray :=
  mk_ndarray [dim X 1]
    (map (fun j => sum_upto (dim X 0) (fun i => at2 X i j) / INR (dim X 0))
         (seq 0 (dim X 1))).

(** The input check of [LedoitWolf().fit(X)]: a two-dimensional array with
    at least one sample and one feature; anything else raises
    [ValueError]. *)
Definition check_array (X : ndarray) : bool :=
  (ndim X =? 2)%nat && (1 <=? dim X 0)%nat && (1 <=? dim X 1)%nat.

Section Fit.

(** The estimator the Ledoit-Wolf fit returns on checked training data. *)
Variable ledoit_wolf : ndarray -> LedoitWolf.

(** [fit]: on data that passes the check the three attributes are set and
    the object is returned in its new state.  (On other data the call
    raises, [self.mean] having been overwritten already; the state after a
    failed [fit] is not modelled.) *)
Definition fit (self : GaussianAD) (X : ndarray) : outcome GaussianAD :=
  let mean := np_mean_axis0 X in
  if check_array X then
    let lw_cov := ledoit_wolf X in
    inr (mk_GaussianAD (Some mean) (Some lw_cov) (Some (precision_ lw_cov)))
  else inl (Raised ValueError).

End Fit.

(** [decision_function]: [mahalanobis_distance(X, self.mean, self.lw_prec)]
    with the attributes as they are; the assertions run in order, and the
    first one that reads an attribute of [None] raises [AttributeError]. *)
Definition decision_function (self : GaussianAD) (X : ndarray)
    : outcome (list float64) :=
  if negb (ndim X =? 2)%nat then inl (Raised AssertionError)
  else
    match mean self with
    | None => inl AttributeError
    | Some mu =>
        if negb ((1 <=? ndim mu)%nat && (ndim mu <=? 2)%nat)
        then inl (Raised AssertionError)
        else
          match lw_prec self with
          | None => inl AttributeError
          | Some P => lift (mahalanobis_distance X mu P)
          end
    end.

(** An estimator with the identity as precision matrix, and training and
    test data for it. *)
Definition identity_estimator (X : ndarray) : LedoitWolf :=
  mk_LedoitWolf
    (build2 (dim X 1) (dim X 1) (fun i j => if (i =? j)%nat then 1 else 0)).

Definition three_components : ndarray :=
  mk_ndarray [3%nat; 3%nat] [1; 0; 0; 0; 1; 0; 0; 0; 1].

Definition one_sample : ndarray := mk_ndarray [1%nat; 3%nat] [1; 2; 3].

Definition two_samples : ndarray :=
  mk_ndarray [2%nat; 3%nat] [1; 2; 3; 4; 5; 6].

End GaussianObject.

(** ** Filling the feature banks *)

Module Bank.

Section Fill.

Context {A : Type}.

(** [a[start:stop] = b] on the first axis of a numpy array, for
    non-negative [start] and [stop]: both ends are clipped to the length of
    [a]; [b] must have as many rows as the slice, or a single row, which is
    then broadcast over the slice (also over an empty one); anything else
    raises [ValueError].  Rows are taken whole: the bank and the batches are
    built with the same number of columns. *)
Definition setitem_slice (a : list A) (start stop : nat) (b : list A)
    : result (list A) :=
  let lo := Nat.min start (length a) in
  let hi := Nat.max lo (Nat.min stop (length a)) in
  if (length b =? hi - lo)%nat then ret (firstn lo a ++ b ++ skipn hi a)
  else
    match b with
    | [x] => ret (firstn lo a ++ repeat x (hi - lo) ++ skipn hi a)
    | _ => raise ValueError
    end.

(** The loop that fills the feature bank, one batch of feature rows after
    the other:
    [memory_bank[i_mem : i_mem + feats.shape[0]] = feats;
     i_mem += feats.shape[0]]. *)
Fixpoint fill (memory_bank : list A) (i_mem : nat) (batches : list (list A))
    : result (list A * nat) :=
  match batches with
  | [] => ret (memory_bank, i_mem)
  | feats :: rest =>
      memory_bank <- setitem_slice memory_bank i_mem
                       (i_mem + length feats) feats ;;
      fill memory_bank (i_mem + length feats) rest
  end.

End Fill.

(** The validation loop, which fills the feature array and the label array
    side by side, both sliced by the number of feature rows:
    [val_features[i_mem : i_mem + n_samples] = feats;
     val_labels[i_mem : i_mem + n_samples] = labels;
     i_mem += n_samples]. *)
Fixpoint fill_val {A B : Type} (val_features : list A) (val_labels : list B)
    (i_mem : nat) (batches : list (list A * list B))
    : result (list A * list B * nat) :=
  match batches with
  | [] => ret (val_features, val_labels, i_mem)
  | (feats, labels) :: rest =>
      let n_samples := length feats in
      val_features <- setitem_slice val_features i_mem
                        (i_mem + n_samples) feats ;;
      val_labels <- setitem_slice val_labels i_mem
                      (i_mem + n_samples) labels ;;
      fill_val val_features val_labels (i_mem + n_samples) rest
  end.

End Bank.

(** ** Patch grid of the feature maps *)

Module Grid.

(** [a // b] on sizes: the floor of the quotient; [ZeroDivisionError]
    ([None]) when [b] is zero. *)
Definition floordiv (a b : nat) : option nat :=
  if (b =? 0)%nat then None else Some (a / b)%nat.

(** [math.ceil(a / b)] on sizes: the ceiling of the quotient (the float
    division is exact enough for image sizes); [ZeroDivisionError]
    ([None]) when [b] is zero. *)
Definition ceildiv (a b : nat) : option nat :=
  if (b =? 0)%nat then None else Some ((a + (b - 1)) / b)%nat.

(** [Config.red_factor = Config.img_shape[0] // feats_shapes[0][2]]. *)
Definition red_factor (img_shape0 feats_shape2 : nat) : option nat :=
  floordiv img_shape0 feats_shape2.

(** [h_layer = math.ceil(h / Config.red_factor)], and [w_layer] alike. *)
Definition layer (s red : nat) : option nat := ceildiv s red.

(** [feat_shape = [s // cfg.red_factor for s in gts[0].shape[:2]]]. *)
Definition feat_shape (s red : nat) : option nat := floordiv s red.

End Grid.

(** ** Anomaly maps and their evaluation *)

Module Detector.

Import Float Array2.

(** [ndarray.reshape(h, w)] of a one-dimensional array: [h] rows of [w]
    entries in row-major order; [ValueError] unless the array has [h * w]
    entries. *)
Fixpoint rows {A : Type} (h w : nat) (l : list A) : matrix A :=
  match h with
  | O => []
  | S h' => firstn w l :: rows h' w (skipn w l)
  end.

Definition reshape {A : Type} (h w : nat) (l : list A) : result (matrix A) :=
  if (length l =? h * w)%nat then ret (rows h w l) else raise ValueError.

Section Dtype.

Local Open Scope R_scope.

(** The largest finite value of the floating-point type of the map,
    [np.finfo(anomaly_map.dtype).max]. *)
Variable largest : R.

(** The values of that type that are numbers. *)
Definition finite (v : float64) : Prop :=
  exists x, v = Fin x /\ - largest <= x <= largest.

(** A result beyond the range of the type overflows to an infinity;
    rounding inside the range is not modelled. *)
Definition overflow (v : float64) : float64 :=
  match v with
  | Fin r =>
      if Rlt_dec largest r then PInf
      else if Rlt_dec r (- largest) then NInf
      else Fin r
  | _ => v
  end.

(** [anomaly_map - anomaly_map.min()]. *)
Definition start_at_zero (anomaly_map : matrix float64)
    : result (matrix float64) :=
  min_val <- array_min (concat anomaly_map) ;;
  ret (mmap (fun v => overflow (fsub v min_val)) anomaly_map).

End Dtype.

(** [AnomalyDetector]: the two layer sizes computed by [__init__], and
    [__call__] over what the library calls return. *)
Record AnomalyDetector : Set := mk_AnomalyDetector {
  h_layer : nat;
  w_layer : nat
}.

Definition init (img_shape0 img_shape1 red_factor : nat)
    : option AnomalyDetector :=
  match Grid.layer img_shape0 red_factor, Grid.layer img_shape1 red_factor with
  | Some h, Some w => Some (mk_AnomalyDetector h w)
  | _, _ => None
  end.

Section Call.

(** The image type, the patch scores the fitted classifier gives for the
    features of an image ([get_features], then [clf.decision_function]),
    and the two filters applied to the score patches. *)
Variable PILImage : Type.
Variable width height : PILImage -> nat.
Variable patch_scores : PILImage -> list float64.
Variable cv2_resize : matrix float64 -> nat -> nat -> matrix float64.
Variable gaussian_filter : matrix float64 -> matrix float64.

(** The largest finite value of the floating-point type of the scores. *)
Variable largest : R.

(** The score patches on the grid, and the map before its minimum is
    subtracted. *)
Definition score_patches (self : AnomalyDetector) (img : PILImage)
    : matrix float64 :=
  rows (h_layer self) (w_layer self) (patch_scores img).

Definition smoothed (self : AnomalyDetector) (img : PILImage)
    : matrix float64 :=
  gaussian_filter (cv2_resize (score_patches self img) (width img) (height img)).

Definition call (self : AnomalyDetector) (img : PILImage)
    : result (matrix float64) :=
  let ano_scores := patch_scores img in
  score_patches <- reshape (h_layer self) (w_layer self) ano_scores ;;
  let anomaly_map := cv2_resize score_patches (width img) (height img) in
  let anomaly_map := gaussian_filter anomaly_map in
  start_at_zero largest anomaly_map.

End Call.

(** The ground truth [ValidationDataset.__getitem__] returns: zeros of the
    image's size when the mask file does not exist, the mask divided by 255
    otherwise. *)
Definition getitem_gt (height width : nat) (mask : option Image)
    : matrix Q :=
  match mask with
  | None => tabulate height width (fun _ _ => 0%Q)
  | Some gt => mmap (fun p => (inject_Z p / 255)%Q) gt
  end.

(** [gt.astype(np.int32)]: truncation toward zero. *)
Definition astype_int32 (gt : matrix Q) : matrix Z := mmap Boxes.py_int gt.

(** The image-level ground truth [gts_img[i] = gt.max()]. *)
Definition gts_img_entry (gt : matrix Q) : result Z :=
  Boxes.array_max (concat (astype_int32 gt)).

End Detector.

(** ** Walking inside a dilated block *)

Module Walk.

Import Boxes.

(** One king's move from coordinate [a] toward [b]. *)
Definition toward (a b : nat) : nat :=
  if (a <? b)%nat then S a else if (b <? a)%nat then (a - 1)%nat else a.

(** [x] lies in the rectangle spanned by [q] and [s]. *)
Definition spanned (q s x : pixel) : Prop :=
  (Nat.min (fst q) (fst s) <= fst x <= Nat.max (fst q) (fst s) /\
   Nat.min (snd q) (snd s) <= snd x <= Nat.max (snd q) (snd s))%nat.

End Walk.

(** ** The test dataset and its labels *)

Module Dataset.

Import String.StringSyntax.
Delimit Scope string_scope with string.

(** What building or indexing the dataset can raise. *)
Inductive error : Set :=
| OSError
| KeyError
| IndexError.

Definition outcome (A : Type) : Type := (error + A)%type.

Definition obind {A B : Type} (m : outcome A) (k : A -> outcome B)
    : outcome B :=
  match m with
  | inl e => inl e
  | inr a => k a
  end.

(** *** Paths *)

(** A [pathlib.Path] as the list of its components. *)
Definition Path : Type := list String.string.

(** [p / child], [p.name] and [p.parent]. *)
Definition joinpath (p : Path) (child : String.string) : Path := p ++ [child].
Definition name (p : Path) : String.string := last p String.EmptyString.
Definition parent (p : Path) : Path := removelast p.

(** [name.rfind('.')]. *)
Fixpoint rfind_dot (s : String.string) : option nat :=
  match s with
  | String.EmptyString => None
  | String.String c r =>
      match rfind_dot r with
      | Some i => Some (S i)
      | None => if Ascii.eqb c (Ascii.ascii_of_nat 46) then Some 0%nat else None
      end
  end.

(** [p.suffix] and [p.stem]: the name is split at its last dot, unless
    that dot is the first or the last character. *)
Definition splits (n : String.string) (i : nat) : bool :=
  (0 <? i)%nat && (i <? String.length n - 1)%nat.

Definition suffix (p : Path) : String.string :=
  let n := name p in
  match rfind_dot n with
  | Some i =>
      if splits n i then String.substring i (String.length n - i) n
      else String.EmptyString
  | None => String.EmptyString
  end.

Definition stem (p : Path) : String.string :=
  let n := name p in
  match rfind_dot n with
  | Some i => if splits n i then String.substring 0 i n else n
  | None => n
  end.

(** *** Dictionaries, in insertion order *)

Section Dict.

Context {K V : Type}.
Variable eqb : K -> K -> bool.

(** [d[k] = v]: an existing key keeps its place. *)
Fixpoint setitem (d : list (K * V)) (k : K) (v : V) : list (K * V) :=
  match d with
  | [] => [(k, v)]
  | (k', v') :: r =>
      if eqb k' k then (k', v) :: r else (k', v') :: setitem r k v
  end.

(** [d[k]]; [None] stands for [KeyError]. *)
Fixpoint lookup (d : list (K * V)) (k : K) : option V :=
  match d with
  | [] => None
  | (k', v') :: r => if eqb k' k then Some v' else lookup r k
  end.

End Dict.

(** [seq[index]] on a Python list: a negative index counts from the
    end. *)
Definition list_getitem {A : Type} (l : list A) (index : Z) : outcome A :=
  let i := if (index <? 0)%Z then (index + Z.of_nat (length l))%Z
           else index in
  if (i <? 0)%Z then inl IndexError
  else
    match nth_error l (Z.to_nat i) with
    | Some a => inr a
    | None => inl IndexError
    end.

(** *** TestDataset *)

Record TestDataset : Type := mk_TestDataset {
  img_paths : list Path;
  gt_paths : list Path;
  gt_class_name_to_label_map : list (String.string * nat)
}.

(** [{p.name: i for i, p in enumerate(gt_class_paths)}]. *)
Definition enumerate {A : Type} (l : list A) : list (nat * A) :=
  combine (seq 0 (length l)) l.

Definition class_step (d : list (String.string * nat)) (ip : nat * Path)
    : list (String.string * nat) :=
  setitem String.eqb d (name (snd ip)) (fst ip).

Definition class_map (gt_class_paths : list Path)
    : list (String.string * nat) :=
  fold_left class_step (enumerate gt_class_paths) [].

(** [{v: k for k, v in d.items()}]. *)
Definition label_to_name_map (d : list (String.string * nat))
    : list (nat * String.string) :=
  fold_left (fun m kv => setitem Nat.eqb m (snd kv) (fst kv)) d [].

(** [(test_labels != good_label).astype(np.int32)]; the labels, stored as
    unsigned 32-bit integers, are indices of class directories. *)
Definition ano_gt (test_labels : list nat) (good_label : nat) : list Z :=
  map (fun l => if (l =? good_label)%nat then 0%Z else 1%Z) test_labels.

Section FileSystem.

(** The names a directory lists, in the order the system yields them;
    [OSError] when the path is no directory. *)
Variable listdir : Path -> outcome (list String.string).

(** The loaded and preprocessed image of a path, and its features. *)
Variable Img Feats : Type.
Variable open_image : Path -> outcome Img.
Variable get_features : Img -> outcome Feats.

Definition iterdir (p : Path) : outcome (list Path) :=
  obind (listdir p) (fun names => inr (map (joinpath p) names)).

(** The inner loop: one image path and one mask path appended per
    image. *)
Definition append_images (gt_path p : Path) (images : list Path)
    (acc : list Path * list Path) : list Path * list Path :=
  fold_left (fun acc img_path =>
               (fst acc ++ [img_path],
                snd acc ++ [joinpath (joinpath gt_path (name p))
                              (String.append (stem img_path)
                                 (String.append "_mask"%string
                                    (suffix img_path)))]))
            images acc.

(** The outer loop over the class directories. *)
Fixpoint collect (gt_path : Path) (gt_class_paths : list Path)
    (acc : list Path * list Path) : outcome (list Path * list Path) :=
  match gt_class_paths with
  | [] => inr acc
  | p :: rest =>
      obind (iterdir p) (fun images =>
        collect gt_path rest (append_images gt_path p images acc))
  end.

(** [TestDataset(data_path, gt_path)]. *)
Definition init (data_path gt_path : Path) : outcome TestDataset :=
  obind (iterdir data_path) (fun gt_class_paths =>
    let label_map := class_map gt_class_paths in
    obind (collect gt_path gt_class_paths ([], [])) (fun paths =>
      inr (mk_TestDataset (fst paths) (snd paths) label_map))).

Definition len (self : TestDataset) : nat := length (img_paths self).

(** [test_ds[index]]. *)
Definition getitem (self : TestDataset) (index : Z) : outcome (Img * nat) :=
  obind (list_getitem (img_paths self) index) (fun img_path =>
  obind (list_getitem (gt_paths self) index) (fun gt_path =>
  obind (match lookup String.eqb (gt_class_name_to_label_map self)
                 (name (parent gt_path)) with
         | Some label => inr label
         | None => inl KeyError
         end) (fun label =>
  obind (open_image img_path) (fun img =>
  inr (img, label))))).

(** [test_ds.gt_class_name_to_label_map['good']]. *)
Definition good_label (self : TestDataset) : outcome nat :=
  match lookup String.eqb (gt_class_name_to_label_map self)
          "good"%string with
  | Some label => inr label
  | None => inl KeyError
  end.

(** The loop that extracts the features and stores the label of every
    image, [for i in range(len(test_ds))]. *)
Fixpoint extract (self : TestDataset) (indices : list nat)
    : outcome (list Feats * list nat) :=
  match indices with
  | [] => inr ([], [])
  | i :: rest =>
      obind (getitem self (Z.of_nat i)) (fun item =>
      obind (get_features (fst item)) (fun feats =>
      obind (extract self rest) (fun r =>
      inr (feats :: fst r, snd item :: snd r))))
  end.

Definition test_features_and_labels (self : TestDataset)
    : outcome (list Feats * list nat) :=
  extract self (seq 0 (len self)).

End FileSystem.

(** The mask path of an image lies in the directory named like the
    image's. *)
Definition same_class (img_path gt_path : Path) : Prop :=
  name (parent gt_path) = name (parent img_path).

(** The label stored for index [i]: the one the class dictionary gives for
    the directory of the mask path. *)
Definition labelled (self : TestDataset) (i label : nat) : Prop :=
  exists img_path gt_path,
    nth_error (img_paths self) i = Some img_path /\
    nth_error (gt_paths self) i = Some gt_path /\
    lookup String.eqb (gt_class_name_to_label_map self)
      (name (parent gt_path)) = Some label.

(** A test directory with one good image and two scratched ones. *)
Fixpoint path_eqb (p q : Path) : bool :=
  match p, q with
  | [], [] => true
  | a :: p', b :: q' => String.eqb a b && path_eqb p' q'
  | _, _ => false
  end.

Definition small_listdir (p : Path) : outcome (list String.string) :=
  if path_eqb p ["test"%string] then inr ["good"%string; "scratch"%string]
  else if path_eqb p ["test"%string; "good"%string]
  then inr ["000.png"%string]
  else if path_eqb p ["test"%string; "scratch"%string]
  then inr ["000.png"%string; "001.png"%string]
  else inl OSError.

Definition small_dataset : TestDataset :=
  match init small_listdir ["test"%string] ["ground_truth"%string] with
  | inr self => self
  | inl _ => mk_TestDataset [] [] []
  end.

End Dataset.

(** * Properties of the PCA component cut *)

Section PCAFacts.

Import PCA.
Local Open Scope Q_scope.

Lemma gtb_true (v t : Q) : gtb v t = true <-> t < v.
Proof.
  unfold gtb. rewrite negb_true_iff, <- not_true_iff_false, Qle_bool_iff.
  split; [apply Qnot_le_lt | apply Qlt_not_le].
Qed.

Lemma gtb_false (v t : Q) : gtb v t = false <-> v <= t.
Proof.
  unfold gtb. rewrite negb_false_iff, Qle_bool_iff. tauto.
Qed.

(** Once the best value is [true] the scan never moves. *)
Lemma argmax_scan_true (ibest i : nat) (l : list bool) :
  argmax_scan true ibest i l = ibest.
Proof.
  revert i. induction l as [|b r IH]; intros i; simpl; auto.
Qed.

(** From [false] the scan stops at the first [true], if any. *)
Lemma argmax_scan_false (l : list bool) : forall ibest i,
  (exists k, argmax_scan false ibest i l = (i + k)%nat /\
             nth_error l k = Some true /\
             forall j, (j < k)%nat -> nth_error l j = Some false) \/
  (argmax_scan false ibest i l = ibest /\ forall b, In b l -> b = false).
Proof.
  induction l as [|b r IH]; intros ibest i; simpl.
  - right. split; [reflexivity | intros b []].
  - destruct b; simpl.
    + left. exists 0%nat. rewrite argmax_scan_true. split; [lia|].
      split; [reflexivity | intros j Hj; lia].
    + destruct (IH ibest (S i)) as [[k (Hk & Hn & Hlt)] | [Hk Hall]].
      * left. exists (S k). split; [lia|]. split; [exact Hn|].
        intros [|j] Hj; simpl; [reflexivity | apply Hlt; lia].
      * right. split; [exact Hk|]. intros b [<- | Hb]; auto.
Qed.

Lemma nth_error_exceeds (vs : list Q) (t : Q) (k : nat) (b : bool) :
  nth_error (exceeds vs t) k = Some b ->
  exists v, nth_error vs k = Some v /\ gtb v t = b.
Proof.
  unfold exceeds. rewrite nth_error_map.
  destruct (nth_error vs k) as [v|]; simpl; [|discriminate].
  intros [= <-]. now exists v.
Qed.

(** What [argmax] returns on the comparison array. *)
Lemma argmax_exceeds (vs : list Q) (t : Q) :
  match argmax (exceeds vs t) with
  | inl e => vs = [] /\ e = ValueError
  | inr i =>
      first_exceeding vs t i \/
      (i = 0%nat /\ forall v, In v vs -> v <= t)
  end.
Proof.
  destruct vs as [|v0 r]; simpl; [now split|].
  destruct (gtb v0 t) eqn:E0.
  - rewrite argmax_scan_true. left. split.
    + exists v0. split; [reflexivity | now apply gtb_true].
    + intros j v Hj; lia.
  - destruct (argmax_scan_false (exceeds r t) 0%nat 1%nat)
      as [[k (Hk & Hn & Hlt)] | [Hk Hall]].
    + fold (exceeds r t). rewrite Hk. left. split.
      * destruct (nth_error_exceeds _ _ _ _ Hn) as [v [Hv Hg]].
        exists v. split; [exact Hv | now apply gtb_true].
      * intros [|j] v Hj; simpl.
        -- intros [= <-]. now apply gtb_false.
        -- intros Hv. assert (Hj' : (j < k)%nat) by lia.
           specialize (Hlt j Hj').
           destruct (nth_error_exceeds _ _ _ _ Hlt) as [v' [Hv' Hg]].
           rewrite Hv in Hv'. injection Hv' as <-. now apply gtb_false.
    + fold (exceeds r t). rewrite Hk. right. split; [reflexivity|].
      intros v [<- | Hv]; [now apply gtb_false|].
      apply gtb_false. apply Hall. unfold exceeds.
      apply in_map_iff. now exists v.
Qed.

Lemma cumsum_nil (ratios : list Q) : cumsum ratios = [] -> ratios = [].
Proof. destruct ratios; [reflexivity | discriminate]. Qed.

(** C6, as stated, fails: with a single component that explains all the
    variance and a threshold of exactly 1, the cumulative variance at index
    0 equals the threshold, no index exceeds it, and [argmax] returns that
    very index 0 as the cut. *)
Lemma i_comp_threshold_tie_returned :
  ~ (forall (ratios : list Q) (t : Q) (i : nat),
        i_comp_threshold ratios t = ret i ->
        first_exceeding (cumsum ratios) t i).
Proof.
  intros H. specialize (H [1] 1 0%nat eq_refl).
  destruct H as [[v [Hv Hlt]] _]. simpl in Hv. injection Hv as <-.
  revert Hlt. apply Qlt_irrefl.
Qed.

(** C6, amended: on a non-empty ratio sequence the cut returned is the first
    index whose cumulative explained variance is strictly greater than the
    threshold, whenever some index is (so an index whose cumulative variance
    only equals the threshold is passed over for a later one that exceeds
    it); when no cumulative variance exceeds the threshold the cut is 0.
    Only the empty sequence raises ([ValueError]). *)
Theorem i_comp_threshold_cut (ratios : list Q) (t : Q) :
  match i_comp_threshold ratios t with
  | inl e => ratios = [] /\ e = ValueError
  | inr i =>
      first_exceeding (cumsum ratios) t i \/
      (i = 0%nat /\ forall v, In v (cumsum ratios) -> v <= t)
  end.
Proof.
  unfold i_comp_threshold.
  pose proof (argmax_exceeds (cumsum ratios) t) as H.
  destruct (argmax (exceeds (cumsum ratios) t)) as [e|i]; [|exact H].
  destruct H as [Hnil ->]. split; [now apply cumsum_nil | reflexivity].
Qed.

(** Every threshold of the list gets its own cut, in order. *)
Lemma i_comp_thresholds_each (ratios thresholds : list Q) (cuts : list nat) :
  i_comp_thresholds ratios thresholds = ret cuts ->
  Forall2 (fun t i => i_comp_threshold ratios t = ret i) thresholds cuts.
Proof.
  revert cuts. induction thresholds as [|t ts IH]; intros cuts; simpl.
  - intros [= <-]. constructor.
  - destruct (i_comp_threshold ratios t) as [e|i] eqn:Et; [discriminate|].
    simpl.
    destruct (i_comp_thresholds ratios ts) as [e|rest]; [discriminate|].
    simpl. intros [= <-]. constructor; [exact Et | now apply IH].
Qed.

(** The standard and the negative PCA components cut at the same index
    split the component list: together, in order, they are all the
    components, each once. *)
Lemma pca_npca_partition {A : Type} (components : list A) (i : nat) :
  pca_comps components i ++ npca_comps components i = components.
Proof. apply firstn_skipn. Qed.

End PCAFacts.

(** * Properties of the Gaussian anomaly scorer *)

Section GaussianFacts.

Import Float Gaussian.
Local Open Scope R_scope.

Lemma sum_upto_zero (n : nat) (f : nat -> R) :
  (forall k, f k = 0) -> sum_upto n f = 0.
Proof.
  intros Hf. induction n as [|n IH]; simpl; [reflexivity|].
  rewrite IH, Hf. lra.
Qed.

Lemma nth_all_zero (l : list R) (k : nat) :
  Forall (fun x => x = 0) l -> nth k l 0 = 0.
Proof.
  intros H. revert k. induction H as [|x l Hx _ IH]; intros [|k]; simpl; auto.
Qed.

Lemma np_sqrt_nonneg (r : R) : 0 <= r -> np_sqrt r = Fin (sqrt r).
Proof.
  intros Hr. unfold np_sqrt. destruct (Rlt_dec r 0); [lra | reflexivity].
Qed.

Lemma broadcast_rows_single (b : nat) : broadcast_rows b 1 = ret b.
Proof.
  unfold broadcast_rows.
  destruct (b =? 1)%nat eqn:E; [apply Nat.eqb_eq in E; now subst|].
  reflexivity.
Qed.

Lemma last_dim_vector (a : ndarray) (d : nat) : shape a = [d] -> last_dim a = d.
Proof. unfold last_dim. now intros ->. Qed.

(** With a one-dimensional mean of length [d] and a [d x d] precision
    matrix, a matrix of [d] columns passes every assertion and gets one
    score per row. *)
Lemma mahalanobis_distance_scores (X mu P : ndarray) (d : nat) :
  ndim X = 2%nat -> dim X 1 = d -> shape mu = [d] -> shape P = [d; d] ->
  mahalanobis_distance X mu P =
  ret (map (fun i =>
         np_sqrt (quad_form
           (build2 (dim X 0) d (fun i m =>
              at2 X (if (dim X 0 =? 1)%nat then 0%nat else i) m
              - at2 (expand_dims0 mu) 0%nat m)) P i))
         (seq 0 (dim X 0))).
Proof.
  intros HX Hd Hmu HP. unfold mahalanobis_distance.
  rewrite (last_dim_vector _ _ Hmu).
  unfold ndim, dim at 1 2 3 4. rewrite Hmu, HP. fold (ndim X). rewrite HX.
  fold (dim X 1). rewrite Hd. simpl. rewrite Nat.eqb_refl. simpl.
  unfold subtract.
  assert (Hk : dim (expand_dims0 mu) 0 = 1%nat) by reflexivity.
  rewrite Hk, broadcast_rows_single. simpl.
  rewrite Hd. unfold einsum_im_mn_in. rewrite map_map. reflexivity.
Qed.

Lemma build2_all_zero (rows cols : nat) (f : nat -> nat -> R) :
  (forall i m, f i m = 0) ->
  Forall (fun x => x = 0) (data (build2 rows cols f)).
Proof.
  intros Hf. simpl. apply Forall_flat_map, Forall_forall. intros i _.
  apply Forall_map, Forall_forall. intros m _. apply Hf.
Qed.

(** A model scores its own mean with 0, whatever its precision matrix. *)
Lemma decision_function_at_mean (d : nat) (self : GaussianAD) :
  shape (mean self) = [d] -> shape (lw_prec self) = [d; d] ->
  decision_function self (as_row (mean self)) = ret [Fin 0].
Proof.
  intros Hmu HP. unfold decision_function.
  rewrite (mahalanobis_distance_scores _ _ _ d); auto;
    try (unfold as_row, expand_dims0, ndim, dim; simpl; now rewrite Hmu).
  assert (Hrows : dim (as_row (mean self)) 0 = 1%nat) by reflexivity.
  rewrite Hrows. simpl. f_equal.
  unfold quad_form. rewrite sum_upto_zero.
  - rewrite np_sqrt_nonneg by lra. now rewrite sqrt_0.
  - intros m. apply sum_upto_zero. intros n.
    unfold at2 at 1. rewrite nth_all_zero; [ring|].
    apply build2_all_zero. intros i k. unfold as_row. ring.
Qed.

Lemma sum_upto_ext (n : nat) (f g : nat -> R) :
  (forall k, (k < n)%nat -> f k = g k) -> sum_upto n f = sum_upto n g.
Proof.
  induction n as [|n IH]; intros H; simpl; [reflexivity|].
  rewrite IH by (intros k Hk; apply H; lia). rewrite H by lia. reflexivity.
Qed.

Lemma nth_flat_map_rows (cols : nat) (g : nat -> nat -> R) :
  forall (rows start i m : nat),
    (i < rows)%nat -> (m < cols)%nat ->
    nth (i * cols + m)
      (flat_map (fun i => map (g i) (seq 0 cols)) (seq start rows)) 0
    = g (start + i)%nat m.
Proof.
  induction rows as [|rows IH]; intros start i m Hi Hm; [lia|].
  simpl. destruct i as [|i].
  - simpl. rewrite app_nth1 by (rewrite length_map, length_seq; lia).
    rewrite (nth_indep _ 0 (g start 0%nat))
      by (rewrite length_map, length_seq; lia).
    rewrite map_nth, seq_nth by lia. now rewrite Nat.add_0_r.
  - rewrite app_nth2 by (rewrite length_map, length_seq; simpl; lia).
    rewrite length_map, length_seq.
    replace (S i * cols + m - cols)%nat with (i * cols + m)%nat
      by (simpl; lia).
    rewrite IH by lia. f_equal. lia.
Qed.

Lemma at2_build2 (rows cols : nat) (f : nat -> nat -> R) (i m : nat) :
  (i < rows)%nat -> (m < cols)%nat -> at2 (build2 rows cols f) i m = f i m.
Proof.
  intros Hi Hm. unfold at2, build2, dim. simpl.
  now rewrite (nth_flat_map_rows cols f rows 0 i m).
Qed.

Lemma quad_form_build2 (rows d : nat) (f : nat -> nat -> R) (P : ndarray)
    (i : nat) :
  (i < rows)%nat ->
  quad_form (build2 rows d f) P i
  = sum_upto d (fun m => sum_upto d (fun n => f i m * at2 P m n * f i n)).
Proof.
  intros Hi. unfold quad_form.
  change (dim (build2 rows d f) 1) with d.
  apply sum_upto_ext. intros m Hm. apply sum_upto_ext. intros n Hn.
  now rewrite !at2_build2.
Qed.







(** C7: when the test matrix is not two-dimensional with as many columns as
    the fitted mean has entries, or the precision matrix is not square of
    that dimension, [decision_function] raises [AssertionError]; no score
    array is returned. *)
Theorem decision_function_rejects_shape_mismatch (d : nat) (self : GaussianAD)
    (X : ndarray) :
  shape (mean self) = [d] ->
  ndim X <> 2%nat \/ dim X 1 <> d \/ shape (lw_prec self) <> [d; d] ->
  decision_function self X = raise AssertionError.
Proof.
  intros Hmu H. unfold decision_function, mahalanobis_distance.
  rewrite (last_dim_vector _ _ Hmu).
  destruct (ndim X =? 2)%nat eqn:EX; [|reflexivity].
  unfold ndim at 1 2. rewrite Hmu. simpl.
  destruct (ndim (lw_prec self) =? 2)%nat eqn:EP; [|reflexivity]. simpl.
  destruct (dim X 1 =? d)%nat eqn:Ed; [|reflexivity]. simpl.
  destruct (d =? dim (lw_prec self) 0)%nat eqn:E0; [|reflexivity]. simpl.
  destruct (dim (lw_prec self) 0 =? dim (lw_prec self) 1)%nat eqn:E1;
    [|reflexivity].
  exfalso.
  apply Nat.eqb_eq in EX, EP, Ed, E0, E1.
  destruct H as [H | [H | H]]; [now apply H | now apply H |].
  apply H. unfold ndim, dim in *.
  destruct (shape (lw_prec self)) as [|a [|b [|c r]]]; simpl in *;
    try discriminate. congruence.
Qed.

(** Two columns against the unit model's single feature. *)
Lemma decision_function_rejects_shape_mismatch_witness :
  decision_function unit_model (mk_ndarray [1%nat; 2%nat] [0; 0])
  = raise AssertionError.
Proof.
  apply (decision_function_rejects_shape_mismatch 1 unit_model
           (mk_ndarray [1%nat; 2%nat] [0; 0])).
  - reflexivity.
  - right. left. unfold dim. simpl. lia.
Defined.

(** X3: whatever the three arrays, a score array comes back only when all
    six shape assertions hold. *)
Lemma mahalanobis_distance_returns (values mu P : ndarray)
    (scores : list float64) :
  mahalanobis_distance values mu P = ret scores ->
  ndim values = 2%nat /\
  (ndim mu = 1%nat \/ ndim mu = 2%nat) /\
  ndim P = 2%nat /\
  dim values 1 = last_dim mu /\
  last_dim mu = dim P 0 /\
  dim P 0 = dim P 1.
Proof.
  unfold mahalanobis_distance.
  destruct (ndim values =? 2)%nat eqn:E1; [|discriminate].
  destruct ((1 <=? ndim mu)%nat && (ndim mu <=? 2)%nat) eqn:E2;
    [|discriminate].
  destruct (ndim P =? 2)%nat eqn:E3; [|discriminate].
  destruct (dim values 1 =? last_dim mu)%nat eqn:E4; [|discriminate].
  destruct (last_dim mu =? dim P 0)%nat eqn:E5; [|discriminate].
  destruct (dim P 0 =? dim P 1)%nat eqn:E6; [|discriminate].
  intros _. apply andb_true_iff in E2. destruct E2 as [E2 E2'].
  apply Nat.leb_le in E2, E2'.
  apply Nat.eqb_eq in E1, E3, E4, E5, E6. repeat split; auto; lia.
Qed.

(** The unit model scores its own mean. *)
Lemma mahalanobis_distance_returns_witness :
  ndim (as_row (mean unit_model)) = 2%nat /\
  (ndim (mean unit_model) = 1%nat \/ ndim (mean unit_model) = 2%nat) /\
  ndim (lw_prec unit_model) = 2%nat /\
  dim (as_row (mean unit_model)) 1 = last_dim (mean unit_model) /\
  last_dim (mean unit_model) = dim (lw_prec unit_model) 0 /\
  dim (lw_prec unit_model) 0 = dim (lw_prec unit_model) 1.
Proof.
  apply (mahalanobis_distance_returns (as_row (mean unit_model))
           (mean unit_model) (lw_prec unit_model) [Fin 0]).
  now apply (decision_function_at_mean 1%nat unit_model).
Defined.

End GaussianFacts.

Lemma bind_ret {A B : Type} (a : A) (k : A -> result B) :
  bind (ret a) k = k a.
Proof. reflexivity. Qed.

(** * Arrays *)

Lemma list_eta {A : Type} (d : A) (l : list A) :
  l = map (fun j => nth j l d) (seq 0 (length l)).
Proof.
  induction l as [|x l IH]; [reflexivity|].
  simpl. f_equal. rewrite <- seq_shift, map_map. exact IH.
Qed.

Section Array2Facts.

Import Array2.
Context {A : Type}.

Lemma shape0_tabulate (h w : nat) (f : nat -> nat -> A) :
  shape0 (tabulate h w f) = h.
Proof. unfold shape0, tabulate. now rewrite length_map, length_seq. Qed.

Lemma shape1_tabulate (h w : nat) (f : nat -> nat -> A) :
  h <> 0%nat -> shape1 (tabulate h w f) = w.
Proof.
  unfold shape1, tabulate. destruct h as [|h]; [easy|]. intros _.
  simpl. now rewrite length_map, length_seq.
Qed.

Lemma get_tabulate (d : A) (h w : nat) (f : nat -> nat -> A) (i j : nat) :
  (i < h)%nat -> (j < w)%nat -> get d (tabulate h w f) i j = f i j.
Proof.
  intros Hi Hj. unfold get, tabulate.
  rewrite (nth_indep _ [] (map (f 0%nat) (seq 0 w)))
    by now rewrite length_map, length_seq.
  rewrite (map_nth (fun i => map (f i) (seq 0 w)) (seq 0 h) 0%nat i).
  rewrite seq_nth by assumption. simpl.
  rewrite (nth_indep _ d (f i 0%nat)) by now rewrite length_map, length_seq.
  rewrite (map_nth (f i) (seq 0 w) 0%nat j).
  now rewrite seq_nth.
Qed.

Lemma tabulate_ext (h w : nat) (f g : nat -> nat -> A) :
  (forall i j, (i < h)%nat -> (j < w)%nat -> f i j = g i j) ->
  tabulate h w f = tabulate h w g.
Proof.
  intros H. unfold tabulate. apply map_ext_in. intros i Hi.
  apply in_seq in Hi. apply map_ext_in. intros j Hj. apply in_seq in Hj.
  apply H; lia.
Qed.

Lemma rect_tabulate (h w : nat) (f : nat -> nat -> A) :
  rect h w (tabulate h w f).
Proof.
  split; [apply shape0_tabulate|].
  unfold tabulate. apply Forall_map, Forall_forall. intros i _.
  now rewrite length_map, length_seq.
Qed.

(** A rectangular array is the table of its entries. *)
Lemma rect_eta (d : A) (h w : nat) (x : matrix A) :
  rect h w x -> x = tabulate h w (get d x).
Proof.
  intros [Hh Hw]. unfold tabulate, get. subst h.
  rewrite (list_eta [] x) at 1. apply map_ext_in. intros i Hi.
  apply in_seq in Hi.
  assert (Hrow : length (nth i x []) = w).
  { rewrite Forall_forall in Hw. apply Hw, nth_In. lia. }
  rewrite (list_eta d (nth i x [])) at 1. now rewrite Hrow.
Qed.

Lemma rect_shape1 (h w : nat) (x : matrix A) :
  rect h w x -> h <> 0%nat -> shape1 x = w.
Proof.
  intros [Hh Hw] Hne. unfold shape1. destruct x as [|r x]; simpl in *.
  - congruence.
  - now inversion Hw.
Qed.

End Array2Facts.

Section MmapFacts.

Import Array2.
Context {A B : Type}.

Lemma shape0_mmap (f : A -> B) (x : matrix A) : shape0 (mmap f x) = shape0 x.
Proof. unfold shape0, mmap. apply length_map. Qed.

Lemma shape1_mmap (f : A -> B) (x : matrix A) : shape1 (mmap f x) = shape1 x.
Proof.
  unfold shape1, mmap. destruct x as [|r x]; simpl; [reflexivity|].
  apply length_map.
Qed.

Lemma mmap_tabulate (g : A -> B) (h w : nat) (f : nat -> nat -> A) :
  mmap g (tabulate h w f) = tabulate h w (fun i j => g (f i j)).
Proof.
  unfold mmap, tabulate. rewrite map_map. apply map_ext. intros i.
  now rewrite map_map.
Qed.

Lemma concat_mmap (f : A -> B) (x : matrix A) :
  concat (mmap f x) = map f (concat x).
Proof. unfold mmap. symmetry. apply concat_map. Qed.

Lemma mmap_ext_in (f g : A -> B) (x : matrix A) :
  (forall a, In a (concat x) -> f a = g a) -> mmap f x = mmap g x.
Proof.
  intros H. unfold mmap. apply map_ext_in. intros row Hrow.
  apply map_ext_in. intros a Ha. apply H. apply in_concat. eauto.
Qed.

End MmapFacts.

Lemma mmap_mmap {A B C : Type} (f : A -> B) (g : B -> C) (x : Array2.matrix A) :
  Array2.mmap g (Array2.mmap f x) = Array2.mmap (fun a => g (f a)) x.
Proof.
  unfold Array2.mmap. rewrite map_map. apply map_ext. intros r.
  apply map_map.
Qed.

Lemma concat_tabulate_nonempty {A : Type} (h w : nat) (f : nat -> nat -> A) :
  h <> 0%nat -> w <> 0%nat -> concat (Array2.tabulate h w f) <> [].
Proof.
  destruct h as [|h]; [easy|]. destruct w as [|w]; [easy|]. intros _ _.
  unfold Array2.tabulate. simpl. discriminate.
Qed.

(** * float64 *)

Section FloatFacts.

Import Float Fourier.
Local Open Scope R_scope.

Ltac float_cases :=
  unfold between, fsub, fmax, fmin, fgtb, fleb, fadd, fmul, fneg, of_sign,
    sign_mul, fsign, Rsign, Rltb, Rleb, log_value in *;
  repeat match goal with
  | v : float64 |- _ => destruct v
  end;
  simpl in *;
  repeat match goal with
  | |- context [Rlt_dec ?a ?b] => destruct (Rlt_dec a b)
  | |- context [Rle_dec ?a ?b] => destruct (Rle_dec a b)
  | H : context [Rlt_dec ?a ?b] |- _ => destruct (Rlt_dec a b)
  | H : context [Rle_dec ?a ?b] |- _ => destruct (Rle_dec a b)
  end;
  simpl in *;
  try tauto; try discriminate; try reflexivity; try lra.

Lemma np_log_value (r : R) : 0 <= r -> log_value (np_log r).
Proof.
  intros Hr. unfold np_log.
  destruct (Rlt_dec 0 r); [exact I|]. destruct (Rlt_dec r 0); [lra | exact I].
Qed.

Lemma fmin_log_value (a b : float64) :
  log_value a -> log_value b -> log_value (fmin a b).
Proof. intros Ha Hb. float_cases. Qed.

Lemma fmax_log_value (a b : float64) :
  log_value a -> log_value b -> log_value (fmax a b).
Proof. intros Ha Hb. float_cases. Qed.

Lemma fleb_refl (a : float64) : log_value a -> fleb a a = true.
Proof. intros Ha. float_cases. Qed.

Lemma fleb_trans (a b c : float64) :
  fleb a b = true -> fleb b c = true -> fleb a c = true.
Proof. intros Hab Hbc. float_cases. Qed.

Lemma fmin_le_l (a b : float64) :
  log_value a -> log_value b -> fleb (fmin a b) a = true.
Proof. intros Ha Hb. float_cases. Qed.

Lemma fmax_ge_l (a b : float64) :
  log_value a -> log_value b -> fleb a (fmax a b) = true.
Proof. intros Ha Hb. float_cases. Qed.

Lemma fold_fmin_le (r : list float64) : forall a,
  log_value a -> Forall log_value r ->
  log_value (fold_left fmin r a) /\ fleb (fold_left fmin r a) a = true.
Proof.
  induction r as [|b r IH]; intros a Ha Hr; simpl.
  - split; [exact Ha | now apply fleb_refl].
  - inversion Hr as [|? ? Hb Hr']; subst.
    destruct (IH (fmin a b)) as [Hv Hle]; auto using fmin_log_value.
    split; [exact Hv|].
    eapply fleb_trans; [exact Hle | now apply (fmin_le_l a b)].
Qed.

Lemma fold_fmax_ge (r : list float64) : forall a,
  log_value a -> Forall log_value r ->
  log_value (fold_left fmax r a) /\ fleb a (fold_left fmax r a) = true.
Proof.
  induction r as [|b r IH]; intros a Ha Hr; simpl.
  - split; [exact Ha | now apply fleb_refl].
  - inversion Hr as [|? ? Hb Hr']; subst.
    destruct (IH (fmax a b)) as [Hv Hle]; auto using fmax_log_value.
    split; [exact Hv|].
    eapply fleb_trans; [now apply (fmax_ge_l a b) | exact Hle].
Qed.

(** Raising the fraction never lets a new entry exceed the threshold. *)
Lemma between_monotone (mn mx v : float64) (t1 t2 : R) :
  log_value mn -> log_value mx -> fleb mn mx = true ->
  t1 <= t2 ->
  fgtb v (between mn mx t2) = true -> fgtb v (between mn mx t1) = true.
Proof.
  intros Hmn Hmx Hle Ht H. float_cases; try nra.
Qed.

(** When the threshold is a number and the entry is not [NaN], "not above"
    and "at or below" agree; against a [NaN] threshold nothing is above and
    nothing is at or below. *)
Lemma not_above_at_or_below (m thr : float64) :
  m <> NaN -> thr <> NaN -> negb (fgtb m thr) = fleb m thr.
Proof. intros Hm Ht. float_cases; try congruence. Qed.

Lemma nothing_above_nan (m : float64) : fgtb m NaN = false.
Proof. now destruct m. Qed.

Lemma nothing_at_or_below_nan (m : float64) : fleb m NaN = false.
Proof. now destruct m. Qed.

End FloatFacts.

(** * The frequency-domain extractor *)

Section FourierFacts.

Import Float Array2 Fourier.
Local Open Scope R_scope.

Lemma magnitude_mask_eq (mag_img : matrix float64) (thresh : float64) :
  magnitude_mask mag_img thresh = mmap (fun v => fgtb v thresh) mag_img.
Proof.
  unfold magnitude_mask, astype_bool, cv2_threshold_binary.
  rewrite mmap_mmap. apply mmap_ext_in. intros v _.
  destruct (fgtb v thresh).
  - destruct (Req_dec_T 1 0); [lra | reflexivity].
  - destruct (Req_dec_T 0 0); [reflexivity | lra].
Qed.

Lemma Cabs_nonneg (z : C) : 0 <= Cabs z.
Proof. apply sqrt_pos. Qed.

Lemma log_magnitude_values (fshift : matrix C) :
  Forall log_value (concat (log_magnitude fshift)).
Proof.
  unfold log_magnitude. rewrite concat_mmap. apply Forall_map, Forall_forall.
  intros z _. apply np_log_value, Cabs_nonneg.
Qed.

Lemma spectrum_nonempty (img : Image) :
  shape0 img <> 0%nat -> shape1 img <> 0%nat ->
  spectrum img = ret (shifted img).
Proof.
  intros H0 H1. unfold spectrum, fft2, prepare.
  rewrite shape0_mmap, shape1_mmap.
  destruct (shape0 img =? 0)%nat eqn:E0; [apply Nat.eqb_eq in E0; lia|].
  destruct (shape1 img =? 0)%nat eqn:E1; [apply Nat.eqb_eq in E1; lia|].
  reflexivity.
Qed.

Lemma spectrum_empty (img : Image) :
  shape0 img = 0%nat \/ shape1 img = 0%nat ->
  spectrum img = raise ValueError.
Proof.
  intros H. unfold spectrum, fft2, prepare.
  rewrite shape0_mmap, shape1_mmap.
  destruct H as [-> | ->]; simpl; [reflexivity|].
  now rewrite orb_true_r.
Qed.

Lemma shape0_dft2 (s : R) (x : matrix C) : shape0 (dft2 s x) = shape0 x.
Proof. unfold dft2. apply shape0_tabulate. Qed.

Lemma shape1_dft2 (s : R) (x : matrix C) : shape1 (dft2 s x) = shape1 x.
Proof.
  unfold dft2. destruct (Nat.eq_dec (shape0 x) 0) as [E|E].
  - rewrite E. simpl. unfold shape0 in E. apply length_zero_iff_nil in E.
    now subst.
  - now apply shape1_tabulate.
Qed.

Lemma shifted_table (img : Image) :
  shifted img =
  tabulate (shape0 img) (shape1 img) (fun i j =>
    get C0 (dft2 (-1) (mmap RtoC (prepare img)))
      ((i + (shape0 img - shape0 img / 2)) mod shape0 img)
      ((j + (shape1 img - shape1 img / 2)) mod shape1 img)).
Proof.
  unfold shifted, fftshift. rewrite shape0_dft2, shape1_dft2.
  unfold prepare. now rewrite !shape0_mmap, !shape1_mmap.
Qed.

Lemma shape0_shifted (img : Image) : shape0 (shifted img) = shape0 img.
Proof. rewrite shifted_table. apply shape0_tabulate. Qed.

Lemma shape1_shifted (img : Image) :
  shape0 img <> 0%nat -> shape1 (shifted img) = shape1 img.
Proof. intros H. rewrite shifted_table. now apply shape1_tabulate. Qed.

(** On a non-empty array of log-magnitudes the threshold is computed from
    a minimum below a maximum. *)
Lemma thresh_val_between (mag_img : matrix float64) :
  concat mag_img <> [] -> Forall log_value (concat mag_img) ->
  exists mn mx,
    (forall t, thresh_val mag_img t = ret (between mn mx t)) /\
    log_value mn /\ log_value mx /\ fleb mn mx = true.
Proof.
  intros Hne Hv. unfold thresh_val.
  destruct (concat mag_img) as [|a r]; [congruence|].
  inversion Hv as [|? ? Ha Hr]; subst.
  destruct (fold_fmin_le r a Ha Hr) as [Hmn Hle1].
  destruct (fold_fmax_ge r a Ha Hr) as [Hmx Hle2].
  exists (fold_left fmin r a), (fold_left fmax r a). simpl.
  repeat split; auto. eapply fleb_trans; eauto.
Qed.

Lemma count_true_mmap {A : Type} (f : A -> bool) (x : matrix A) :
  count_true (mmap f x) = length (filter f (concat x)).
Proof.
  unfold count_true. rewrite concat_mmap.
  induction (concat x) as [|a l IH]; simpl; [reflexivity|].
  destruct (f a); simpl; now rewrite IH.
Qed.

Lemma filter_length_mono {A : Type} (f g : A -> bool) (l : list A) :
  (forall a, In a l -> f a = true -> g a = true) ->
  (length (filter f l) <= length (filter g l))%nat.
Proof.
  induction l as [|a l IH]; intros H; simpl; [lia|].
  assert (IH' := IH (fun b Hb => H b (or_intror Hb))).
  destruct (f a) eqn:Ef.
  - rewrite (H a (or_introl eq_refl) Ef). simpl. lia.
  - destruct (g a); simpl; lia.
Qed.

Lemma log_magnitude_nonempty (img : Image) :
  shape0 img <> 0%nat -> shape1 img <> 0%nat ->
  concat (log_magnitude (shifted img)) <> [].
Proof.
  intros H0 H1. rewrite shifted_table. unfold log_magnitude.
  rewrite mmap_tabulate. now apply concat_tabulate_nonempty.
Qed.

(** C4: for every image and thresholds [t1 <= t2] the magnitude mask
    computed with [t2] has no more true entries than the mask computed with
    [t1]; both masks are returned unless the image has no pixel, in which
    case both calls raise [ValueError]. *)
Theorem magnitude_mask_monotone (img : Image) (t1 t2 : R) :
  t1 <= t2 ->
  (exists m1 m2,
      ft_magnitude_mask img t1 = ret m1 /\
      ft_magnitude_mask img t2 = ret m2 /\
      (count_true m2 <= count_true m1)%nat) \/
  ((shape0 img = 0%nat \/ shape1 img = 0%nat) /\
   ft_magnitude_mask img t1 = raise ValueError /\
   ft_magnitude_mask img t2 = raise ValueError).
Proof.
  intros Ht. unfold ft_magnitude_mask.
  destruct (Nat.eq_dec (shape0 img) 0) as [E0|E0];
    [right; rewrite spectrum_empty by auto; auto|].
  destruct (Nat.eq_dec (shape1 img) 0) as [E1|E1];
    [right; rewrite spectrum_empty by auto; auto|].
  left. rewrite spectrum_nonempty by assumption. simpl.
  pose proof (log_magnitude_values (shifted img)) as Hv.
  pose proof (log_magnitude_nonempty img E0 E1) as Hne.
  destruct (thresh_val_between _ Hne Hv) as (mn & mx & Hthr & Hmn & Hmx & Hle).
  rewrite !Hthr. simpl. do 2 eexists. repeat split.
  rewrite !magnitude_mask_eq, !count_true_mmap.
  apply filter_length_mono. intros v _.
  now apply between_monotone.
Qed.

(** The masks of a one-pixel image at thresholds 0 and 1. *)
Lemma magnitude_mask_monotone_witness :
  (exists m1 m2,
      ft_magnitude_mask [[0%Z]] 0 = ret m1 /\
      ft_magnitude_mask [[0%Z]] 1 = ret m2 /\
      (count_true m2 <= count_true m1)%nat) \/
  ((shape0 [[0%Z]] = 0%nat \/ shape1 [[0%Z]] = 0%nat) /\
   ft_magnitude_mask [[0%Z]] 0 = raise ValueError /\
   ft_magnitude_mask [[0%Z]] 1 = raise ValueError).
Proof.
  apply (magnitude_mask_monotone [[0%Z]] 0 1). lra.
Defined.

(** ** Tables of one value *)

Lemma get_constant {A : Type} (d : A) (h w i j : nat) :
  get d (tabulate h w (fun _ _ => d)) i j = d.
Proof.
  destruct (lt_dec i h) as [Hi|Hi]; [destruct (lt_dec j w) as [Hj|Hj]|].
  - now apply get_tabulate.
  - unfold get, tabulate.
    rewrite (nth_indep _ [] (map (fun _ => d) (seq 0 w)))
      by now rewrite length_map, length_seq.
    rewrite (map_nth (fun _ => map (fun _ => d) (seq 0 w)) (seq 0 h) 0%nat i).
    apply nth_overflow. rewrite length_map, length_seq. lia.
  - unfold get, tabulate. rewrite (nth_overflow _ []).
    + now destruct j.
    + rewrite length_map, length_seq. lia.
Qed.

Lemma Csum_zero (n : nat) (f : nat -> C) :
  (forall k, f k = C0) -> Csum n f = C0.
Proof.
  intros Hf. induction n as [|n IH]; simpl; [reflexivity|].
  rewrite IH, Hf. unfold Cadd, C0. simpl. f_equal; lra.
Qed.

Lemma Cmul_zero_l (z : C) : Cmul C0 z = C0.
Proof. unfold Cmul, C0. simpl. f_equal; lra. Qed.

Lemma Cabs_zero : Cabs C0 = 0.
Proof.
  unfold Cabs, C0. simpl. replace (0 * 0 + 0 * 0) with 0 by lra. apply sqrt_0.
Qed.

Lemma shape0_zeros (h w : nat) : shape0 (zeros h w) = h.
Proof. apply shape0_tabulate. Qed.

Lemma shape1_zeros (h w : nat) : h <> 0%nat -> shape1 (zeros h w) = w.
Proof. apply shape1_tabulate. Qed.

Lemma dft2_zeros (s : R) (h w : nat) :
  h <> 0%nat -> dft2 s (zeros h w) = zeros h w.
Proof.
  intros Hh. unfold dft2. rewrite shape0_zeros, shape1_zeros by assumption.
  apply tabulate_ext. intros k l _ _.
  apply Csum_zero. intros m. apply Csum_zero. intros n.
  unfold zeros. rewrite get_constant. apply Cmul_zero_l.
Qed.

Lemma fftshift_zeros (h w : nat) :
  h <> 0%nat -> fftshift C0 (zeros h w) = zeros h w.
Proof.
  intros Hh. unfold fftshift. rewrite shape0_zeros, shape1_zeros by assumption.
  apply tabulate_ext. intros i j _ _. apply get_constant.
Qed.

Lemma ifftshift_zeros (h w : nat) :
  h <> 0%nat -> ifftshift C0 (zeros h w) = zeros h w.
Proof.
  intros Hh. unfold ifftshift. rewrite shape0_zeros, shape1_zeros by assumption.
  apply tabulate_ext. intros i j _ _. apply get_constant.
Qed.

Lemma shifted_zero_image (h w : nat) :
  h <> 0%nat -> shifted (constant_image h w 0) = zeros h w.
Proof.
  intros Hh. unfold shifted, prepare, constant_image.
  rewrite !mmap_tabulate.
  replace (tabulate h w (fun _ _ => RtoC (IZR 0 / 255))) with (zeros h w).
  - rewrite dft2_zeros by assumption. now apply fftshift_zeros.
  - apply tabulate_ext. intros i j _ _. unfold RtoC, C0. f_equal. lra.
Qed.

Lemma np_log_zero : np_log 0 = NInf.
Proof.
  unfold np_log. destruct (Rlt_dec 0 0); [lra|reflexivity].
Qed.

Lemma log_magnitude_zeros (h w : nat) :
  log_magnitude (zeros h w) = tabulate h w (fun _ _ => NInf).
Proof.
  unfold log_magnitude, zeros. rewrite mmap_tabulate.
  apply tabulate_ext. intros i j _ _. rewrite Cabs_zero. apply np_log_zero.
Qed.

Lemma concat_constant {A : Type} (h w : nat) (c : A) :
  Forall (fun v => v = c) (concat (tabulate h w (fun _ _ => c))).
Proof.
  apply Forall_concat. unfold tabulate. apply Forall_map, Forall_forall.
  intros i _. apply Forall_map, Forall_forall. intros j _. reflexivity.
Qed.

Lemma fold_left_idem {A : Type} (op : A -> A -> A) (c : A) (l : list A) :
  op c c = c -> Forall (fun v => v = c) l -> fold_left op l c = c.
Proof.
  intros Hop H. induction H as [|x l -> _ IH]; simpl; [reflexivity|].
  now rewrite Hop.
Qed.

Lemma thresh_val_all_ninf (h w : nat) (t : R) :
  h <> 0%nat -> w <> 0%nat ->
  thresh_val (tabulate h w (fun _ _ => NInf)) t = ret NaN.
Proof.
  intros Hh Hw. unfold thresh_val.
  pose proof (concat_constant h w NInf) as Hall.
  pose proof (concat_tabulate_nonempty h w (fun _ _ => NInf) Hh Hw) as Hne.
  destruct (concat _) as [|a r]; [congruence|].
  inversion Hall as [|? ? -> Hr]; subst. simpl.
  rewrite !fold_left_idem by auto. reflexivity.
Qed.

Lemma Int_part_IZR (z : Z) : Int_part (IZR z) = z.
Proof.
  symmetry. apply Int_part_spec. split; lra.
Qed.

Lemma astype_uint8_IZR (z : Z) :
  (0 <= z < 256)%Z -> astype_uint8 (IZR z) = z.
Proof.
  intros Hz. unfold astype_uint8, trunc.
  destruct (Rle_dec 0 (IZR z)) as [_|n].
  - rewrite Int_part_IZR. now apply Z.mod_small.
  - exfalso. apply n. apply IZR_le. lia.
Qed.

Lemma reconstruct_zeros (h w : nat) :
  h <> 0%nat -> w <> 0%nat ->
  reconstruct (zeros h w) = ret (tabulate h w (fun _ _ => 0)).
Proof.
  intros Hh Hw. unfold reconstruct, ifft2.
  rewrite ifftshift_zeros, shape0_zeros, shape1_zeros by assumption.
  destruct (h =? 0)%nat eqn:E0; [apply Nat.eqb_eq in E0; lia|].
  destruct (w =? 0)%nat eqn:E1; [apply Nat.eqb_eq in E1; lia|].
  simpl. rewrite dft2_zeros by assumption. unfold zeros.
  rewrite !mmap_tabulate. unfold ret. f_equal.
  apply tabulate_ext. intros i j _ _.
  replace (Cscale (/ (INR h * INR w)) C0) with C0.
  - apply Cabs_zero.
  - unfold Cscale, C0. simpl. f_equal; lra.
Qed.

Lemma apply_mask_zeros (h w : nat) (mask : matrix bool) :
  h <> 0%nat -> apply_mask (zeros h w) mask = zeros h w.
Proof.
  intros Hh. unfold apply_mask.
  rewrite shape0_zeros, shape1_zeros by assumption.
  apply tabulate_ext. intros i j _ _.
  unfold zeros. rewrite get_constant. now destruct (get false mask i j).
Qed.

(** The run of [ft_extract_anomalies] on an all-zero image. *)
Lemma ft_all_zero (h w : nat) (t : R) :
  h <> 0%nat -> w <> 0%nat ->
  ft_thresh_val (constant_image h w 0) t = ret NaN /\
  ft_magnitude_mask (constant_image h w 0) t
    = ret (tabulate h w (fun _ _ => false)) /\
  ft_extract_anomalies (constant_image h w 0) t
    = ret (constant_image h w 0).
Proof.
  intros Hh Hw.
  assert (Hs : spectrum (constant_image h w 0) = ret (zeros h w)).
  { rewrite spectrum_nonempty.
    - now rewrite shifted_zero_image.
    - unfold constant_image. now rewrite shape0_tabulate.
    - unfold constant_image. now rewrite shape1_tabulate. }
  unfold ft_thresh_val, ft_magnitude_mask, ft_extract_anomalies,
    ft_reconstruction.
  rewrite Hs. simpl. rewrite log_magnitude_zeros.
  rewrite thresh_val_all_ninf by assumption. simpl.
  repeat split.
  - rewrite magnitude_mask_eq, mmap_tabulate. reflexivity.
  - rewrite apply_mask_zeros by assumption.
    rewrite reconstruct_zeros by assumption. simpl.
    unfold to_image, constant_image. rewrite mmap_tabulate.
    unfold ret. f_equal. apply tabulate_ext. intros i j _ _.
    replace (0 * 255) with (IZR 0) by lra. apply astype_uint8_IZR. lia.
Qed.

(** ** Images of one pixel *)

Lemma dft2_one_pixel (s : R) (z : C) : dft2 s [[z]] = [[z]].
Proof.
  unfold dft2, tabulate, angle. simpl.
  replace (s * (2 * PI * (0 * 0 / 1 + 0 * 0 / 1))) with 0 by field.
  unfold cis. rewrite cos_0, sin_0.
  destruct z as [a b]. unfold Cadd, Cmul, C0. simpl.
  do 2 f_equal. f_equal; ring.
Qed.

Lemma Cabs_real (r : R) : 0 <= r -> Cabs (RtoC r) = r.
Proof.
  intros Hr. unfold Cabs, RtoC. simpl.
  replace (r * r + 0 * 0) with (r * r) by ring. now apply sqrt_square.
Qed.

(** The run of [ft_extract_anomalies] on a single non-zero pixel. *)
Lemma ft_one_pixel (c : Z) (t : R) :
  (0 < c < 256)%Z ->
  ft_thresh_val [[c]] t = ret (Fin (ln (IZR c / 255))) /\
  ft_magnitude_mask [[c]] t = ret [[false]] /\
  ft_extract_anomalies [[c]] t = ret [[c]].
Proof.
  intros Hc.
  assert (Hpos : 0 < IZR c / 255).
  { apply Rdiv_lt_0_compat; [apply IZR_lt; lia | lra]. }
  assert (Hs : spectrum [[c]] = ret [[RtoC (IZR c / 255)]]).
  { unfold spectrum, fft2, prepare. simpl. now rewrite dft2_one_pixel. }
  assert (Hm : log_magnitude [[RtoC (IZR c / 255)]]
               = [[Fin (ln (IZR c / 255))]]).
  { unfold log_magnitude. simpl. rewrite Cabs_real by lra.
    unfold np_log. destruct (Rlt_dec 0 (IZR c / 255)); [reflexivity | lra]. }
  unfold ft_thresh_val, ft_magnitude_mask, ft_extract_anomalies,
    ft_reconstruction.
  rewrite Hs. rewrite !bind_ret. rewrite Hm.
  assert (Ht : thresh_val [[Fin (ln (IZR c / 255))]] t
               = ret (Fin (ln (IZR c / 255)))).
  { unfold thresh_val. simpl. do 2 f_equal. ring. }
  rewrite Ht, !bind_ret.
  assert (Hmask : magnitude_mask [[Fin (ln (IZR c / 255))]]
                    (Fin (ln (IZR c / 255))) = [[false]]).
  { rewrite magnitude_mask_eq. simpl. unfold Rltb.
    destruct (Rlt_dec _ _); [lra | reflexivity]. }
  rewrite Hmask. repeat split.
  assert (Hr : reconstruct [[RtoC (IZR c / 255)]]
               = ret [[Cabs (Cscale (/ (1 * 1)) (RtoC (IZR c / 255)))]]).
  { unfold reconstruct, ifft2.
    change (ifftshift C0 [[RtoC (IZR c / 255)]]) with [[RtoC (IZR c / 255)]].
    rewrite dft2_one_pixel. reflexivity. }
  change (apply_mask [[RtoC (IZR c / 255)]] (invert [[false]]))
    with [[RtoC (IZR c / 255)]].
  rewrite Hr, bind_ret. unfold to_image, mmap, map, ret. do 3 f_equal.
  replace (Cscale (/ (1 * 1)) (RtoC (IZR c / 255))) with (RtoC (IZR c / 255)).
  - rewrite Cabs_real by lra.
    replace (IZR c / 255 * 255) with (IZR c) by field.
    apply astype_uint8_IZR. lia.
  - unfold Cscale, RtoC. simpl. f_equal; field.
Qed.

(** ** The degenerate case *)

(** C2, as stated, fails: on the all-zero image of one pixel every
    log-magnitude is [-inf] and the threshold value [min + t * (max - min)]
    evaluates to [NaN]; there is no guard, the [NaN] goes through the
    threshold computation. *)
Lemma ft_extract_anomalies_no_guard :
  ~ (forall (h w : nat) (c : Z) (t : R),
        h <> 0%nat -> w <> 0%nat -> (0 <= c < 256)%Z -> 0 <= t <= 1 ->
        guarded (constant_image h w c) t).
Proof.
  intros H.
  destruct (H 1%nat 1%nat 0%Z (1 / 2)) as [_ [r Hr]]; try lia; try lra.
  destruct (ft_all_zero 1 1 (1 / 2)) as [Ht _]; try lia.
  rewrite Ht in Hr. discriminate.
Qed.

(** C2, amended: an all-zero image of any shape, and any image of a single
    pixel, is returned unchanged without raising, with an empty magnitude
    mask -- but not by a guard.  For the all-zero image the threshold value
    is [NaN], and the mask is empty because no comparison with [NaN] is
    true; for a single non-zero pixel maximum and minimum coincide, the
    threshold value is that very log-magnitude, and nothing exceeds it. *)
Theorem ft_extract_anomalies_degenerate (h w : nat) (c : Z) (t : R) :
  h <> 0%nat -> w <> 0%nat ->
  (c = 0 \/ (h = 1%nat /\ w = 1%nat /\ 0 < c < 256))%Z ->
  ft_extract_anomalies (constant_image h w c) t = ret (constant_image h w c) /\
  ft_magnitude_mask (constant_image h w c) t
    = ret (tabulate h w (fun _ _ => false)) /\
  ft_thresh_val (constant_image h w c) t
    = ret (if (c =? 0)%Z then NaN else Fin (ln (IZR c / 255))).
Proof.
  intros Hh Hw [-> | (-> & -> & Hc)].
  - destruct (ft_all_zero h w t Hh Hw) as (Ht & Hm & He). auto.
  - destruct (ft_one_pixel c t Hc) as (Ht & Hm & He).
    change (constant_image 1 1 c) with [[c]].
    destruct (c =? 0)%Z eqn:E; [apply Z.eqb_eq in E; lia|]. auto.
Qed.

(** The all-zero image of 2 x 3 pixels. *)
Lemma ft_extract_anomalies_degenerate_witness :
  ft_extract_anomalies (constant_image 2 3 0) (1 / 2)
    = ret (constant_image 2 3 0) /\
  ft_magnitude_mask (constant_image 2 3 0) (1 / 2)
    = ret (tabulate 2 3 (fun _ _ => false)) /\
  ft_thresh_val (constant_image 2 3 0) (1 / 2)
    = ret (if (0 =? 0)%Z then NaN else Fin (ln (IZR 0 / 255))).
Proof.
  apply (ft_extract_anomalies_degenerate 2 3 0 (1 / 2)).
  - discriminate.
  - discriminate.
  - left. reflexivity.
Defined.

(** ** Which frequencies are retained *)

(** C5, as stated, fails: on the all-zero image of one pixel the threshold
    value is [NaN]; the inverted mask retains the one frequency, although
    its log-magnitude [-inf] is not at or below [NaN]. *)
Lemma retained_not_at_or_below :
  ~ (forall (img : Image) (t : R), ft_retained img t = spec_retained img t).
Proof.
  intros H. specialize (H (constant_image 1 1 0) (1 / 2)).
  unfold ft_retained in H.
  destruct (ft_all_zero 1 1 (1 / 2)) as (_ & Hm & _); try lia.
  rewrite Hm, bind_ret in H.
  unfold spec_retained in H.
  rewrite spectrum_nonempty, bind_ret in H by discriminate.
  rewrite shifted_zero_image, log_magnitude_zeros in H by lia.
  rewrite thresh_val_all_ninf, bind_ret in H by lia.
  discriminate H.
Qed.

Lemma ft_thresh_val_cases (img : Image) (t : R) :
  (shape0 img <> 0%nat /\ shape1 img <> 0%nat /\
   spectrum img = ret (shifted img) /\
   exists thresh,
     thresh_val (log_magnitude (shifted img)) t = ret thresh /\
     ft_thresh_val img t = ret thresh) \/
  (spectrum img = raise ValueError /\ ft_thresh_val img t = raise ValueError).
Proof.
  unfold ft_thresh_val.
  destruct (Nat.eq_dec (shape0 img) 0) as [E0|E0];
    [right; rewrite spectrum_empty by auto; auto|].
  destruct (Nat.eq_dec (shape1 img) 0) as [E1|E1];
    [right; rewrite spectrum_empty by auto; auto|].
  left. rewrite spectrum_nonempty, bind_ret by assumption.
  destruct (thresh_val_between _ (log_magnitude_nonempty img E0 E1)
              (log_magnitude_values (shifted img))) as (mn & mx & Hthr & _).
  repeat split; auto. exists (between mn mx t). now rewrite Hthr.
Qed.

Lemma invert_mask_nan (mag_img : matrix float64) :
  invert (magnitude_mask mag_img NaN) = mmap (fun _ => true) mag_img.
Proof.
  unfold invert. rewrite magnitude_mask_eq, mmap_mmap.
  apply mmap_ext_in. intros v _. now rewrite nothing_above_nan.
Qed.

Lemma invert_mask_number (mag_img : matrix float64) (thresh : float64) :
  Forall log_value (concat mag_img) -> thresh <> NaN ->
  invert (magnitude_mask mag_img thresh) = at_or_below mag_img thresh.
Proof.
  intros Hv Hn. unfold invert, at_or_below.
  rewrite magnitude_mask_eq, mmap_mmap.
  apply mmap_ext_in. intros v Hin. apply not_above_at_or_below; [|exact Hn].
  rewrite Forall_forall in Hv. specialize (Hv v Hin).
  intros ->. exact Hv.
Qed.

Lemma apply_mask_all_true (img : Image) :
  shape0 img <> 0%nat ->
  apply_mask (shifted img) (mmap (fun _ => true) (log_magnitude (shifted img)))
  = shifted img.
Proof.
  intros H0. unfold apply_mask.
  rewrite shape0_shifted, shape1_shifted by assumption.
  etransitivity;
    [|symmetry; apply (rect_eta C0 (shape0 img) (shape1 img));
      rewrite shifted_table; apply rect_tabulate].
  apply tabulate_ext. intros i j Hi Hj.
  replace (get false (mmap (fun _ => true) (log_magnitude (shifted img))) i j)
    with true; [reflexivity|].
  unfold log_magnitude. rewrite mmap_mmap, shifted_table, mmap_tabulate.
  now rewrite get_tabulate.
Qed.

(** C5, amended: whenever the threshold value [min + t * (max - min)] is a
    number, [ft_extract_anomalies] retains and reconstructs exactly as the
    specification describes ([spec_retained], [spec_reconstruction]): the
    centre-shifted spectrum, with the frequencies whose log-magnitude is at
    or below the threshold value retained and the others zeroed, is
    inverse-shifted, inverse-transformed and taken in magnitude.  When the
    threshold value is [NaN] (some coefficient of the spectrum is zero) no
    log-magnitude exceeds it: every frequency is retained and the
    reconstruction is that of the unmasked spectrum.  An image without
    pixels raises. *)
Theorem ft_reconstruction_retains (img : Image) (t : R) :
  match ft_thresh_val img t with
  | inl e => ft_retained img t = raise e /\ ft_reconstruction img t = raise e
  | inr NaN =>
      ft_retained img t
        = ret (tabulate (shape0 img) (shape1 img) (fun _ _ => true)) /\
      ft_reconstruction img t = reconstruct (shifted img)
  | inr _ =>
      ft_retained img t = spec_retained img t /\
      ft_reconstruction img t = spec_reconstruction img t
  end.
Proof.
  unfold ft_retained, ft_magnitude_mask, ft_reconstruction, spec_retained,
    spec_reconstruction.
  destruct (ft_thresh_val_cases img t)
    as [(E0 & E1 & Hs & thresh & Ht & ->) | [Hs ->]].
  - rewrite Hs, !bind_ret, Ht, !bind_ret.
    pose proof (log_magnitude_values (shifted img)) as Hv.
    destruct thresh;
      try (rewrite invert_mask_number by (auto; discriminate); now split).
    rewrite invert_mask_nan. split.
    + unfold log_magnitude. rewrite mmap_mmap, shifted_table, mmap_tabulate.
      reflexivity.
    + now rewrite apply_mask_all_true.
  - rewrite Hs. now split.
Qed.

End FourierFacts.

(** * Properties of the bounding boxes *)

Section BoxesFacts.

Import Array2 Boxes.

Lemma pixel_eqb_eq (p q : pixel) : pixel_eqb p q = true <-> p = q.
Proof.
  destruct p as [a b], q as [c d]. unfold pixel_eqb. simpl.
  rewrite andb_true_iff, !Nat.eqb_eq. split.
  - intros [-> ->]. reflexivity.
  - intros [= -> ->]. auto.
Qed.

Lemma mem_In (p : pixel) (l : list pixel) : mem p l = true <-> In p l.
Proof.
  unfold mem. rewrite existsb_exists. split.
  - intros [q [Hq E]]. apply pixel_eqb_eq in E. now subst.
  - intros H. exists p. split; [exact H | now apply pixel_eqb_eq].
Qed.

Lemma in_regions_false (p : pixel) (regions : list (list pixel)) :
  in_regions p regions = false -> forall r, In r regions -> ~ In p r.
Proof.
  intros H r Hr Hp. unfold in_regions in H.
  assert (E : existsb (mem p) regions = true).
  { apply existsb_exists. exists r. split; [exact Hr | now apply mem_In]. }
  congruence.
Qed.

(** *** Flood fill *)

Lemma flood_accepts (ok : pixel -> bool) (fuel : nat) :
  forall frontier acc,
    Forall (fun q => ok q = true) acc ->
    Forall (fun q => ok q = true) (flood fuel ok frontier acc).
Proof.
  induction fuel as [|fuel IH]; intros frontier acc Hacc; simpl; [exact Hacc|].
  destruct frontier as [|p rest]; [exact Hacc|].
  destruct (ok p) eqn:Eok; simpl.
  - destruct (mem p acc); simpl; apply IH; auto.
  - apply IH; auto.
Qed.

Lemma flood_keeps (ok : pixel -> bool) (fuel : nat) :
  forall frontier acc, incl acc (flood fuel ok frontier acc).
Proof.
  induction fuel as [|fuel IH]; intros frontier acc; simpl;
    [apply incl_refl|].
  destruct frontier as [|p rest]; [apply incl_refl|].
  destruct (ok p && negb (mem p acc)).
  - intros q Hq. apply IH. now right.
  - apply IH.
Qed.

Lemma flood_seed (ok : pixel -> bool) (fuel : nat) (p : pixel) :
  ok p = true -> In p (flood (S fuel) ok [p] []).
Proof.
  intros Hp. simpl. rewrite Hp. simpl. apply flood_keeps. now left.
Qed.

Lemma flood_NoDup (ok : pixel -> bool) (fuel : nat) :
  forall frontier acc, NoDup acc -> NoDup (flood fuel ok frontier acc).
Proof.
  induction fuel as [|fuel IH]; intros frontier acc Hacc; simpl; [exact Hacc|].
  destruct frontier as [|p rest]; [exact Hacc|].
  destruct (ok p); simpl; [|now apply IH].
  destruct (mem p acc) eqn:Em; simpl; [now apply IH|].
  apply IH. constructor; [|exact Hacc].
  intros Hin. apply mem_In in Hin. congruence.
Qed.

(** *** Labelling *)

Lemma FOP_snoc {A : Type} (R : A -> A -> Prop) (l : list A) (x : A) :
  ForallOrdPairs R l -> Forall (fun y => R y x) l ->
  ForallOrdPairs R (l ++ [x]).
Proof.
  induction 1 as [|a l Ha Hl IH]; intros Hx; simpl.
  - constructor; [constructor | constructor].
  - inversion Hx as [|? ? Hax Hlx]; subst. constructor.
    + apply Forall_app. split; [exact Ha | now constructor].
    + now apply IH.
Qed.

Lemma FOP_filter {A : Type} (R : A -> A -> Prop) (f : A -> bool) (l : list A) :
  ForallOrdPairs R l -> ForallOrdPairs R (filter f l).
Proof.
  induction 1 as [|a l Ha Hl IH]; simpl; [constructor|].
  destruct (f a); [|exact IH]. constructor; [|exact IH].
  rewrite Forall_forall in *. intros y Hy. apply filter_In in Hy.
  apply Ha. tauto.
Qed.

Lemma label_scan_ok (fuel : nat) (img : matrix bool) (todo : list pixel) :
  forall regions,
    regions_ok regions ->
    regions_ok (label_scan (S fuel) img todo regions).
Proof.
  induction todo as [|p rest IH]; intros regions Hok; [exact Hok|].
  cbn [label_scan].
  destruct (fresh img regions p) eqn:Ep; [|now apply IH].
  apply IH. destruct Hok as [Hdis Hne]. split.
  - apply FOP_snoc; [exact Hdis|].
    apply Forall_forall. intros r Hr q Hq Hq'.
    pose proof (flood_accepts (fresh img regions) (S fuel) [p] []
                  (Forall_nil _)) as Hacc.
    rewrite Forall_forall in Hacc. specialize (Hacc q Hq').
    unfold fresh in Hacc. apply andb_true_iff in Hacc.
    destruct Hacc as [_ Hacc]. apply negb_true_iff in Hacc.
    exact (in_regions_false q regions Hacc r Hr Hq).
  - apply Forall_app. split; [exact Hne|]. constructor; [|constructor].
    split.
    + intros E. pose proof (flood_seed (fresh img regions) fuel p Ep) as Hin.
      rewrite E in Hin. exact Hin.
    + apply flood_NoDup. constructor.
Qed.

Lemma label_ok (img : matrix bool) : regions_ok (label img).
Proof.
  unfold label, flood_fuel. apply label_scan_ok.
  split; constructor.
Qed.

(** *** Bounding boxes *)

Lemma fold_min_le (l : list nat) : forall a x,
  x = a \/ In x l -> (fold_left Nat.min l a <= x)%nat.
Proof.
  induction l as [|b l IH]; intros a x H; simpl.
  - destruct H as [-> | []]. lia.
  - destruct H as [-> | [<- | H]].
    + transitivity (Nat.min a b); [apply IH; now left | lia].
    + transitivity (Nat.min a b); [apply IH; now left | lia].
    + apply IH. now right.
Qed.

Lemma fold_max_ge (l : list nat) : forall a x,
  x = a \/ In x l -> (x <= fold_left Nat.max l a)%nat.
Proof.
  induction l as [|b l IH]; intros a x H; simpl.
  - destruct H as [-> | []]. lia.
  - destruct H as [-> | [<- | H]].
    + transitivity (Nat.max a b); [lia | apply IH; now left].
    + transitivity (Nat.max a b); [lia | apply IH; now left].
    + apply IH. now right.
Qed.

Lemma minimum_le (l : list nat) (x : nat) : In x l -> (minimum l <= x)%nat.
Proof.
  destruct l as [|a l]; [intros []|]. intros [<- | H]; simpl;
    apply fold_min_le; auto.
Qed.

Lemma maximum_ge (l : list nat) (x : nat) : In x l -> (x <= maximum l)%nat.
Proof. intros H. unfold maximum. apply fold_max_ge. now right. Qed.

(** The bounding box encloses its region. *)
Lemma bbox_of_encloses (region : list pixel) (p : pixel) :
  In p region -> inside p (bbox_of region).
Proof.
  intros Hp. unfold inside, bbox_of. simpl.
  pose proof (in_map fst _ _ Hp) as Hr. pose proof (in_map snd _ _ Hp) as Hc.
  pose proof (minimum_le _ _ Hr). pose proof (maximum_ge _ _ Hr).
  pose proof (minimum_le _ _ Hc). pose proof (maximum_ge _ _ Hc). lia.
Qed.

Lemma bbox_of_proper (region : list pixel) : proper (bbox_of region).
Proof.
  unfold proper, bbox_of. simpl.
  destruct region as [|p r]; simpl; [lia|].
  pose proof (bbox_of_encloses (p :: r) p (or_introl eq_refl)) as H.
  unfold inside, bbox_of in H. simpl in H. lia.
Qed.

(** Two boxes overlap exactly when some pixel lies inside both. *)
Lemma overlap_shared_pixel (a b : BBox) :
  proper a -> proper b ->
  overlap a b = true <-> exists p, inside p a /\ inside p b.
Proof.
  unfold proper, overlap, inside. intros Ha Hb.
  rewrite !andb_true_iff, !Nat.ltb_lt. split.
  - intros [[[H1 H2] H3] H4].
    exists (Nat.max (min_row a) (min_row b), Nat.max (min_col a) (min_col b)).
    simpl. lia.
  - intros [[i j] H]. simpl in H. lia.
Qed.

(** *** find_bounding_boxes *)

Lemma filter_map_comm {A B : Type} (f : A -> B) (P : B -> bool) (l : list A) :
  filter P (map f l) = map f (filter (fun a => P (f a)) l).
Proof.
  induction l as [|a l IH]; simpl; [reflexivity|].
  destruct (P (f a)); simpl; now rewrite IH.
Qed.

(** The boxes returned are those of the regions kept against the pixel
    count of the module-level [img_proc_np]. *)
Lemma find_bounding_boxes_kept (g : Globals) (img : Image) (p a : Q)
    (d : nat) (boxes : list BBox) :
  find_bounding_boxes g img p a d = ret boxes ->
  exists glob regs,
    img_proc_np g = Some glob /\
    kept_regions img p d
      (inject_Z (Z.of_nat (shape0 glob)) * inject_Z (Z.of_nat (shape1 glob)) * a)
      = ret regs /\
    boxes = map bbox regs.
Proof.
  unfold find_bounding_boxes, lookup_img_proc_np. cbv zeta.
  destruct (array_max (concat img)) as [e|mx] eqn:Emax; [discriminate|].
  rewrite !bind_ret.
  destruct (percentile (concat img) p) as [e|t] eqn:Eperc; [discriminate|].
  rewrite !bind_ret.
  destruct (binary_dilation _ d) as [e|m] eqn:Edil; [discriminate|].
  rewrite !bind_ret.
  destruct (img_proc_np g) as [glob|]; [|discriminate].
  rewrite !bind_ret. intros [= <-].
  exists glob. eexists. split; [reflexivity|]. split; [|reflexivity].
  unfold kept_regions. rewrite Emax, bind_ret, Eperc, bind_ret, Edil, bind_ret.
  reflexivity.
Qed.

Lemma kept_regions_labelled (img : Image) (p thr : Q) (d : nat)
    (regs : list RegionProperties) :
  kept_regions img p d thr = ret regs ->
  exists regions,
    regs = regionprops regions /\
    regions_ok regions /\
    Forall (fun r => (thr <= inject_Z (Z.of_nat (length r)))%Q) regions.
Proof.
  unfold kept_regions.
  destruct (array_max (concat img)) as [e|mx]; [discriminate|].
  rewrite !bind_ret.
  destruct (percentile (concat img) p) as [e|t]; [discriminate|].
  rewrite !bind_ret.
  destruct (binary_dilation _ d) as [e|m]; [discriminate|].
  rewrite !bind_ret. intros [= <-].
  unfold regionprops at 1. rewrite filter_map_comm. cbn [area].
  eexists. split; [reflexivity|]. split.
  - destruct (label_ok (clear_border m)) as [Hd Hn]. split.
    + now apply FOP_filter.
    + rewrite Forall_forall in *. intros r Hr. apply filter_In in Hr.
      apply Hn. tauto.
  - apply Forall_forall. intros r Hr. apply filter_In in Hr.
    destruct Hr as [_ Hr]. now apply Qle_bool_iff.
Qed.

(** C9, as stated, fails: on [l_and_dot] the L-shaped region and the single
    pixel in its open corner are separate regions, and the box of the pixel
    lies inside the box of the L. *)
Lemma find_bounding_boxes_overlap :
  ~ (forall (g : Globals) (img : Image) (p a : Q) (d : nat)
            (boxes : list BBox),
        find_bounding_boxes g img p a d = ret boxes ->
        ForallOrdPairs (fun b1 b2 => overlap b1 b2 = false) boxes).
Proof.
  intros H.
  specialize (H (mk_Globals (Some l_and_dot)) l_and_dot 50%Q (1 # 100)%Q 1%nat
                [mk_BBox 1 1 4 4; mk_BBox 1 3 2 4] eq_refl).
  inversion H as [|? ? Hfirst _]; subst.
  inversion Hfirst as [|? ? Hov _]; subst.
  discriminate Hov.
Qed.

(** When the module-level [img_proc_np] has the shape of the image being
    processed -- as in the notebook, where it is the array of the image
    shown last -- the floor is the one intended: every region kept has at
    least [area_thresh] times the pixel count of the input. *)
Lemma find_bounding_boxes_area_floor_same_shape (g : Globals) (img glob : Image)
    (p a : Q) (d : nat) (boxes : list BBox) :
  img_proc_np g = Some glob ->
  shape0 glob = shape0 img -> shape1 glob = shape1 img ->
  find_bounding_boxes g img p a d = ret boxes ->
  exists regions,
    boxes = map bbox_of regions /\
    Forall (fun r =>
      (inject_Z (Z.of_nat (shape0 img)) * inject_Z (Z.of_nat (shape1 img)) * a
       <= inject_Z (Z.of_nat (length r)))%Q) regions.
Proof.
  intros Hg H0 H1 H.
  destruct (find_bounding_boxes_kept _ _ _ _ _ _ H)
    as (glob' & regs & Hg' & Hk & ->).
  rewrite Hg in Hg'. injection Hg' as <-.
  destruct (kept_regions_labelled _ _ _ _ _ Hk) as (regions & -> & _ & Ha).
  exists regions. unfold regionprops. rewrite map_map. cbn [bbox].
  split; [reflexivity|]. now rewrite <- H0, <- H1.
Qed.

(** C3 (a defect of the code): with the module-level [img_proc_np] holding
    an image of one pixel, [find_bounding_boxes] run on the 25 pixels of
    [l_and_dot] with [area_thresh = 0.1] returns the box of a region of a
    single pixel, fewer than the 2.5 pixels the claim asks for; with
    [img_proc_np] holding the input itself that region is dropped. *)
Lemma find_bounding_boxes_area_floor_violated :
  find_bounding_boxes (mk_Globals (Some [[0%Z]])) l_and_dot 50 (1 # 10) 1
    = ret [mk_BBox 1 1 4 4; mk_BBox 1 3 2 4] /\
  kept_regions l_and_dot 50 1 (1 * 1 * (1 # 10))
    = ret [mk_RegionProperties
             [(3, 3); (3, 2); (3, 1); (2, 1); (1, 1)]%nat 5 (mk_BBox 1 1 4 4);
           mk_RegionProperties [(1, 3)%nat] 1 (mk_BBox 1 3 2 4)] /\
  (inject_Z 1
   < (1 # 10) * inject_Z (Z.of_nat (shape0 l_and_dot * shape1 l_and_dot)))%Q /\
  find_bounding_boxes (mk_Globals (Some l_and_dot)) l_and_dot 50 (1 # 10) 1
    = ret [mk_BBox 1 1 4 4].
Proof.
  repeat split; vm_compute; reflexivity.
Qed.

End BoxesFacts.

(** * Labelling and connected components *)

Section ComponentFacts.

Import Array2 Boxes.

(** *** Neighbours *)

Lemma in_around (a i : nat) :
  In a (around i) <-> (a <= S i /\ i <= S a)%nat.
Proof.
  unfold around. rewrite in_app_iff. destruct (i =? 0)%nat eqn:E.
  - apply Nat.eqb_eq in E. subst. simpl. lia.
  - apply Nat.eqb_neq in E. simpl. lia.
Qed.

Lemma length_around (i : nat) : (length (around i) <= 3)%nat.
Proof. unfold around. destruct (i =? 0)%nat; simpl; lia. Qed.

Lemma in_neighbours (p q : pixel) :
  In q (neighbours p) <->
  q <> p /\ (fst q <= S (fst p) /\ fst p <= S (fst q))%nat
         /\ (snd q <= S (snd p) /\ snd p <= S (snd q))%nat.
Proof.
  unfold neighbours. destruct q as [a b]. simpl. split.
  - intros H. apply filter_In in H. destruct H as [H1 H2].
    apply in_prod_iff in H1. rewrite !in_around in H1.
    apply negb_true_iff in H2. split; [|tauto].
    intros E. apply pixel_eqb_eq in E. congruence.
  - intros [Hne H]. apply filter_In. split.
    + apply in_prod_iff. rewrite !in_around. tauto.
    + apply negb_true_iff. apply not_true_iff_false.
      intros E. now apply pixel_eqb_eq in E.
Qed.

Lemma neighbours_sym (p q : pixel) :
  In q (neighbours p) -> In p (neighbours q).
Proof. rewrite !in_neighbours. intuition congruence. Qed.

Lemma filter_length_lt {A : Type} (f : A -> bool) (l : list A) (a : A) :
  In a l -> f a = false -> (length (filter f l) < length l)%nat.
Proof.
  induction l as [|x l IH]; intros Hin Hf; [destruct Hin|]. simpl.
  destruct Hin as [-> | Hin].
  - rewrite Hf. pose proof (filter_length_le f l). lia.
  - specialize (IH Hin Hf). destruct (f x); simpl; lia.
Qed.

Lemma length_neighbours (p : pixel) : (length (neighbours p) <= 8)%nat.
Proof.
  unfold neighbours.
  assert (Hp : In p (list_prod (around (fst p)) (around (snd p)))).
  { destruct p as [i j]. apply in_prod_iff. rewrite !in_around. simpl. lia. }
  pose proof (filter_length_lt (fun q => negb (pixel_eqb q p)) _ p Hp) as Hlt.
  assert (E : negb (pixel_eqb p p) = false)
    by (apply negb_false_iff; now apply pixel_eqb_eq).
  specialize (Hlt E). unfold pixel in *. rewrite length_prod in Hlt.
  pose proof (length_around (fst p)). pose proof (length_around (snd p)).
  nia.
Qed.

Lemma filter_and {A : Type} (f g : A -> bool) (l : list A) :
  filter (fun x => f x && g x) l = filter g (filter f l).
Proof.
  induction l as [|x l IH]; simpl; [reflexivity|].
  destruct (f x); simpl; [|exact IH].
  destruct (g x); now rewrite IH.
Qed.

(** *** The flood fill is complete *)

Section Flood.

Variable ok : pixel -> bool.
Variable universe : list pixel.
Hypothesis ok_in_universe : forall q, ok q = true -> In q universe.

Lemma remaining_shrinks (p : pixel) (acc : list pixel) :
  ok p = true -> mem p acc = false ->
  (S (length (remaining ok universe (p :: acc))) <= length (remaining ok universe acc))%nat.
Proof.
  intros Hok Hmem. unfold remaining.
  assert (Hp : In p (filter (fun q => ok q && negb (mem q acc)) universe)).
  { apply filter_In. split; [now apply ok_in_universe|].
    now rewrite Hok, Hmem. }
  pose proof (filter_length_lt (fun q => negb (pixel_eqb q p)) _ p Hp) as Hlt.
  assert (E : negb (pixel_eqb p p) = false)
    by (apply negb_false_iff; now apply pixel_eqb_eq).
  specialize (Hlt E).
  assert (Heq : filter (fun q => ok q && negb (mem q (p :: acc))) universe
              = filter (fun q => negb (pixel_eqb q p))
                  (filter (fun q => ok q && negb (mem q acc)) universe)).
  { rewrite <- filter_and. apply filter_ext. intros q.
    unfold mem. simpl. fold (mem q acc).
    destruct (ok q), (pixel_eqb q p), (mem q acc); reflexivity. }
  rewrite Heq. lia.
Qed.

(** With fuel above the potential the fill stops on an empty frontier, so
    what it returns is closed under accepted neighbours. *)
Lemma flood_closed (fuel : nat) : forall frontier acc,
  (potential ok universe frontier acc < fuel)%nat ->
  (forall q n, In q acc -> In n (neighbours q) -> ok n = true ->
               In n acc \/ In n frontier) ->
  forall q n, In q (flood fuel ok frontier acc) ->
              In n (neighbours q) -> ok n = true ->
              In n (flood fuel ok frontier acc).
Proof.
  induction fuel as [|fuel IH]; intros frontier acc Hpot Hinv; [lia|].
  destruct frontier as [|p rest].
  - simpl. intros q n Hq Hn Hok.
    destruct (Hinv q n Hq Hn Hok) as [H | []]. exact H.
  - cbn [flood]. unfold potential in Hpot. simpl in Hpot.
    destruct (ok p) eqn:Eok; simpl.
    + destruct (mem p acc) eqn:Em; simpl.
      * apply IH; [unfold potential; lia|].
        intros q n Hq Hn Hokn.
        destruct (Hinv q n Hq Hn Hokn) as [H | [<- | H]]; auto.
        left. now apply mem_In.
      * apply IH.
        -- unfold potential. rewrite length_app.
           pose proof (length_neighbours p).
           pose proof (remaining_shrinks p acc Eok Em). lia.
        -- intros q n [<- | Hq] Hn Hokn.
           ++ right. apply in_or_app. now left.
           ++ destruct (Hinv q n Hq Hn Hokn) as [H | [<- | H]].
              ** left. now right.
              ** left. now left.
              ** right. apply in_or_app. now right.
    + apply IH; [unfold potential; lia|].
      intros q n Hq Hn Hokn.
      destruct (Hinv q n Hq Hn Hokn) as [H | [<- | H]]; auto.
      congruence.
Qed.

(** Whatever the fuel, every pixel returned is joined to the seed. *)
Lemma flood_reach (seed : pixel) (fuel : nat) : forall frontier acc,
  Forall (reach ok seed) acc ->
  Forall (fun f => f = seed \/
                   exists a, reach ok seed a /\ In f (neighbours a)) frontier ->
  Forall (reach ok seed) (flood fuel ok frontier acc).
Proof.
  induction fuel as [|fuel IH]; intros frontier acc Hacc Hfr; [exact Hacc|].
  destruct frontier as [|p rest]; [exact Hacc|]. cbn [flood].
  inversion Hfr as [|? ? Hp Hrest]; subst.
  destruct (ok p) eqn:Eok; simpl; [|now apply IH].
  destruct (mem p acc); simpl; [now apply IH|].
  assert (Hreach : reach ok seed p).
  { destruct Hp as [-> | [a [Ha Hn]]].
    - now constructor.
    - now apply (reach_step ok seed a p). }
  apply IH.
  - now constructor.
  - apply Forall_app. split; [|exact Hrest].
    apply Forall_forall. intros n Hn. right. now exists p.
Qed.

End Flood.

(** *** Labelling yields the connected components *)

Lemma reach_ok (ok : pixel -> bool) (seed q : pixel) :
  reach ok seed q -> ok q = true.
Proof. now destruct 1. Qed.

Lemma reach_mono (ok ok' : pixel -> bool) (seed q : pixel) :
  (forall x, ok x = true -> ok' x = true) ->
  reach ok seed q -> reach ok' seed q.
Proof.
  intros Himp. induction 1 as [Hs | q n _ IH Hn Hok].
  - constructor. now apply Himp.
  - eapply reach_step; eauto.
Qed.

Lemma length_raster (h w : nat) : length (raster h w) = (h * w)%nat.
Proof. unfold raster. now rewrite length_prod, !length_seq. Qed.

Lemma set_at_in_raster (h w : nat) (img : matrix bool) (p : pixel) :
  rect h w img -> set_at img p = true -> In p (raster h w).
Proof.
  intros [Hh Hw] Hset. destruct p as [i j]. unfold set_at, get in Hset.
  simpl in Hset. unfold raster. apply in_prod_iff. rewrite !in_seq.
  destruct (lt_dec i h) as [Hi|Hi].
  - assert (Hrow : length (nth i img []) = w).
    { rewrite Forall_forall in Hw. apply Hw, nth_In. lia. }
    destruct (lt_dec j w) as [Hj|Hj]; [lia|].
    rewrite (nth_overflow (nth i img [])) in Hset by lia. discriminate.
  - rewrite (nth_overflow img) in Hset by lia.
    destruct j; discriminate.
Qed.

Lemma in_regions_true (p : pixel) (regions : list (list pixel)) :
  in_regions p regions = true -> exists r, In r regions /\ In p r.
Proof.
  unfold in_regions. rewrite existsb_exists.
  intros [r [Hr Hp]]. exists r. split; [exact Hr | now apply mem_In].
Qed.

Lemma fresh_set (img : matrix bool) (regions : list (list pixel)) (q : pixel) :
  fresh img regions q = true -> set_at img q = true.
Proof. unfold fresh. now intros H%andb_true_iff. Qed.

Lemma fresh_outside (img : matrix bool) (regions : list (list pixel))
    (q : pixel) (r : list pixel) :
  fresh img regions q = true -> In r regions -> ~ In q r.
Proof.
  unfold fresh. intros H%andb_true_iff Hr. destruct H as [_ H].
  apply negb_true_iff in H. now apply (in_regions_false q regions).
Qed.

(** The region grown from a fresh pixel is its connected component,
    provided the regions found before are components. *)
Lemma flood_component (h w : nat) (img : matrix bool)
    (regions : list (list pixel)) (p : pixel) :
  rect h w img ->
  Forall (component img) regions ->
  fresh img regions p = true ->
  component img (flood (flood_fuel h w) (fresh img regions) [p] []).
Proof.
  intros Hrect Hcomp Hp. exists p. split; [now apply flood_seed|].
  set (r := flood (flood_fuel h w) (fresh img regions) [p] []).
  assert (Hfresh : forall q, In q r -> fresh img regions q = true).
  { apply Forall_forall. apply flood_accepts. constructor. }
  intros q. split.
  - intros Hq. apply (reach_mono (fresh img regions)); [apply fresh_set|].
    revert q Hq. apply Forall_forall. apply flood_reach; [constructor|].
    constructor; [now left | constructor].
  - induction 1 as [Hs | q n _ IH Hn Hok]; [now apply flood_seed|].
    destruct (fresh img regions n) eqn:En.
    + assert (Hcover : forall x, fresh img regions x = true ->
                                 In x (raster h w)).
      { intros x Hx. apply (set_at_in_raster h w img); [exact Hrect|].
        now apply (fresh_set img regions). }
      assert (Hpot : (potential (fresh img regions) (raster h w) [p] []
                      < flood_fuel h w)%nat).
      { unfold potential, remaining, flood_fuel.
        change (length [p]) with 1%nat.
        pose proof (filter_length_le
                      (fun q => fresh img regions q && negb (mem q []))
                      (raster h w)) as Hle.
        rewrite length_raster in Hle. lia. }
      apply (flood_closed (fresh img regions) (raster h w) Hcover
               (flood_fuel h w) [p] [] Hpot) with (q := q); auto.
    + exfalso. unfold fresh in En. rewrite Hok in En. simpl in En.
      apply negb_false_iff in En.
      destruct (in_regions_true n regions En) as [r' [Hr' Hn']].
      rewrite Forall_forall in Hcomp.
      destruct (Hcomp r' Hr') as [s [_ Hs]].
      apply (fresh_outside img regions q r' (Hfresh q IH) Hr').
      apply Hs. apply (reach_step _ _ n q).
      * now apply Hs.
      * now apply neighbours_sym.
      * apply (fresh_set img regions). now apply Hfresh.
Qed.

Lemma label_scan_components (h w : nat) (img : matrix bool)
    (todo : list pixel) : forall regions,
  rect h w img ->
  Forall (component img) regions ->
  Forall (component img) (label_scan (flood_fuel h w) img todo regions).
Proof.
  induction todo as [|p rest IH]; intros regions Hrect Hcomp; [exact Hcomp|].
  cbn [label_scan]. destruct (fresh img regions p) eqn:Ep; [|now apply IH].
  apply IH; [exact Hrect|]. apply Forall_app. split; [exact Hcomp|].
  constructor; [|constructor]. now apply flood_component.
Qed.

Lemma label_scan_extends (fuel : nat) (img : matrix bool) (todo : list pixel) :
  forall regions r,
    In r regions -> In r (label_scan fuel img todo regions).
Proof.
  induction todo as [|p rest IH]; intros regions r Hr; [exact Hr|].
  cbn [label_scan]. destruct (fresh img regions p); apply IH; auto.
  apply in_or_app. now left.
Qed.

Lemma label_scan_covers (fuel : nat) (img : matrix bool) (todo : list pixel) :
  forall regions p,
    In p todo -> set_at img p = true ->
    exists r, In r (label_scan (S fuel) img todo regions) /\ In p r.
Proof.
  induction todo as [|x rest IH]; intros regions p Hin Hset; [destruct Hin|].
  cbn [label_scan]. destruct Hin as [-> | Hin].
  - destruct (fresh img regions p) eqn:Ep.
    + exists (flood (S fuel) (fresh img regions) [p] []). split.
      * apply label_scan_extends. apply in_or_app. right. now left.
      * now apply flood_seed.
    + unfold fresh in Ep. rewrite Hset in Ep. simpl in Ep.
      apply negb_false_iff in Ep.
      destruct (in_regions_true p regions Ep) as [r [Hr Hp]].
      exists r. split; [now apply label_scan_extends | exact Hp].
  - destruct (fresh img regions x); now apply IH.
Qed.

(** [label] partitions the set pixels of a rectangular binary image into
    its connected components: the regions are pairwise disjoint, every set
    pixel lies in one, and each region consists of exactly the pixels
    joined to one of its pixels by a chain of neighbouring set pixels. *)
Theorem label_connected_components (img : matrix bool) :
  rect (shape0 img) (shape1 img) img ->
  regions_ok (label img) /\
  Forall (component img) (label img) /\
  forall p, set_at img p = true -> exists r, In r (label img) /\ In p r.
Proof.
  intros Hrect. split; [apply label_ok|]. split.
  - unfold label. apply label_scan_components; [exact Hrect | constructor].
  - intros p Hp. unfold label, flood_fuel. apply label_scan_covers; [|exact Hp].
    now apply (set_at_in_raster _ _ img).
Qed.

End ComponentFacts.

(** * Boxes keep off the border *)

Section BorderFacts.

Import Array2 Boxes.

Lemma component_set (img : matrix bool) (r : list pixel) (q : pixel) :
  component img r -> In q r -> set_at img q = true.
Proof.
  intros [seed [_ H]] Hq. apply H in Hq. now apply (reach_ok _ seed).
Qed.

Lemma set_at_tabulate (h w : nat) (f : nat -> nat -> bool) (p : pixel) :
  set_at (tabulate h w f) p = true ->
  (fst p < h)%nat /\ (snd p < w)%nat /\ f (fst p) (snd p) = true.
Proof.
  intros H.
  pose proof (set_at_in_raster h w _ p (rect_tabulate h w f) H) as Hin.
  destruct p as [i j]. unfold raster in Hin. apply in_prod_iff in Hin.
  rewrite !in_seq in Hin. simpl in *.
  unfold set_at in H. simpl in H. rewrite get_tabulate in H by lia.
  repeat split; auto; lia.
Qed.

Lemma rect_shapes_tabulate {A : Type} (h w : nat) (f : nat -> nat -> A) :
  rect (shape0 (tabulate h w f)) (shape1 (tabulate h w f)) (tabulate h w f).
Proof.
  rewrite shape0_tabulate. destruct h as [|h].
  - split; [reflexivity | constructor].
  - rewrite shape1_tabulate by discriminate. apply rect_tabulate.
Qed.

(** After [clear_border] no set pixel lies on the border of the image. *)
Lemma clear_border_inner (h w : nat) (f : nat -> nat -> bool) (p : pixel) :
  h <> 0%nat ->
  set_at (clear_border (tabulate h w f)) p = true ->
  on_border h w p = false.
Proof.
  intros Hh Hset. unfold clear_border in Hset.
  rewrite shape0_tabulate, shape1_tabulate in Hset by assumption.
  apply set_at_tabulate in Hset. destruct Hset as (Hi & Hj & Hset).
  apply andb_true_iff in Hset. destruct Hset as [Hs Hout].
  replace (fst p, snd p) with p in * by now destruct p.
  apply negb_true_iff in Hout.
  destruct (on_border h w p) eqn:Eb; [|reflexivity]. exfalso.
  destruct (label_connected_components (tabulate h w f)
              (rect_shapes_tabulate h w f)) as (_ & _ & Hcover).
  destruct (Hcover p Hs) as [r [Hr Hp]].
  assert (Hin : in_regions p
            (filter (existsb (on_border h w)) (label (tabulate h w f)))
          = true).
  { unfold in_regions. apply existsb_exists. exists r. split.
    - apply filter_In. split; [exact Hr|]. apply existsb_exists. eauto.
    - now apply mem_In. }
  congruence.
Qed.

Lemma fold_min_ge (l : list nat) : forall a lo,
  (lo <= a)%nat -> (forall x, In x l -> lo <= x)%nat ->
  (lo <= fold_left Nat.min l a)%nat.
Proof.
  induction l as [|b l IH]; intros a lo Ha Hl; simpl; [exact Ha|].
  apply IH.
  - pose proof (Hl b (or_introl eq_refl)). lia.
  - intros x Hx. apply Hl. now right.
Qed.

Lemma fold_max_le (l : list nat) : forall a hi,
  (a <= hi)%nat -> (forall x, In x l -> x <= hi)%nat ->
  (fold_left Nat.max l a <= hi)%nat.
Proof.
  induction l as [|b l IH]; intros a hi Ha Hl; simpl; [exact Ha|].
  apply IH.
  - pose proof (Hl b (or_introl eq_refl)). lia.
  - intros x Hx. apply Hl. now right.
Qed.

Lemma minimum_ge (l : list nat) (lo : nat) :
  l <> [] -> (forall x, In x l -> lo <= x)%nat -> (lo <= minimum l)%nat.
Proof.
  destruct l as [|a l]; [congruence|]. intros _ Hl. simpl.
  apply fold_min_ge.
  - apply Hl. now left.
  - intros x Hx. apply Hl. now right.
Qed.

Lemma maximum_le (l : list nat) (hi : nat) :
  (forall x, In x l -> x <= hi)%nat -> (maximum l <= hi)%nat.
Proof. intros Hl. unfold maximum. apply fold_max_le; [lia | exact Hl]. Qed.

(** The box of a non-empty region whose pixels keep off the border keeps
    off the border. *)
Lemma bbox_of_inner (h w : nat) (r : list pixel) :
  r <> [] ->
  (forall q, In q r ->
     (fst q < h)%nat /\ (snd q < w)%nat /\ on_border h w q = false) ->
  (1 <= min_row (bbox_of r) /\ 1 <= min_col (bbox_of r) /\
   max_row (bbox_of r) < h /\ max_col (bbox_of r) < w)%nat.
Proof.
  intros Hne Hin. unfold bbox_of. simpl.
  assert (Hq : forall q, In q r ->
            (1 <= fst q /\ 1 <= snd q /\ fst q + 2 <= h /\ snd q + 2 <= w)%nat).
  { intros q Hq. destruct (Hin q Hq) as (Hi & Hj & Hb). unfold on_border in Hb.
    rewrite !orb_false_iff in Hb. destruct Hb as [[[H1 H2] H3] H4].
    apply Nat.eqb_neq in H1, H2, H3, H4. lia. }
  assert (Hrows : forall x, In x (map fst r) -> (1 <= x /\ x + 2 <= h)%nat).
  { intros x Hx. apply in_map_iff in Hx. destruct Hx as [q [<- Hq']].
    specialize (Hq q Hq'). lia. }
  assert (Hcols : forall x, In x (map snd r) -> (1 <= x /\ x + 2 <= w)%nat).
  { intros x Hx. apply in_map_iff in Hx. destruct Hx as [q [<- Hq']].
    specialize (Hq q Hq'). lia. }
  assert (Hne1 : map fst r <> []) by (destruct r; [congruence | discriminate]).
  assert (Hne2 : map snd r <> []) by (destruct r; [congruence | discriminate]).
  pose proof (minimum_ge (map fst r) 1 Hne1 (fun x Hx => proj1 (Hrows x Hx))).
  pose proof (minimum_ge (map snd r) 1 Hne2 (fun x Hx => proj1 (Hcols x Hx))).
  assert (Hh : (2 <= h)%nat).
  { destruct r as [|q r]; [congruence|].
    specialize (Hq q (or_introl eq_refl)). lia. }
  assert (Hw : (2 <= w)%nat).
  { destruct r as [|q r]; [congruence|].
    specialize (Hq q (or_introl eq_refl)). lia. }
  assert (maximum (map fst r) <= h - 2)%nat.
  { apply maximum_le. intros x Hx. specialize (Hrows x Hx). lia. }
  assert (maximum (map snd r) <= w - 2)%nat.
  { apply maximum_le. intros x Hx. specialize (Hcols x Hx). lia. }
  lia.
Qed.

Lemma array_max_nonempty (img : Image) (mx : Z) :
  array_max (concat img) = ret mx -> shape0 img <> 0%nat.
Proof.
  intros H E. unfold shape0 in E. apply length_zero_iff_nil in E. subst.
  discriminate H.
Qed.

(** X4: the boxes returned keep off the border of the image: regions that
    touch the first or last row or column have been cleared. *)
Theorem find_bounding_boxes_inner (g : Globals) (img : Image) (p a : Q)
    (d : nat) (boxes : list BBox) :
  find_bounding_boxes g img p a d = ret boxes ->
  Forall (fun b =>
    (1 <= min_row b /\ 1 <= min_col b /\
     max_row b < shape0 img /\ max_col b < shape1 img)%nat) boxes.
Proof.
  unfold find_bounding_boxes, lookup_img_proc_np, binary_dilation. cbv zeta.
  destruct (array_max (concat img)) as [e|mx] eqn:Emax; [discriminate|].
  rewrite !bind_ret.
  destruct (percentile (concat img) p) as [e|t]; [discriminate|].
  rewrite !bind_ret.
  destruct (d =? 0)%nat; [discriminate|]. rewrite !bind_ret.
  destruct (img_proc_np g) as [glob|]; [|discriminate].
  rewrite !bind_ret. intros [= <-].
  unfold cv2_threshold. rewrite shape0_mmap, shape1_mmap.
  set (h := shape0 img). set (w := shape1 img).
  set (f := window_hit (mmap (fun q => (py_int t <? q)%Z) img) d).
  assert (Hh : h <> 0%nat) by (apply (array_max_nonempty img mx Emax)).
  apply Forall_map, Forall_forall. intros reg Hreg.
  apply filter_In in Hreg. destruct Hreg as [Hreg _].
  unfold regionprops in Hreg. apply in_map_iff in Hreg.
  destruct Hreg as [r [<- Hr]]. cbn [bbox].
  assert (Hrect : rect (shape0 (clear_border (tabulate h w f)))
                       (shape1 (clear_border (tabulate h w f)))
                       (clear_border (tabulate h w f))).
  { unfold clear_border. apply rect_shapes_tabulate. }
  destruct (label_connected_components _ Hrect) as ([_ Hne] & Hcomp & _).
  rewrite Forall_forall in Hne, Hcomp.
  apply bbox_of_inner; [now apply Hne|].
  intros q Hq.
  pose proof (component_set _ r q (Hcomp r Hr) Hq) as Hset.
  pose proof (clear_border_inner h w f q Hh Hset) as Hb.
  unfold clear_border in Hset.
  rewrite shape0_tabulate, shape1_tabulate in Hset by assumption.
  apply set_at_tabulate in Hset. tauto.
Qed.

Lemma find_bounding_boxes_inner_witness :
  Forall (fun b =>
    (1 <= min_row b /\ 1 <= min_col b /\
     max_row b < shape0 l_and_dot /\ max_col b < shape1 l_and_dot)%nat)
    [mk_BBox 1 1 4 4; mk_BBox 1 3 2 4].
Proof.
  apply (find_bounding_boxes_inner
           (mk_Globals (Some l_and_dot)) l_and_dot 50%Q (1 # 100)%Q 1%nat).
  vm_compute. reflexivity.
Defined.

End BorderFacts.

(** * The regions behind the boxes *)

Section RegionFacts.

Import Array2 Boxes.

(** The boxes returned are those of the regions of the label image --
    labelled after thresholding, dilation and border clearing -- that
    reach the floor on the pixel count. *)
Lemma find_bounding_boxes_labelled (g : Globals) (img : Image) (p a : Q)
    (d : nat) (boxes : list BBox) :
  find_bounding_boxes g img p a d = ret boxes ->
  exists thresh_val img_morph glob,
    percentile (concat img) p = ret thresh_val /\
    binary_dilation (cv2_threshold img (py_int thresh_val)) d = ret img_morph /\
    img_proc_np g = Some glob /\
    boxes = map bbox_of
              (filter (fun r =>
                 Qle_bool (inject_Z (Z.of_nat (shape0 glob))
                           * inject_Z (Z.of_nat (shape1 glob)) * a)
                          (inject_Z (Z.of_nat (length r))))
                 (label (clear_border img_morph))).
Proof.
  unfold find_bounding_boxes, lookup_img_proc_np. cbv zeta.
  destruct (array_max (concat img)) as [e|mx]; [discriminate|].
  rewrite !bind_ret.
  destruct (percentile (concat img) p) as [e|t]; [discriminate|].
  rewrite !bind_ret.
  destruct (binary_dilation _ d) as [e|m] eqn:Edil; [discriminate|].
  rewrite !bind_ret.
  destruct (img_proc_np g) as [glob|]; [|discriminate].
  rewrite !bind_ret. intros [= <-].
  exists t, m, glob. repeat split; auto.
  unfold regionprops. rewrite filter_map_comm, map_map. reflexivity.
Qed.

Lemma rect_clear_border (img : matrix bool) :
  rect (shape0 (clear_border img)) (shape1 (clear_border img))
       (clear_border img).
Proof. unfold clear_border. apply rect_shapes_tabulate. Qed.

(** C9, amended: the boxes returned are, in label order, the bounding
    boxes of the regions of the label image that reach the area floor.
    These regions are connected components of the thresholded, dilated and
    border-cleared image: pairwise disjoint, non-empty, each pixel listed
    once; every box is an axis-aligned rectangle of at least one pixel that
    encloses its region.  (The boxes themselves may overlap.) *)
Theorem find_bounding_boxes_disjoint_regions (g : Globals) (img : Image)
    (p a : Q) (d : nat) (boxes : list BBox) :
  find_bounding_boxes g img p a d = ret boxes ->
  exists thresh_val img_morph glob regions,
    percentile (concat img) p = ret thresh_val /\
    binary_dilation (cv2_threshold img (py_int thresh_val)) d = ret img_morph /\
    img_proc_np g = Some glob /\
    regions = filter (fun r =>
                Qle_bool (inject_Z (Z.of_nat (shape0 glob))
                          * inject_Z (Z.of_nat (shape1 glob)) * a)
                         (inject_Z (Z.of_nat (length r))))
                (label (clear_border img_morph)) /\
    boxes = map bbox_of regions /\
    ForallOrdPairs disjoint regions /\
    Forall (fun r => r <> [] /\ NoDup r /\
                     component (clear_border img_morph) r /\
                     forall q, In q r -> inside q (bbox_of r)) regions /\
    Forall proper boxes.
Proof.
  intros H.
  destruct (find_bounding_boxes_labelled _ _ _ _ _ _ H)
    as (t & m & glob & Ht & Hm & Hg & ->).
  exists t, m, glob. eexists. split; [exact Ht|]. split; [exact Hm|].
  split; [exact Hg|]. split; [reflexivity|]. split; [reflexivity|].
  destruct (label_connected_components _ (rect_clear_border m))
    as ([Hdis Hne] & Hcomp & _).
  split; [now apply FOP_filter|]. split.
  - rewrite Forall_forall in *. intros r Hr. apply filter_In in Hr.
    destruct Hr as [Hr _]. destruct (Hne r Hr) as [Hn Hd].
    split; [exact Hn|]. split; [exact Hd|]. split; [now apply Hcomp|].
    intros q. apply bbox_of_encloses.
  - apply Forall_map, Forall_forall. intros r _. apply bbox_of_proper.
Qed.

(** The two regions of [l_and_dot] and their boxes. *)
Lemma find_bounding_boxes_disjoint_regions_witness :
  exists thresh_val img_morph glob regions,
    percentile (concat l_and_dot) 50 = ret thresh_val /\
    binary_dilation (cv2_threshold l_and_dot (py_int thresh_val)) 1
      = ret img_morph /\
    img_proc_np (mk_Globals (Some l_and_dot)) = Some glob /\
    regions = filter (fun r =>
                Qle_bool (inject_Z (Z.of_nat (shape0 glob))
                          * inject_Z (Z.of_nat (shape1 glob)) * (1 # 100))
                         (inject_Z (Z.of_nat (length r))))
                (label (clear_border img_morph)) /\
    [mk_BBox 1 1 4 4; mk_BBox 1 3 2 4] = map bbox_of regions /\
    ForallOrdPairs disjoint regions /\
    Forall (fun r => r <> [] /\ NoDup r /\
                     component (clear_border img_morph) r /\
                     forall q, In q r -> inside q (bbox_of r)) regions /\
    Forall proper [mk_BBox 1 1 4 4; mk_BBox 1 3 2 4].
Proof.
  apply (find_bounding_boxes_disjoint_regions
           (mk_Globals (Some l_and_dot)) l_and_dot 50%Q (1 # 100)%Q 1%nat).
  vm_compute. reflexivity.
Defined.

(** X1: the area floor is taken from the module-level [img_proc_np],
    whatever image is being processed: a box is returned exactly when it is
    the bounding box of a region of the label image whose number of
    pixels -- every region lists each of its pixels once -- is at least
    [area_thresh] times the pixel count of [img_proc_np]. *)
Lemma find_bounding_boxes_area_floor_global (g : Globals) (img : Image)
    (p a : Q) (d : nat) (boxes : list BBox) :
  find_bounding_boxes g img p a d = ret boxes ->
  exists thresh_val img_morph glob,
    percentile (concat img) p = ret thresh_val /\
    binary_dilation (cv2_threshold img (py_int thresh_val)) d = ret img_morph /\
    img_proc_np g = Some glob /\
    Forall (fun r => NoDup r /\
                     forall q, In q r ->
                       set_at (clear_border img_morph) q = true)
           (label (clear_border img_morph)) /\
    forall b,
      In b boxes <->
      exists r,
        In r (label (clear_border img_morph)) /\ b = bbox_of r /\
        (inject_Z (Z.of_nat (shape0 glob)) * inject_Z (Z.of_nat (shape1 glob))
         * a <= inject_Z (Z.of_nat (length r)))%Q.
Proof.
  intros H.
  destruct (find_bounding_boxes_labelled _ _ _ _ _ _ H)
    as (t & m & glob & Ht & Hm & Hg & ->).
  exists t, m, glob. split; [exact Ht|]. split; [exact Hm|].
  split; [exact Hg|].
  destruct (label_connected_components _ (rect_clear_border m))
    as ([_ Hne] & Hcomp & _).
  split.
  - rewrite Forall_forall in *. intros r Hr.
    split; [now apply Hne|]. intros q Hq.
    destruct (Hcomp r Hr) as [seed [_ Hs]].
    apply (reach_ok _ seed). now apply Hs.
  - intros b. rewrite in_map_iff. split.
    + intros (r & <- & Hr). apply filter_In in Hr. destruct Hr as [Hr Hle].
      exists r. repeat split; auto. now apply Qle_bool_iff.
    + intros (r & Hr & -> & Hle). exists r. split; [reflexivity|].
      apply filter_In. split; [exact Hr | now apply Qle_bool_iff].
Qed.

(** The floor at [l_and_dot], with [img_proc_np] that same image: of the
    two regions only the one of five pixels reaches 2.5. *)
Lemma find_bounding_boxes_area_floor_global_witness :
  exists thresh_val img_morph glob,
    percentile (concat l_and_dot) 50 = ret thresh_val /\
    binary_dilation (cv2_threshold l_and_dot (py_int thresh_val)) 1
      = ret img_morph /\
    img_proc_np (mk_Globals (Some l_and_dot)) = Some glob /\
    Forall (fun r => NoDup r /\
                     forall q, In q r ->
                       set_at (clear_border img_morph) q = true)
           (label (clear_border img_morph)) /\
    forall b,
      In b [mk_BBox 1 1 4 4] <->
      exists r,
        In r (label (clear_border img_morph)) /\ b = bbox_of r /\
        (inject_Z (Z.of_nat (shape0 glob)) * inject_Z (Z.of_nat (shape1 glob))
         * (1 # 10) <= inject_Z (Z.of_nat (length r)))%Q.
Proof.
  apply (find_bounding_boxes_area_floor_global
           (mk_Globals (Some l_and_dot)) l_and_dot 50%Q (1 # 10)%Q 1%nat).
  vm_compute. reflexivity.
Defined.

End RegionFacts.

(** * Properties of the detection pipeline *)

Section DetectionFacts.

Import Float Array2 Fourier Boxes.

(** C8 (a defect of the code): [ft_defect_detection] reads the module-level
    [img_proc_np].  Called twice with the same arguments it raises
    [NameError] while the variable is unbound and returns a box list once it
    is bound; and [find_bounding_boxes], which it calls, returns different
    box lists for the same arguments under two values of the variable. *)
Lemma ft_defect_detection_reads_global :
  ft_defect_detection (mk_Globals None) [[0%Z]] (1 / 2) 99 (1 # 1000) 7
    = raise NameError /\
  ft_defect_detection (mk_Globals (Some [[0%Z]])) [[0%Z]] (1 / 2) 99 (1 # 1000) 7
    = ret [] /\
  find_bounding_boxes (mk_Globals (Some [[0%Z]])) l_and_dot 50 (1 # 10) 1
    <> find_bounding_boxes (mk_Globals (Some l_and_dot)) l_and_dot 50 (1 # 10) 1.
Proof.
  destruct (ft_all_zero 1 1 (1 / 2)) as (_ & _ & He); try lia.
  change (constant_image 1 1 0) with [[0%Z]] in He.
  unfold ft_defect_detection. rewrite He, !bind_ret.
  repeat split; try (vm_compute; reflexivity).
  vm_compute. discriminate.
Qed.

End DetectionFacts.

(** * Properties of the component selections *)

Section SelectionFacts.
Import PCA Selection.
Local Open Scope Q_scope.

Lemma cumsum_from_nth (r : list Q) : forall (acc : Q) (k : nat) (v : Q),
  nth_error (cumsum_from acc r) k = Some v ->
  v == acc + explained (firstn (S k) r).
Proof.
  induction r as [|x r IH]; intros acc k v; simpl.
  - destruct k; discriminate.
  - destruct k as [|k]; simpl.
    + intros [= <-]. destruct r; simpl; ring.
    + intros H. apply IH in H. rewrite H. simpl. ring.
Qed.

Lemma cumsum_nth (ratios : list Q) (k : nat) (v : Q) :
  nth_error (cumsum ratios) k = Some v ->
  v == explained (firstn (S k) ratios).
Proof.
  destruct ratios as [|x r]; simpl.
  - destruct k; discriminate.
  - destruct k as [|k]; simpl.
    + intros [= <-]. destruct r; simpl; ring.
    + intros H. apply cumsum_from_nth in H. rewrite H. simpl. ring.
Qed.

Lemma nth_error_below {A : Type} (l : list A) (i j : nat) (v : A) :
  nth_error l i = Some v -> (j <= i)%nat -> exists u, nth_error l j = Some u.
Proof.
  intros Hi Hj. destruct (nth_error l j) as [u|] eqn:E; [now exists u|].
  apply nth_error_None in E.
  assert (nth_error l i <> None) by congruence.
  apply nth_error_Some in H. lia.
Qed.

Lemma cut_cases (ratios : list Q) (t : Q) (i : nat) :
  i_comp_threshold ratios t = ret i ->
  first_exceeding (cumsum ratios) t i \/
  (i = 0%nat /\ forall v, In v (cumsum ratios) -> v <= t).
Proof.
  unfold i_comp_threshold. intros H.
  pose proof (argmax_exceeds (cumsum ratios) t) as Hc.
  rewrite H in Hc. exact Hc.
Qed.


Lemma length_cumsum (ratios : list Q) : length (cumsum ratios) = length ratios.
Proof.
  destruct ratios as [|x r]; simpl; [reflexivity|]. f_equal.
  generalize x. induction r; intros; simpl; auto.
Qed.

Lemma slice_to_succ {A : Type} (l : list A) (i : nat) :
  patch_pca_comps l i = firstn (S i) l.
Proof.
  unfold patch_pca_comps, slice_to, slice_index.
  destruct (Z.of_nat i + 1 <? 0)%Z eqn:E; [apply Z.ltb_lt in E; lia|].
  destruct (le_lt_dec (S i) (length l)) as [Hl|Hl].
  - f_equal. lia.
  - replace (Z.to_nat (Z.min (Z.of_nat i + 1) (Z.of_nat (length l))))
      with (length l) by lia.
    rewrite firstn_all. symmetry. apply firstn_all2. lia.
Qed.

Lemma below_first_exceeding (ratios : list Q) (t : Q) (i j : nat) :
  first_exceeding (cumsum ratios) t i -> (1 <= j <= i)%nat ->
  explained (firstn j ratios) <= t.
Proof.
  intros [[v [Hv _]] Hmin] Hj. destruct j as [|j]; [lia|].
  destruct (nth_error_below _ _ j _ Hv) as [u Hu]; [lia|].
  rewrite <- (cumsum_nth _ _ _ Hu). apply (Hmin j u); [lia | exact Hu].
Qed.

Lemma at_first_exceeding (ratios : list Q) (t : Q) (i : nat) :
  first_exceeding (cumsum ratios) t i ->
  t < explained (firstn (S i) ratios).
Proof.
  intros [[v [Hv Hlt]] _]. now rewrite <- (cumsum_nth _ _ _ Hv).
Qed.

Lemma none_exceeds (ratios : list Q) (t : Q) (i : nat) :
  first_exceeding (cumsum ratios) t i ->
  (forall v, In v (cumsum ratios) -> v <= t) -> False.
Proof.
  intros [[v [Hv Hlt]] _] Hall. apply (Qlt_irrefl t).
  eapply Qlt_le_trans; [exact Hlt|]. apply Hall. eapply nth_error_In; eauto.
Qed.

Lemma some_exceeds (ratios : list Q) (t : Q) :
  (exists v, In v (cumsum ratios) /\ t < v) ->
  (forall v, In v (cumsum ratios) -> v <= t) -> False.
Proof.
  intros [v [Hin Hlt]] Hall. apply (Qlt_irrefl t).
  eapply Qlt_le_trans; [exact Hlt | now apply Hall].
Qed.

(** X5: the cut [i] returned for a threshold [t] bounds what the standard
    selection [pca.components_[: i]] explains: the kept components, and
    every shorter non-empty prefix of them, explain at most [t] of the
    variance, and -- when some cumulative variance exceeds [t] at all --
    one component more would explain more than [t]. *)
Theorem pca_comps_explained (ratios : list Q) (t : Q) (i : nat) :
  i_comp_threshold ratios t = ret i ->
  (forall j, (1 <= j <= i)%nat -> explained (pca_comps ratios j) <= t) /\
  ((exists v, In v (cumsum ratios) /\ t < v) ->
   t < explained (pca_comps ratios (S i))).
Proof.
  intros H. unfold pca_comps.
  destruct (cut_cases _ _ _ H) as [Hf | [-> Hall]].
  - split.
    + intros j Hj. now apply (below_first_exceeding ratios t i).
    + intros _. now apply at_first_exceeding.
  - split; [intros j Hj; lia|]. intros Hex. exfalso.
    now apply (some_exceeds ratios t).
Qed.

Lemma pca_comps_explained_witness :
  (forall j, (1 <= j <= 1)%nat ->
     explained (pca_comps [1 # 2; 1 # 3; 1 # 6] j) <= 4 # 5) /\
  ((exists v, In v (cumsum [1 # 2; 1 # 3; 1 # 6]) /\ 4 # 5 < v) ->
   4 # 5 < explained (pca_comps [1 # 2; 1 # 3; 1 # 6] 2)).
Proof.
  apply (pca_comps_explained [1 # 2; 1 # 3; 1 # 6] (4 # 5) 1).
  reflexivity.
Defined.

(** X6: the patch-wise variant keeps [pca.components_[: i + 1]], the first
    [i + 1] components.  When some cumulative variance exceeds the
    threshold this is the shortest prefix explaining more than the
    threshold; when none does, the cut is 0 and the first component alone
    is kept. *)
Theorem patch_pca_comps_explained (ratios : list Q) (t : Q) (i : nat) :
  i_comp_threshold ratios t = ret i ->
  patch_pca_comps ratios i = firstn (S i) ratios /\
  ((exists v, In v (cumsum ratios) /\ t < v) ->
   t < explained (patch_pca_comps ratios i) /\
   forall j, (1 <= j <= i)%nat -> explained (firstn j ratios) <= t) /\
  ((forall v, In v (cumsum ratios) -> v <= t) ->
   patch_pca_comps ratios i = firstn 1 ratios).
Proof.
  intros H. split; [apply slice_to_succ|]. rewrite slice_to_succ.
  destruct (cut_cases _ _ _ H) as [Hf | [-> Hall]].
  - split.
    + intros _. split; [now apply at_first_exceeding|].
      intros j Hj. now apply (below_first_exceeding ratios t i).
    + intros Hall. exfalso. now apply (none_exceeds ratios t i).
  - split; [|reflexivity]. intros Hex. exfalso.
    now apply (some_exceeds ratios t).
Qed.

Lemma patch_pca_comps_explained_witness :
  patch_pca_comps [1 # 2; 1 # 3; 1 # 6] 1 = firstn 2 [1 # 2; 1 # 3; 1 # 6] /\
  ((exists v, In v (cumsum [1 # 2; 1 # 3; 1 # 6]) /\ 4 # 5 < v) ->
   4 # 5 < explained (patch_pca_comps [1 # 2; 1 # 3; 1 # 6] 1) /\
   forall j, (1 <= j <= 1)%nat ->
     explained (firstn j [1 # 2; 1 # 3; 1 # 6]) <= 4 # 5) /\
  ((forall v, In v (cumsum [1 # 2; 1 # 3; 1 # 6]) -> v <= 4 # 5) ->
   patch_pca_comps [1 # 2; 1 # 3; 1 # 6] 1 = firstn 1 [1 # 2; 1 # 3; 1 # 6]).
Proof.
  apply (patch_pca_comps_explained [1 # 2; 1 # 3; 1 # 6] (4 # 5) 1).
  reflexivity.
Defined.

Lemma three_way_split {A : Type} (l : list A) (i0 i1 : nat) :
  (i0 <= i1)%nat ->
  pca_comps l i0 ++ firstn (i1 - i0) (npca_comps l i0) ++ npca_comps l i1 = l.
Proof.
  intros Hle. unfold pca_comps, npca_comps.
  replace (skipn i1 l) with (skipn (i1 - i0) (skipn i0 l)).
  - now rewrite !firstn_skipn.
  - rewrite skipn_skipn. f_equal. lia.
Qed.

(** X2: with two thresholds [t0 <= t1], as in
    [variance_thresholds = [0.9, 0.99]], the cuts come out in order
    whenever some cumulative variance exceeds [t1]: the standard selection
    [components_[: i0]] and the negative selection [components_[i1 :]]
    then share no component, the components between the two cuts being
    dropped by both.  When no cumulative variance exceeds [t1] the second
    cut is 0 and the negative selection is the whole component list. *)
Theorem i_comp_thresholds_ordered (ratios : list Q) (t0 t1 : Q) (i0 i1 : nat) :
  t0 <= t1 ->
  i_comp_thresholds ratios [t0; t1] = ret [i0; i1] ->
  ((exists v, In v (cumsum ratios) /\ t1 < v) ->
   (i0 <= i1)%nat /\
   forall (A : Type) (components : list A),
     pca_comps components i0
       ++ firstn (i1 - i0) (npca_comps components i0)
       ++ npca_comps components i1 = components) /\
  ((forall v, In v (cumsum ratios) -> v <= t1) ->
   i1 = 0%nat /\
   forall (A : Type) (components : list A),
     npca_comps components i1 = components).
Proof.
  intros Ht H. apply i_comp_thresholds_each in H.
  inversion H as [|? ? ? ? H0 Hrest]; subst.
  inversion Hrest as [|? ? ? ? H1 _]; subst. clear H Hrest.
  destruct (cut_cases _ _ _ H1) as [Hf1 | [-> Hall1]].
  - split.
    + intros _.
      assert (Hle : (i0 <= i1)%nat).
      { destruct (cut_cases _ _ _ H0) as [[_ Hmin0] | [-> _]]; [|lia].
        destruct (le_lt_dec i0 i1) as [Hle|Hlt]; [exact Hle|exfalso].
        destruct Hf1 as [[v [Hv Hlt1]] _].
        apply (Qlt_irrefl t1). eapply Qlt_le_trans; [exact Hlt1|].
        eapply Qle_trans; [|exact Ht]. now apply (Hmin0 i1 v). }
      split; [exact Hle|]. intros A components. now apply three_way_split.
    + intros Hall. exfalso. now apply (none_exceeds ratios t1 i1).
  - split.
    + intros Hex. exfalso. now apply (some_exceeds ratios t1).
    + intros _. split; [reflexivity|]. intros A components. reflexivity.
Qed.

Lemma i_comp_thresholds_ordered_witness :
  ((exists v, In v (cumsum [1 # 2; 1 # 3; 1 # 6]) /\ 9 # 10 < v) ->
   (1 <= 2)%nat /\
   forall (A : Type) (components : list A),
     pca_comps components 1
       ++ firstn (2 - 1) (npca_comps components 1)
       ++ npca_comps components 2 = components) /\
  ((forall v, In v (cumsum [1 # 2; 1 # 3; 1 # 6]) -> v <= 9 # 10) ->
   2%nat = 0%nat /\
   forall (A : Type) (components : list A),
     npca_comps components 2 = components).
Proof.
  apply (i_comp_thresholds_ordered [1 # 2; 1 # 3; 1 # 6] (1 # 2) (9 # 10) 1 2).
  - discriminate.
  - reflexivity.
Defined.

(** X7: the patch-wise negative selection
    [pca.components_[i_comp_thresholds[1] - 1 :]] starts one component
    before the cut -- and at cut 0 the start index is [-1], which Python
    counts from the end: the selection is then the last component alone.
    Cut 0 arises exactly when the first cumulative variance already
    exceeds the threshold or none does. *)
Theorem patch_npca_comps_wraps {A : Type} (ratios : list Q) (t : Q) (i : nat)
    (components : list A) :
  i_comp_threshold ratios t = ret i ->
  (i = 0%nat <->
   (forall v, In v (cumsum ratios) -> v <= t) \/
   (exists x r, ratios = x :: r /\ t < x)) /\
  (i = 0%nat ->
   patch_npca_comps components i
     = skipn (length components - 1) components) /\
  (forall k, i = S k -> patch_npca_comps components i = skipn k components).
Proof.
  intros H. split; [|split].
  - destruct (cut_cases _ _ _ H) as [Hf | [-> Hall]].
    + split.
      * intros ->. right. destruct Hf as [[v [Hv Hlt]] _].
        destruct ratios as [|x r]; [discriminate|].
        simpl in Hv. injection Hv as <-. now exists x, r.
      * intros [Hall | (x & r & -> & Hlt)].
        -- exfalso. now apply (none_exceeds ratios t i).
        -- destruct Hf as [_ Hmin]. destruct i as [|j]; [reflexivity|exfalso].
           apply (Qlt_irrefl t). eapply Qlt_le_trans; [exact Hlt|].
           apply (Hmin 0%nat x); [lia | reflexivity].
    + split; [intros _; now left | reflexivity].
  - intros ->. unfold patch_npca_comps, slice_from, slice_index.
    change (Z.of_nat 0 - 1 <? 0)%Z with true. cbv iota. f_equal. lia.
  - intros k ->. unfold patch_npca_comps, slice_from, slice_index.
    destruct (Z.of_nat (S k) - 1 <? 0)%Z eqn:E; [apply Z.ltb_lt in E; lia|].
    destruct (le_lt_dec k (length components)) as [Hl|Hl].
    + f_equal. lia.
    + replace (Z.to_nat (Z.min (Z.of_nat (S k) - 1)
                           (Z.of_nat (length components))))
        with (length components) by lia.
      rewrite skipn_all. symmetry. apply skipn_all2. lia.
Qed.

Lemma patch_npca_comps_wraps_witness :
  (0%nat = 0%nat <->
   (forall v, In v (cumsum [9 # 10; 1 # 10]) -> v <= 4 # 5) \/
   (exists x r, [9 # 10; 1 # 10] = x :: r /\ 4 # 5 < x)) /\
  (0%nat = 0%nat ->
   patch_npca_comps [true; false] 0 = skipn (length [true; false] - 1) [true; false]) /\
  (forall k, 0%nat = S k -> patch_npca_comps [true; false] 0 = skipn k [true; false]).
Proof.
  apply (patch_npca_comps_wraps [9 # 10; 1 # 10] (4 # 5) 0 [true; false]).
  reflexivity.
Defined.

End SelectionFacts.

(** * Properties of the feature banks *)

Section BankFacts.

Import Bank.

Lemma setitem_slice_fits {A : Type} (a b : list A) (start n : nat) :
  n = length b -> (start + n <= length a)%nat ->
  setitem_slice a start (start + n) b
  = ret (firstn start a ++ b ++ skipn (start + n) a).
Proof.
  intros -> H. unfold setitem_slice.
  replace (Nat.min start (length a)) with start by lia.
  replace (Nat.max start (Nat.min (start + length b) (length a)))
    with (start + length b)%nat by lia.
  replace (start + length b - start)%nat with (length b) by lia.
  now rewrite Nat.eqb_refl.
Qed.

Lemma setitem_slice_overflow {A : Type} (a b : list A) (start : nat) :
  (start <= length a)%nat -> (length a < start + length b)%nat ->
  length b <> 1%nat ->
  setitem_slice a start (start + length b) b = raise ValueError.
Proof.
  intros Hs Ho H1. unfold setitem_slice.
  replace (Nat.min start (length a)) with start by lia.
  replace (Nat.max start (Nat.min (start + length b) (length a)))
    with (length a) by lia.
  destruct (length b =? length a - start)%nat eqn:E;
    [apply Nat.eqb_eq in E; lia|].
  destruct b as [|x [|y b]]; simpl in *; try reflexivity. lia.
Qed.

Lemma length_written {A : Type} (a b : list A) (start n : nat) :
  n = length b -> (start + n <= length a)%nat ->
  length (firstn start a ++ b ++ skipn (start + n) a) = length a.
Proof.
  intros -> H. rewrite !length_app, length_firstn, length_skipn. lia.
Qed.

Lemma firstn_written {A : Type} (a b : list A) (start n : nat) :
  n = length b -> (start + n <= length a)%nat ->
  firstn (start + n) (firstn start a ++ b ++ skipn (start + n) a)
  = firstn start a ++ b.
Proof.
  intros -> H. rewrite app_assoc. rewrite firstn_app.
  rewrite length_app, length_firstn.
  replace (start + length b - (Nat.min start (length a) + length b))%nat
    with 0%nat by lia.
  rewrite firstn_O, app_nil_r. apply firstn_all2.
  rewrite length_app, length_firstn. lia.
Qed.

Lemma skipn_written {A : Type} (a b : list A) (start n m : nat) :
  n = length b -> (start + n <= m)%nat -> (m <= length a)%nat ->
  skipn m (firstn start a ++ b ++ skipn (start + n) a) = skipn m a.
Proof.
  intros -> H Hn. rewrite app_assoc, skipn_app.
  rewrite length_app, length_firstn.
  replace (Nat.min start (length a)) with start by lia.
  rewrite (skipn_all2 (firstn start a ++ b))
    by (rewrite length_app, length_firstn; lia).
  rewrite skipn_skipn. simpl. f_equal. lia.
Qed.

Lemma fill_fits {A : Type} (batches : list (list A)) :
  forall (bank : list A) (i_mem : nat),
    (i_mem + length (concat batches) <= length bank)%nat ->
    fill bank i_mem batches
    = ret (firstn i_mem bank ++ concat batches
             ++ skipn (i_mem + length (concat batches)) bank,
           (i_mem + length (concat batches))%nat).
Proof.
  induction batches as [|feats rest IH]; intros bank i_mem H; simpl in *.
  - rewrite Nat.add_0_r, firstn_skipn. reflexivity.
  - rewrite length_app in H.
    rewrite setitem_slice_fits by (auto; lia). rewrite bind_ret.
    rewrite IH by (rewrite length_written; auto; lia).
    rewrite firstn_written by (auto; lia).
    rewrite skipn_written by (auto; lia).
    rewrite length_app, <- !app_assoc, !Nat.add_assoc. reflexivity.
Qed.

Lemma fill_overflow {A : Type} (batches : list (list A)) :
  forall (bank : list A) (i_mem : nat),
    (i_mem <= length bank)%nat ->
    (length bank < i_mem + length (concat batches))%nat ->
    Forall (fun feats => length feats <> 1%nat) batches ->
    fill bank i_mem batches = raise ValueError.
Proof.
  induction batches as [|feats rest IH]; intros bank i_mem Hi Ho Hall;
    simpl in *; [lia|].
  inversion Hall as [|? ? H1 Hrest]; subst. rewrite length_app in Ho.
  destruct (le_lt_dec (i_mem + length feats) (length bank)) as [Hfit|Hov].
  - rewrite setitem_slice_fits by (auto; lia). rewrite bind_ret.
    apply IH; [rewrite length_written | rewrite length_written |]; auto; lia.
  - now rewrite setitem_slice_overflow.
Qed.

(** X8: the loop that fills [memory_bank] (and [train_features]) stores
    the feature rows of all batches in order: when they fit, the bank
    begins with the rows of the batches, one after the other, the rest of
    the bank is as it was, and [i_mem] ends at the number of rows stored.
    When the rows do not fit, the assignment of the batch that overflows
    raises [ValueError] -- unless that batch has a single row, which
    numpy broadcasts over the clipped, empty slice without a word. *)
Theorem fill_memory_bank {A : Type} (memory_bank : list A)
    (batches : list (list A)) :
  ((length (concat batches) <= length memory_bank)%nat ->
   fill memory_bank 0 batches
   = ret (concat batches ++ skipn (length (concat batches)) memory_bank,
          length (concat batches))) /\
  ((length memory_bank < length (concat batches))%nat ->
   Forall (fun feats => length feats <> 1%nat) batches ->
   fill memory_bank 0 batches = raise ValueError) /\
  (forall x : A,
     fill memory_bank (length memory_bank) [[x]]
     = ret (memory_bank, S (length memory_bank))).
Proof.
  split; [|split].
  - intros H. now rewrite fill_fits.
  - intros H Hall. apply fill_overflow; auto. lia.
  - intros x. simpl. unfold setitem_slice.
    replace (Nat.min (length memory_bank) (length memory_bank))
      with (length memory_bank) by lia.
    replace (Nat.max (length memory_bank)
               (Nat.min (length memory_bank + 1) (length memory_bank)))
      with (length memory_bank) by lia.
    rewrite Nat.sub_diag. simpl.
    rewrite firstn_all, skipn_all, app_nil_r, Nat.add_1_r. reflexivity.
Qed.

Lemma fill_val_fits {A B : Type} (batches : list (list A * list B)) :
  forall (F : list A) (L : list B) (i_mem : nat),
    Forall (fun b => length (snd b) = length (fst b)) batches ->
    (i_mem + length (concat (map fst batches)) <= length F)%nat ->
    length L = length F ->
    fill_val F L i_mem batches
    = ret (firstn i_mem F ++ concat (map fst batches)
             ++ skipn (i_mem + length (concat (map fst batches))) F,
           firstn i_mem L ++ concat (map snd batches)
             ++ skipn (i_mem + length (concat (map fst batches))) L,
           (i_mem + length (concat (map fst batches)))%nat).
Proof.
  induction batches as [|[feats labels] rest IH]; intros F L i_mem Hall H HL;
    simpl in *.
  - rewrite Nat.add_0_r, !firstn_skipn. reflexivity.
  - inversion Hall as [|? ? Hb Hrest]; subst. simpl in Hb.
    rewrite length_app in H.
    rewrite (setitem_slice_fits F feats) by (auto; lia). rewrite bind_ret.
    rewrite (setitem_slice_fits L labels) by (auto; lia). rewrite bind_ret.
    rewrite IH; auto.
    + rewrite (firstn_written F feats) by (auto; lia).
      rewrite (skipn_written F feats) by (auto; lia).
      rewrite (firstn_written L labels) by (auto; lia).
      rewrite (skipn_written L labels) by (auto; lia).
      rewrite length_app, <- !app_assoc, !Nat.add_assoc. reflexivity.
    + rewrite (length_written F feats); auto; lia.
    + rewrite (length_written F feats) by (auto; lia).
      rewrite (length_written L labels) by (auto; lia). exact HL.
Qed.

Lemma combine_app {A B : Type} (l1 l2 : list A) (m1 m2 : list B) :
  length l1 = length m1 ->
  combine (l1 ++ l2) (m1 ++ m2) = combine l1 m1 ++ combine l2 m2.
Proof.
  revert m1. induction l1 as [|a l1 IH]; intros [|b m1] H; simpl in *;
    try discriminate; [reflexivity|]. f_equal. apply IH. lia.
Qed.

Lemma combine_concat {A B : Type} (batches : list (list A * list B)) :
  Forall (fun b => length (snd b) = length (fst b)) batches ->
  combine (concat (map fst batches)) (concat (map snd batches))
  = concat (map (fun b => combine (fst b) (snd b)) batches) /\
  length (concat (map snd batches)) = length (concat (map fst batches)).
Proof.
  induction 1 as [|[f l] rest Hb _ [IH1 IH2]]; simpl in *; [now split|].
  split.
  - rewrite combine_app by lia. now rewrite IH1.
  - rewrite !length_app. lia.
Qed.

(** X9: the validation loop keeps features and labels aligned.  When
    every batch brings as many labels as feature rows and the rows fit,
    the loop returns, both arrays keep their length, and entry [k] of
    [val_labels] is the label that came with row [k] of [val_features],
    for every row stored. *)
Theorem fill_val_aligned {A B : Type} (val_features : list A)
    (val_labels : list B) (batches : list (list A * list B)) :
  Forall (fun b => length (snd b) = length (fst b)) batches ->
  length val_labels = length val_features ->
  (length (concat (map fst batches)) <= length val_features)%nat ->
  exists F L,
    fill_val val_features val_labels 0 batches
      = ret (F, L, length (concat (map fst batches))) /\
    length F = length val_features /\ length L = length val_labels /\
    firstn (length (concat (map fst batches))) (combine F L)
      = concat (map (fun b => combine (fst b) (snd b)) batches).
Proof.
  intros Hall HL Hfit.
  destruct (combine_concat batches Hall) as [Hc Hlen].
  exists (concat (map fst batches)
            ++ skipn (length (concat (map fst batches))) val_features),
         (concat (map snd batches)
            ++ skipn (length (concat (map fst batches))) val_labels).
  split; [now rewrite fill_val_fits|].
  repeat split.
  - rewrite length_app, length_skipn. lia.
  - rewrite length_app, length_skipn. lia.
  - rewrite combine_app by lia. rewrite firstn_app.
    rewrite firstn_all2 by (rewrite length_combine; lia).
    rewrite length_combine.
    replace (_ - _)%nat with 0%nat by lia.
    rewrite firstn_O, app_nil_r. exact Hc.
Qed.

Lemma fill_val_aligned_witness :
  exists F L,
    fill_val [0; 0; 0]%nat [false; false; false] 0
      [([1; 2]%nat, [true; false]); ([3]%nat, [true])]
      = ret (F, L, length (concat (map fst
               [([1; 2]%nat, [true; false]); ([3]%nat, [true])]))) /\
    length F = length [0; 0; 0]%nat /\
    length L = length [false; false; false] /\
    firstn (length (concat (map fst
              [([1; 2]%nat, [true; false]); ([3]%nat, [true])])))
           (combine F L)
      = concat (map (fun b => combine (fst b) (snd b))
                  [([1; 2]%nat, [true; false]); ([3]%nat, [true])]).
Proof.
  apply (fill_val_aligned [0; 0; 0]%nat [false; false; false]
           [([1; 2]%nat, [true; false]); ([3]%nat, [true])]).
  - repeat constructor.
  - reflexivity.
  - simpl. lia.
Defined.

End BankFacts.

(** * What the boxes mark *)

Section BrightFacts.

Import Array2 Boxes Walk.

(** What a dilated pixel stems from. *)
Lemma window_hit_source (img : matrix bool) (d i j : nat) :
  window_hit img d i j = true <->
  exists a b, (a < d /\ b < d /\ a <= i + d / 2 /\ b <= j + d / 2)%nat /\
              get false img (i + d / 2 - a) (j + d / 2 - b) = true.
Proof.
  unfold window_hit. rewrite existsb_exists. split.
  - intros [a [Ha H]]. apply existsb_exists in H. destruct H as [b [Hb H]].
    apply in_seq in Ha, Hb. rewrite !andb_true_iff, !Nat.leb_le in H.
    exists a, b. split; [lia | tauto].
  - intros (a & b & Hab & H). exists a. split; [apply in_seq; lia|].
    apply existsb_exists. exists b. split; [apply in_seq; lia|].
    rewrite !andb_true_iff, !Nat.leb_le. repeat split; auto; lia.
Qed.

Lemma set_at_tabulate_eq (h w : nat) (f : nat -> nat -> bool) (i j : nat) :
  (i < h)%nat -> (j < w)%nat -> set_at (tabulate h w f) (i, j) = f i j.
Proof. intros Hi Hj. unfold set_at. simpl. now apply get_tabulate. Qed.

Lemma get_in_range {A : Type} (d : A) (h w : nat) (x : matrix A) (i j : nat) :
  rect h w x -> get d x i j <> d -> (i < h)%nat /\ (j < w)%nat.
Proof.
  intros [Hh Hw] Hne. unfold get in Hne.
  destruct (lt_dec i h) as [Hi|Hi].
  - split; [exact Hi|].
    assert (Hrow : length (nth i x []) = w).
    { rewrite Forall_forall in Hw. apply Hw, nth_In. lia. }
    destruct (lt_dec j w) as [Hj|Hj]; [exact Hj|].
    rewrite (nth_overflow (nth i x [])) in Hne by lia. congruence.
  - rewrite (nth_overflow x) in Hne by lia. destruct j; simpl in Hne; congruence.
Qed.

Lemma get_mmap {A B : Type} (f : A -> B) (da : A) (db : B) (h w : nat)
    (x : matrix A) (i j : nat) :
  rect h w x -> (i < h)%nat -> (j < w)%nat ->
  get db (mmap f x) i j = f (get da x i j).
Proof.
  intros [Hh Hw] Hi Hj. unfold get, mmap.
  assert (Hrow : length (nth i x []) = w).
  { rewrite Forall_forall in Hw. apply Hw, nth_In. lia. }
  rewrite (nth_indep _ [] (map f [])) by (rewrite length_map; lia).
  rewrite map_nth. rewrite (nth_indep _ db (f da)) by (rewrite length_map; lia).
  now rewrite map_nth.
Qed.

Lemma rect_mmap {A B : Type} (f : A -> B) (h w : nat) (x : matrix A) :
  rect h w x -> rect h w (mmap f x).
Proof.
  intros [Hh Hw]. split; [unfold mmap; now rewrite length_map|].
  unfold mmap. apply Forall_map. rewrite Forall_forall in *.
  intros row Hrow. rewrite length_map. now apply Hw.
Qed.

(** A region that [clear_border] keeps is kept whole. *)
Lemma clear_border_closed (h w : nat) (f : nat -> nat -> bool) (x n : pixel) :
  h <> 0%nat ->
  set_at (clear_border (tabulate h w f)) x = true ->
  In n (neighbours x) ->
  set_at (tabulate h w f) n = true ->
  set_at (clear_border (tabulate h w f)) n = true.
Proof.
  intros Hh Hx Hn Hset. unfold clear_border in *.
  rewrite shape0_tabulate, shape1_tabulate in * by assumption.
  destruct (set_at_tabulate _ _ _ _ Hset) as (Hi & Hj & _).
  destruct n as [i j]. simpl in Hi, Hj.
  rewrite set_at_tabulate_eq by assumption. rewrite Hset. simpl.
  apply negb_true_iff. apply not_true_iff_false. intros Hin.
  apply in_regions_true in Hin. destruct Hin as [r [Hr Hnr]].
  apply set_at_tabulate in Hx. destruct Hx as (Hxi & Hxj & Hx).
  replace (fst x, snd x) with x in Hx by now destruct x.
  apply andb_true_iff in Hx. destruct Hx as [Hxs Hxo].
  apply negb_true_iff in Hxo.
  assert (Hxr : In x r).
  { pose proof Hr as Hr'. apply filter_In in Hr'. destruct Hr' as [Hr' _].
    destruct (label_connected_components (tabulate h w f)
                (rect_shapes_tabulate h w f)) as (_ & Hcomp & _).
    rewrite Forall_forall in Hcomp. destruct (Hcomp r Hr') as [s [_ Hs]].
    apply Hs. apply (reach_step _ _ (i, j) x).
    - now apply Hs.
    - now apply neighbours_sym.
    - exact Hxs. }
  assert (Hin : in_regions x
            (filter (existsb (on_border h w)) (label (tabulate h w f))) = true).
  { unfold in_regions. apply existsb_exists. exists r. split; [exact Hr|].
    now apply mem_In. }
  congruence.
Qed.

Lemma toward_spec (a b : nat) :
  (toward a b <= S a /\ a <= S (toward a b) /\
   Nat.min a b <= toward a b <= Nat.max a b /\
   (a = b -> toward a b = a) /\
   (a <> b -> toward a b <> a /\
              (toward a b - b) + (b - toward a b) < (a - b) + (b - a)))%nat.
Proof.
  unfold toward.
  destruct (a <? b)%nat eqn:A; [apply Nat.ltb_lt in A; lia|].
  apply Nat.ltb_ge in A.
  destruct (b <? a)%nat eqn:B; [apply Nat.ltb_lt in B; lia|].
  apply Nat.ltb_ge in B. lia.
Qed.

Lemma reach_walk (ok ok0 : pixel -> bool) (seed : pixel) :
  (forall x n, ok x = true -> In n (neighbours x) -> ok0 n = true ->
               ok n = true) ->
  forall (k : nat) (q s : pixel),
    ((fst q - fst s) + (fst s - fst q)
     + ((snd q - snd s) + (snd s - snd q)) <= k)%nat ->
    reach ok seed q ->
    (forall x, spanned q s x -> ok0 x = true) ->
    reach ok seed s.
Proof.
  intros Hclosed. induction k as [|k IH]; intros [q1 q2] [s1 s2] Hk Hq Hspan;
    simpl in *.
  - replace s1 with q1 by lia. replace s2 with q2 by lia. exact Hq.
  - destruct (toward_spec q1 s1) as (T1 & T2 & T3 & T4 & T5).
    destruct (toward_spec q2 s2) as (U1 & U2 & U3 & U4 & U5).
    destruct (Nat.eq_dec q1 s1) as [E1|E1].
    + destruct (Nat.eq_dec q2 s2) as [E2|E2]; [subst; exact Hq|].
      specialize (T4 E1). specialize (U5 E2). destruct U5 as [U5 U6].
      assert (Hn : In (toward q1 s1, toward q2 s2) (neighbours (q1, q2))).
      { apply in_neighbours. simpl. split; [intros [= E E']; lia | lia]. }
      apply (IH (toward q1 s1, toward q2 s2) (s1, s2)); simpl.
      * lia.
      * apply (reach_step _ _ (q1, q2)); [exact Hq | exact Hn |].
        apply (Hclosed (q1, q2)); [now apply (reach_ok _ seed) | exact Hn |].
        apply Hspan. unfold spanned. simpl. lia.
      * intros x Hx. apply Hspan. unfold spanned in *. simpl in *. lia.
    + specialize (T5 E1). destruct T5 as [T5 T6].
      assert (U7 : ((toward q2 s2 - s2) + (s2 - toward q2 s2)
                    <= (q2 - s2) + (s2 - q2))%nat).
      { destruct (Nat.eq_dec q2 s2) as [E2|E2]; [rewrite (U4 E2); lia|].
        specialize (U5 E2). lia. }
      assert (Hn : In (toward q1 s1, toward q2 s2) (neighbours (q1, q2))).
      { apply in_neighbours. simpl. split; [intros [= E E']; lia | lia]. }
      apply (IH (toward q1 s1, toward q2 s2) (s1, s2)); simpl.
      * lia.
      * apply (reach_step _ _ (q1, q2)); [exact Hq | exact Hn |].
        apply (Hclosed (q1, q2)); [now apply (reach_ok _ seed) | exact Hn |].
        apply Hspan. unfold spanned. simpl. lia.
      * intros x Hx. apply Hspan. unfold spanned in *. simpl in *. lia.
Qed.

(** Every region labelled after dilation and border clearing contains a
    pixel that was set before the dilation. *)
Lemma region_has_source (img : matrix bool) (d : nat) (r : list pixel) :
  rect (shape0 img) (shape1 img) img ->
  shape0 img <> 0%nat -> d <> 0%nat ->
  In r (label (clear_border
                 (tabulate (shape0 img) (shape1 img) (window_hit img d)))) ->
  exists s, In s r /\ set_at img s = true.
Proof.
  set (h := shape0 img). set (w := shape1 img). set (f := window_hit img d).
  intros Hrect Hh Hd Hr.
  assert (Hrect' : rect (shape0 (clear_border (tabulate h w f)))
                        (shape1 (clear_border (tabulate h w f)))
                        (clear_border (tabulate h w f))).
  { unfold clear_border. apply rect_shapes_tabulate. }
  destruct (label_connected_components _ Hrect') as (_ & Hcomp & _).
  rewrite Forall_forall in Hcomp. destruct (Hcomp r Hr) as [seed [Hseed Hs]].
  assert (Hset : set_at (clear_border (tabulate h w f)) seed = true)
    by (apply (reach_ok _ seed); now apply Hs).
  pose proof Hset as Hset'. unfold clear_border in Hset'.
  rewrite shape0_tabulate, shape1_tabulate in Hset' by assumption.
  apply set_at_tabulate in Hset'. destruct Hset' as (Hi & Hj & Hdil).
  apply andb_true_iff in Hdil. destruct Hdil as [Hdil _].
  apply set_at_tabulate in Hdil. destruct Hdil as (_ & _ & Hf).
  simpl in Hf. unfold f in Hf. apply window_hit_source in Hf.
  destruct Hf as (a & b & (Ha & Hb & Ha' & Hb') & Hget).
  assert (Hc : (d / 2 < d)%nat) by (apply Nat.div_lt; lia).
  set (c := (d / 2)%nat) in *.
  destruct (get_in_range false h w img (fst seed + c - a) (snd seed + c - b)
              Hrect) as [Hs1 Hs2]; [rewrite Hget; discriminate|].
  exists (fst seed + c - a, snd seed + c - b)%nat. split; [|exact Hget].
  apply Hs.
  apply (reach_walk (set_at (clear_border (tabulate h w f)))
           (set_at (tabulate h w f)) seed
           (fun x n => clear_border_closed h w f x n Hh))
    with (q := seed)
         (k := ((fst seed - (fst seed + c - a)) + (fst seed + c - a - fst seed)
                + ((snd seed - (snd seed + c - b))
                   + (snd seed + c - b - snd seed)))%nat).
  - apply Nat.le_refl.
  - now apply Hs.
  - intros [x1 x2] [Hx1 Hx2]. simpl in Hx1, Hx2.
    rewrite set_at_tabulate_eq by lia. unfold f.
    apply window_hit_source. fold c.
    exists (x1 + c - (fst seed + c - a))%nat, (x2 + c - (snd seed + c - b))%nat.
    split; [lia|].
    replace (x1 + c - (x1 + c - (fst seed + c - a)))%nat
      with (fst seed + c - a)%nat by lia.
    replace (x2 + c - (x2 + c - (snd seed + c - b)))%nat
      with (snd seed + c - b)%nat by lia.
    exact Hget.
Qed.

Lemma find_bounding_boxes_regions (g : Globals) (img : Image) (p a : Q)
    (d : nat) (boxes : list BBox) :
  find_bounding_boxes g img p a d = ret boxes ->
  exists t,
    percentile (concat img) p = ret t /\
    shape0 img <> 0%nat /\ d <> 0%nat /\
    forall b, In b boxes ->
      exists r,
        b = bbox_of r /\
        In r (label (clear_border
               (tabulate (shape0 img) (shape1 img)
                  (window_hit (cv2_threshold img (py_int t)) d)))).
Proof.
  unfold find_bounding_boxes, lookup_img_proc_np, binary_dilation. cbv zeta.
  destruct (array_max (concat img)) as [e|mx] eqn:Emax; [discriminate|].
  rewrite !bind_ret.
  destruct (percentile (concat img) p) as [e|t]; [discriminate|].
  rewrite !bind_ret.
  destruct (d =? 0)%nat eqn:Ed; [discriminate|]. rewrite !bind_ret.
  destruct (img_proc_np g) as [glob|]; [|discriminate].
  rewrite !bind_ret. intros [= <-]. exists t.
  split; [reflexivity|]. split; [apply (array_max_nonempty img mx Emax)|].
  split; [now apply Nat.eqb_neq|].
  intros b Hb. apply in_map_iff in Hb. destruct Hb as [reg [<- Hreg]].
  apply filter_In in Hreg. destruct Hreg as [Hreg _].
  unfold regionprops in Hreg. apply in_map_iff in Hreg.
  destruct Hreg as [r [<- Hr]]. exists r. split; [reflexivity|].
  unfold cv2_threshold in *. now rewrite shape0_mmap, shape1_mmap in Hr.
Qed.

(** Every box holds a pixel brighter than the truncated percentile. *)
Lemma boxes_hold_bright_pixel (g : Globals) (img : Image) (p a : Q)
    (d : nat) (boxes : list BBox) :
  rect (shape0 img) (shape1 img) img ->
  find_bounding_boxes g img p a d = ret boxes ->
  exists t,
    percentile (concat img) p = ret t /\
    forall b, In b boxes ->
      exists q, inside q b /\
                (fst q < shape0 img)%nat /\ (snd q < shape1 img)%nat /\
                (py_int t < get 0%Z img (fst q) (snd q))%Z.
Proof.
  intros Hrect H.
  destruct (find_bounding_boxes_regions _ _ _ _ _ _ H)
    as (t & Ht & Hh & Hd & Hboxes).
  exists t. split; [exact Ht|]. intros b Hb.
  destruct (Hboxes b Hb) as (r & -> & Hr).
  set (mask := cv2_threshold img (py_int t)) in *.
  assert (Hm : rect (shape0 img) (shape1 img) mask)
    by (apply rect_mmap; exact Hrect).
  assert (E0 : shape0 mask = shape0 img) by apply shape0_mmap.
  assert (E1 : shape1 mask = shape1 img) by apply shape1_mmap.
  rewrite <- E0, <- E1 in Hr, Hm.
  destruct (region_has_source mask d r Hm) as (s & Hs & Hset); auto;
    [congruence|].
  exists s. split; [now apply bbox_of_encloses|].
  unfold set_at in Hset. rewrite E0, E1 in Hm.
  destruct (get_in_range false _ _ mask (fst s) (snd s) Hm) as [H1 H2];
    [rewrite Hset; discriminate|].
  unfold mask, cv2_threshold in Hset.
  rewrite (get_mmap _ 0%Z false _ _ img _ _ Hrect H1 H2) in Hset.
  repeat split; auto. now apply Z.ltb_lt.
Qed.

(** *** The percentile *)

Lemma In_insert (x y : Z) (l : list Z) :
  In y (insert x l) <-> y = x \/ In y l.
Proof.
  induction l as [|z l IH]; simpl; [intuition congruence|].
  destruct (x <=? z)%Z; simpl; [intuition congruence|].
  rewrite IH. intuition congruence.
Qed.

Lemma In_sort (y : Z) (l : list Z) : In y (sort l) <-> In y l.
Proof.
  induction l as [|x l IH]; simpl; [tauto|].
  rewrite In_insert, IH. intuition congruence.
Qed.

Lemma length_insert (x : Z) (l : list Z) : length (insert x l) = S (length l).
Proof.
  induction l as [|z l IH]; simpl; [reflexivity|].
  destruct (x <=? z)%Z; simpl; [reflexivity | now rewrite IH].
Qed.

Lemma length_sort (l : list Z) : length (sort l) = length l.
Proof.
  induction l as [|x l IH]; simpl; [reflexivity|].
  now rewrite length_insert, IH.
Qed.

Lemma insert_sorted (x : Z) (l : list Z) :
  StronglySorted Z.le l -> StronglySorted Z.le (insert x l).
Proof.
  induction 1 as [|z l Hs IH Hall]; simpl.
  - constructor; constructor.
  - destruct (x <=? z)%Z eqn:E.
    + apply Z.leb_le in E. constructor; [now constructor|].
      constructor; [exact E|]. rewrite Forall_forall in *.
      intros y Hy. specialize (Hall y Hy). lia.
    + apply Z.leb_gt in E. constructor; [exact IH|].
      rewrite Forall_forall in *. intros y Hy. apply In_insert in Hy.
      destruct Hy as [-> | Hy]; [lia | now apply Hall].
Qed.

Lemma sort_sorted (l : list Z) : StronglySorted Z.le (sort l).
Proof.
  induction l as [|x l IH]; simpl; [constructor | now apply insert_sorted].
Qed.

Lemma nth_last_sorted (s : list Z) :
  StronglySorted Z.le s ->
  forall y, In y s -> (y <= nth (length s - 1) s 0)%Z.
Proof.
  induction 1 as [|z l Hs IH Hall]; intros y Hy; [destruct Hy|].
  simpl. rewrite Nat.sub_0_r. destruct l as [|z' l'].
  - destruct Hy as [<- | []]. reflexivity.
  - assert (Hlast : In (nth (length (z' :: l') - 1) (z' :: l') 0%Z) (z' :: l'))
      by (apply nth_In; simpl; lia).
    simpl in Hlast. rewrite Nat.sub_0_r in Hlast.
    destruct Hy as [<- | Hy].
    + rewrite Forall_forall in Hall. specialize (Hall _ Hlast).
      cbn [length nth]. exact Hall.
    + specialize (IH y Hy). simpl in IH. rewrite Nat.sub_0_r in IH.
      cbn [length nth]. exact IH.
Qed.

Lemma py_int_inject (q : Q) (c : Z) : (q == inject_Z c)%Q -> py_int q = c.
Proof.
  unfold Qeq, py_int. simpl. intros H. rewrite Z.mul_1_r in H. rewrite H.
  apply Z.quot_mul. discriminate.
Qed.

(** Within range the percentile interpolates between two entries of the
    array. *)
Lemma percentile_entries (a : list Z) (q : Q) :
  a <> [] -> (0 <= q)%Q -> (q <= 100)%Q ->
  exists lo hi gamma,
    percentile a q = ret (inject_Z lo + inject_Z (hi - lo) * gamma)%Q /\
    In lo a /\ In hi a.
Proof.
  intros Hne H0 H100. unfold percentile.
  assert (E : Qle_bool 0 q && Qle_bool q 100 = true)
    by (apply andb_true_iff; split; now apply Qle_bool_iff).
  rewrite E. cbv zeta. simpl negb. cbv iota.
  set (n := length (sort a)).
  assert (Hn : (0 < n)%nat).
  { unfold n. rewrite length_sort. destruct a; [congruence | simpl; lia]. }
  set (virtual := (inject_Z (Z.of_nat (n - 1)) * q / 100)%Q).
  assert (Hv : (virtual <= inject_Z (Z.of_nat (n - 1)))%Q).
  { unfold virtual. apply Qle_shift_div_r; [reflexivity|].
    assert (HN : (0 <= inject_Z (Z.of_nat (n - 1)))%Q)
      by (change 0%Q with (inject_Z 0); rewrite <- Zle_Qle; lia).
    rewrite (Qmult_comm _ q), (Qmult_comm _ 100).
    now apply Qmult_le_compat_r. }
  assert (Hp : (Z.to_nat (Qfloor virtual) <= n - 1)%nat).
  { apply Qfloor_resp_le in Hv. rewrite Qfloor_Z in Hv. lia. }
  eexists _, _, _. split; [reflexivity|]. split.
  - apply In_sort. apply nth_In. fold n. lia.
  - apply In_sort. apply nth_In. fold n. lia.
Qed.

(** At [q = 100] the percentile is the largest entry. *)
Lemma percentile_100 (a : list Z) (q : Q) :
  a <> [] -> (q == 100)%Q ->
  exists v, percentile a q = ret v /\
            forall y, In y a -> (y <= py_int v)%Z.
Proof.
  intros Hne Hq. unfold percentile.
  assert (E : Qle_bool 0 q && Qle_bool q 100 = true).
  { apply andb_true_iff. split; apply Qle_bool_iff; rewrite Hq; discriminate. }
  rewrite E. cbv zeta. simpl negb. cbv iota.
  set (n := length (sort a)).
  assert (Hn : (0 < n)%nat).
  { unfold n. rewrite length_sort. destruct a; [congruence | simpl; lia]. }
  set (virtual := (inject_Z (Z.of_nat (n - 1)) * q / 100)%Q).
  assert (Hf : Qfloor virtual = Z.of_nat (n - 1)).
  { rewrite <- (Qfloor_Z (Z.of_nat (n - 1))). apply Qfloor_comp.
    unfold virtual. rewrite Hq. field. }
  rewrite Hf, Nat2Z.id.
  replace (Nat.min (S (n - 1)) (n - 1)) with (n - 1)%nat by lia.
  eexists. split; [reflexivity|]. intros y Hy.
  rewrite (py_int_inject _ (nth (n - 1) (sort a) 0%Z)).
  - apply nth_last_sorted; [apply sort_sorted | now apply In_sort].
  - rewrite Z.sub_diag. change (inject_Z 0) with 0%Q. ring.
Qed.

Lemma rect_concat_In {A : Type} (d : A) (h w : nat) (x : matrix A) (i j : nat) :
  rect h w x -> (i < h)%nat -> (j < w)%nat -> In (get d x i j) (concat x).
Proof.
  intros [Hh Hw] Hi Hj. apply in_concat. exists (nth i x []). split.
  - apply nth_In. lia.
  - unfold get. apply nth_In.
    rewrite Forall_forall in Hw. rewrite (Hw (nth i x [])); [exact Hj|].
    apply nth_In. lia.
Qed.

Lemma no_bright_no_boxes (g : Globals) (img : Image) (p a : Q)
    (d : nat) (boxes : list BBox) :
  rect (shape0 img) (shape1 img) img ->
  find_bounding_boxes g img p a d = ret boxes ->
  (forall t, percentile (concat img) p = ret t ->
             forall y, In y (concat img) -> (y <= py_int t)%Z) ->
  boxes = [].
Proof.
  intros Hrect H Hmax.
  destruct (boxes_hold_bright_pixel _ _ _ _ _ _ Hrect H) as (t & Ht & Hb).
  destruct boxes as [|b boxes]; [reflexivity|exfalso].
  destruct (Hb b (or_introl eq_refl)) as (q & _ & H1 & H2 & Hlt).
  pose proof (rect_concat_In 0%Z _ _ img _ _ Hrect H1 H2) as Hin.
  specialize (Hmax t Ht _ Hin). lia.
Qed.

(** X10: every box [find_bounding_boxes] returns for a rectangular image
    holds a pixel of the image that is brighter than the threshold
    [int(np.percentile(img_np, perc_thresh))]: dilation only grows the
    thresholded pixels into blocks, and a region that survives
    [clear_border] survives whole, with the pixel it grew from. *)
Theorem find_bounding_boxes_bright_pixel (g : Globals) (img : Image)
    (p a : Q) (d : nat) (boxes : list BBox) :
  rect (shape0 img) (shape1 img) img ->
  find_bounding_boxes g img p a d = ret boxes ->
  exists thresh_val,
    percentile (concat img) p = ret thresh_val /\
    Forall (fun b =>
      exists q, inside q b /\
                (fst q < shape0 img)%nat /\ (snd q < shape1 img)%nat /\
                (py_int thresh_val < get 0%Z img (fst q) (snd q))%Z) boxes.
Proof.
  intros Hrect H.
  destruct (boxes_hold_bright_pixel _ _ _ _ _ _ Hrect H) as (t & Ht & Hb).
  exists t. split; [exact Ht|]. now apply Forall_forall.
Qed.

Lemma l_and_dot_rect : rect (shape0 l_and_dot) (shape1 l_and_dot) l_and_dot.
Proof. split; [reflexivity|]. repeat constructor. Qed.

Lemma find_bounding_boxes_bright_pixel_witness :
  exists thresh_val,
    percentile (concat l_and_dot) 50 = ret thresh_val /\
    Forall (fun b =>
      exists q, inside q b /\
                (fst q < shape0 l_and_dot)%nat /\
                (snd q < shape1 l_and_dot)%nat /\
                (py_int thresh_val < get 0%Z l_and_dot (fst q) (snd q))%Z)
      [mk_BBox 1 1 4 4; mk_BBox 1 3 2 4].
Proof.
  apply (find_bounding_boxes_bright_pixel
           (mk_Globals (Some l_and_dot)) l_and_dot 50%Q (1 # 100)%Q 1%nat).
  - exact l_and_dot_rect.
  - vm_compute. reflexivity.
Defined.

Lemma concat_constant_image (h w : nat) (c y : Z) :
  In y (concat (constant_image h w c)) -> y = c.
Proof.
  unfold constant_image, tabulate. intros H. apply in_concat in H.
  destruct H as [row [Hrow Hy]]. apply in_map_iff in Hrow.
  destruct Hrow as [i [<- _]]. apply in_map_iff in Hy.
  now destruct Hy as [j [<- _]].
Qed.

(** X11: where no pixel can exceed the threshold nothing is detected: at
    [perc_thresh = 100] the threshold is the brightest pixel, and on an
    image whose pixels are all equal it is that one value; in both cases
    [find_bounding_boxes], when it returns, returns no box. *)
Theorem find_bounding_boxes_nothing_above (g : Globals) (img : Image)
    (p a : Q) (d : nat) (boxes : list BBox) :
  rect (shape0 img) (shape1 img) img ->
  (p == 100)%Q \/ (exists c, forall y, In y (concat img) -> y = c) ->
  find_bounding_boxes g img p a d = ret boxes ->
  boxes = [].
Proof.
  intros Hrect Hcase H. apply (no_bright_no_boxes g img p a d); auto.
  intros t Ht y Hy.
  assert (Hne : concat img <> []) by (intros E; rewrite E in Hy; destruct Hy).
  destruct Hcase as [Hp | [c Hc]].
  - destruct (percentile_100 (concat img) p Hne Hp) as (v & Hv & Hle).
    rewrite Hv in Ht. injection Ht as <-. now apply Hle.
  - assert (Hr : (0 <= p)%Q /\ (p <= 100)%Q).
    { unfold percentile in Ht.
      destruct (Qle_bool 0 p && Qle_bool p 100) eqn:E; [|discriminate].
      apply andb_true_iff in E. destruct E as [E1 E2].
      split; now apply Qle_bool_iff. }
    destruct (percentile_entries (concat img) p Hne (proj1 Hr) (proj2 Hr))
      as (lo & hi & gamma & Hv & Hlo & Hhi).
    rewrite Hv in Ht. injection Ht as <-.
    rewrite (Hc lo Hlo), (Hc hi Hhi), (Hc y Hy).
    rewrite (py_int_inject _ c); [reflexivity|].
    rewrite Z.sub_diag. change (inject_Z 0) with 0%Q. ring.
Qed.

Lemma find_bounding_boxes_nothing_above_witness :
  @nil BBox = [].
Proof.
  apply (find_bounding_boxes_nothing_above
           (mk_Globals (Some l_and_dot)) l_and_dot 100%Q (1 # 100)%Q 1%nat).
  - exact l_and_dot_rect.
  - left. reflexivity.
  - vm_compute. reflexivity.
Defined.

End BrightFacts.

(** * Which calls return *)

Section OutcomeFacts.

Import Float Array2 Fourier Boxes.

Lemma percentile_guard (a : list Z) (q : Q) :
  (exists v, percentile a q = ret v /\ (0 <= q)%Q /\ (q <= 100)%Q) \/
  (percentile a q = raise ValueError /\ ~ ((0 <= q)%Q /\ (q <= 100)%Q)).
Proof.
  unfold percentile.
  destruct (Qle_bool 0 q && Qle_bool q 100) eqn:E; simpl.
  - left. apply andb_true_iff in E. destruct E as [E1 E2].
    apply Qle_bool_iff in E1, E2. eexists. repeat split; auto.
  - right. split; [reflexivity|]. intros [E1 E2].
    apply Qle_bool_iff in E1, E2. rewrite E1, E2 in E. discriminate.
Qed.

Lemma find_bounding_boxes_cases (g : Globals) (img : Image) (p a : Q)
    (d : nat) :
  match find_bounding_boxes g img p a d with
  | inl ValueError => concat img = [] \/ ~ ((0 <= p)%Q /\ (p <= 100)%Q)
  | inl RuntimeError =>
      concat img <> [] /\ ((0 <= p)%Q /\ (p <= 100)%Q) /\ d = 0%nat
  | inl NameError =>
      concat img <> [] /\ ((0 <= p)%Q /\ (p <= 100)%Q) /\ d <> 0%nat /\
      img_proc_np g = None
  | inl AssertionError => False
  | inr _ =>
      concat img <> [] /\ ((0 <= p)%Q /\ (p <= 100)%Q) /\ d <> 0%nat /\
      img_proc_np g <> None
  end.
Proof.
  unfold find_bounding_boxes, lookup_img_proc_np, binary_dilation. cbv zeta.
  destruct (concat img) as [|x r] eqn:Ec; [now left|].
  assert (Hne : x :: r <> []) by discriminate.
  unfold array_max at 1. rewrite bind_ret.
  destruct (percentile_guard (x :: r) p) as [(v & -> & Hp) | [-> Hp]];
    [|now right].
  rewrite bind_ret.
  destruct (d =? 0)%nat eqn:Ed.
  - apply Nat.eqb_eq in Ed. simpl. auto.
  - apply Nat.eqb_neq in Ed. rewrite bind_ret.
    destruct (img_proc_np g) as [glob|]; simpl; repeat split; auto; tauto || discriminate.
Qed.

Lemma reconstruct_tabulate (h w : nat) (f : nat -> nat -> C) :
  h <> 0%nat -> w <> 0%nat ->
  exists y, reconstruct (tabulate h w f) = ret y /\ rect h w y.
Proof.
  intros Hh Hw. unfold reconstruct, ifft2, ifftshift.
  rewrite !shape0_tabulate, !shape1_tabulate by assumption.
  destruct (h =? 0)%nat eqn:E0; [apply Nat.eqb_eq in E0; lia|].
  destruct (w =? 0)%nat eqn:E1; [apply Nat.eqb_eq in E1; lia|].
  simpl orb. cbv iota. rewrite bind_ret. eexists. split; [reflexivity|].
  apply rect_mmap, rect_mmap. unfold dft2.
  rewrite !shape0_tabulate, !shape1_tabulate by assumption.
  apply rect_tabulate.
Qed.

(** On an image with at least one pixel [ft_extract_anomalies] returns an
    8-bit image of the same height and width. *)
Lemma ft_extract_anomalies_image (img : Image) (t : R) :
  shape0 img <> 0%nat -> shape1 img <> 0%nat ->
  exists img_proc,
    ft_extract_anomalies img t = ret img_proc /\
    rect (shape0 img) (shape1 img) img_proc /\
    uint8_image img_proc.
Proof.
  intros H0 H1. unfold ft_extract_anomalies, ft_reconstruction.
  rewrite spectrum_nonempty, bind_ret by assumption.
  destruct (thresh_val_between _ (log_magnitude_nonempty img H0 H1)
              (log_magnitude_values (shifted img))) as (mn & mx & Hthr & _).
  rewrite Hthr, bind_ret. unfold apply_mask.
  rewrite shape0_shifted, shape1_shifted by assumption.
  destruct (reconstruct_tabulate (shape0 img) (shape1 img)
              (fun i j =>
                 if get false
                      (invert (magnitude_mask (log_magnitude (shifted img))
                                 (between mn mx t))) i j
                 then get C0 (shifted img) i j else C0) H0 H1)
    as (y & -> & Hy).
  rewrite bind_ret. eexists. split; [reflexivity|]. split.
  - now apply rect_mmap.
  - unfold uint8_image, to_image, mmap. apply Forall_map, Forall_forall.
    intros row _. apply Forall_map, Forall_forall. intros m _.
    unfold astype_uint8. apply Z.mod_pos_bound. lia.
Qed.

Lemma rect_concat_nonempty {A : Type} (h w : nat) (x : matrix A) :
  rect h w x -> h <> 0%nat -> w <> 0%nat -> concat x <> [].
Proof.
  intros [Hh Hw] H0 H1. destruct x as [|row x]; [simpl in Hh; lia|].
  inversion Hw as [|? ? Hrow _]; subst. destruct row; [simpl in H1; lia|].
  discriminate.
Qed.

Lemma ft_extract_anomalies_empty (img : Image) (t : R) :
  shape0 img = 0%nat \/ shape1 img = 0%nat ->
  ft_extract_anomalies img t = raise ValueError.
Proof.
  intros H. unfold ft_extract_anomalies, ft_reconstruction.
  now rewrite spectrum_empty.
Qed.

(** X13: [ft_extract_anomalies] returns, for every image with at least
    one pixel and every threshold, an image of the same height and width
    whose pixels are 8-bit values; an image without pixels raises
    [ValueError], from the Fourier transform. *)
Theorem ft_extract_anomalies_same_size (img : Image) (t : R) :
  (shape0 img <> 0%nat /\ shape1 img <> 0%nat /\
   exists img_proc,
     ft_extract_anomalies img t = ret img_proc /\
     rect (shape0 img) (shape1 img) img_proc /\
     uint8_image img_proc) \/
  ((shape0 img = 0%nat \/ shape1 img = 0%nat) /\
   ft_extract_anomalies img t = raise ValueError).
Proof.
  destruct (Nat.eq_dec (shape0 img) 0) as [E0|E0];
    [right; split; [now left | apply ft_extract_anomalies_empty; now left]|].
  destruct (Nat.eq_dec (shape1 img) 0) as [E1|E1];
    [right; split; [now right | apply ft_extract_anomalies_empty; now right]|].
  left. repeat split; auto. now apply ft_extract_anomalies_image.
Qed.

(** X12: what [find_bounding_boxes] raises, and when, for a dilation size
    of at least 1.  [ValueError] exactly on an image without pixels (from
    [max()]) or a percentile outside [0, 100]; [NameError] exactly when
    neither is the case and the module-level [img_proc_np] is unbound; a
    list of boxes is returned exactly in the remaining case.  It raises
    neither [AssertionError] nor [RuntimeError]. *)
Theorem find_bounding_boxes_raises (g : Globals) (img : Image) (p a : Q)
    (d : nat) :
  (1 <= d)%nat ->
  (find_bounding_boxes g img p a d = raise ValueError <->
   concat img = [] \/ ~ ((0 <= p)%Q /\ (p <= 100)%Q)) /\
  (find_bounding_boxes g img p a d = raise NameError <->
   concat img <> [] /\ ((0 <= p)%Q /\ (p <= 100)%Q) /\
   img_proc_np g = None) /\
  ((exists boxes, find_bounding_boxes g img p a d = ret boxes) <->
   concat img <> [] /\ ((0 <= p)%Q /\ (p <= 100)%Q) /\
   img_proc_np g <> None) /\
  find_bounding_boxes g img p a d <> raise AssertionError /\
  find_bounding_boxes g img p a d <> raise RuntimeError.
Proof.
  intros Hd.
  pose proof (find_bounding_boxes_cases g img p a d) as H.
  unfold raise, ret.
  destruct (find_bounding_boxes g img p a d) as [[]|boxes];
    (split; [|split; [|split; [|split]]]);
    try (intros E; discriminate E);
    try contradiction;
    try (split; intros E;
         first [ discriminate E
               | reflexivity
               | tauto
               | now exists boxes
               | destruct E as [? E]; discriminate E
               | exfalso; tauto
               | exfalso; lia ]);
    try (exfalso; lia).
Qed.

(** [l_and_dot] with [img_proc_np] unbound: [NameError]. *)
Lemma find_bounding_boxes_raises_witness :
  (find_bounding_boxes (mk_Globals None) l_and_dot 50 (1 # 10) 1
   = raise ValueError <->
   concat l_and_dot = [] \/ ~ ((0 <= 50)%Q /\ (50 <= 100)%Q)) /\
  (find_bounding_boxes (mk_Globals None) l_and_dot 50 (1 # 10) 1
   = raise NameError <->
   concat l_and_dot <> [] /\ ((0 <= 50)%Q /\ (50 <= 100)%Q) /\
   img_proc_np (mk_Globals None) = None) /\
  ((exists boxes,
      find_bounding_boxes (mk_Globals None) l_and_dot 50 (1 # 10) 1
      = ret boxes) <->
   concat l_and_dot <> [] /\ ((0 <= 50)%Q /\ (50 <= 100)%Q) /\
   img_proc_np (mk_Globals None) <> None) /\
  find_bounding_boxes (mk_Globals None) l_and_dot 50 (1 # 10) 1
    <> raise AssertionError /\
  find_bounding_boxes (mk_Globals None) l_and_dot 50 (1 # 10) 1
    <> raise RuntimeError.
Proof.
  apply (find_bounding_boxes_raises (mk_Globals None) l_and_dot 50 (1 # 10) 1).
  lia.
Defined.

(** X14: what [ft_defect_detection] raises, and when, for a dilation size
    of at least 1: [ValueError] on an image without pixels or a percentile
    outside [0, 100], otherwise [NameError] when the module-level
    [img_proc_np] is unbound; in every other case it returns a list of
    boxes.  It raises neither [AssertionError] nor [RuntimeError], and the
    threshold [mag_thresh] never makes it raise. *)
Theorem ft_defect_detection_raises (g : Globals) (img : Image) (t : R)
    (p a : Q) (d : nat) :
  (1 <= d)%nat ->
  match ft_defect_detection g img t p a d with
  | inl ValueError =>
      ~ (shape0 img <> 0%nat /\ shape1 img <> 0%nat) \/
      ~ ((0 <= p)%Q /\ (p <= 100)%Q)
  | inl NameError =>
      (shape0 img <> 0%nat /\ shape1 img <> 0%nat) /\
      ((0 <= p)%Q /\ (p <= 100)%Q) /\ img_proc_np g = None
  | inl AssertionError => False
  | inl RuntimeError => False
  | inr _ =>
      (shape0 img <> 0%nat /\ shape1 img <> 0%nat) /\
      ((0 <= p)%Q /\ (p <= 100)%Q) /\ img_proc_np g <> None
  end.
Proof.
  intros Hd. unfold ft_defect_detection.
  destruct (Nat.eq_dec (shape0 img) 0) as [E0|E0];
    [rewrite ft_extract_anomalies_empty by (now left); simpl; left; tauto|].
  destruct (Nat.eq_dec (shape1 img) 0) as [E1|E1];
    [rewrite ft_extract_anomalies_empty by (now right); simpl; left; tauto|].
  destruct (ft_extract_anomalies_image img t E0 E1)
    as (img_proc & -> & Hrect & _).
  rewrite bind_ret.
  pose proof (rect_concat_nonempty _ _ _ Hrect E0 E1) as Hne.
  pose proof (find_bounding_boxes_cases g img_proc p a d) as Hc.
  destruct (find_bounding_boxes g img_proc p a d) as [[]|boxes];
    try tauto; lia.
Qed.

(** The all-zero image of one pixel with [img_proc_np] unbound, at the
    default parameters: [NameError]. *)
Lemma ft_defect_detection_raises_witness :
  match ft_defect_detection (mk_Globals None) [[0%Z]] (1 / 2) 99
          (1 # 1000) 7 with
  | inl ValueError =>
      ~ (shape0 [[0%Z]] <> 0%nat /\ shape1 [[0%Z]] <> 0%nat) \/
      ~ ((0 <= 99)%Q /\ (99 <= 100)%Q)
  | inl NameError =>
      (shape0 [[0%Z]] <> 0%nat /\ shape1 [[0%Z]] <> 0%nat) /\
      ((0 <= 99)%Q /\ (99 <= 100)%Q) /\ img_proc_np (mk_Globals None) = None
  | inl AssertionError => False
  | inl RuntimeError => False
  | inr _ =>
      (shape0 [[0%Z]] <> 0%nat /\ shape1 [[0%Z]] <> 0%nat) /\
      ((0 <= 99)%Q /\ (99 <= 100)%Q) /\
      img_proc_np (mk_Globals None) <> None
  end.
Proof.
  apply (ft_defect_detection_raises (mk_Globals None) [[0%Z]] (1 / 2) 99
           (1 # 1000) 7).
  lia.
Defined.

End OutcomeFacts.

(** * Properties of the patch grid *)

Section GridFacts.

Import Grid.

(** X15: the three grid sizes the patch-wise notebooks compute from the
    image height and the height of the feature map.  When the feature map
    is higher than the image the reduction factor is 0 and computing
    [h_layer] raises [ZeroDivisionError].  Otherwise the factor is
    positive, the grid of the ground truth ([s // red_factor]) is at least
    as high as the feature map and [h_layer] ([ceil(s / red_factor)]) at
    least as high as that grid; all three agree when the height of the
    feature map divides the height of the image. *)
Theorem grid_sizes (img_h feat_h : nat) :
  (0 < feat_h)%nat ->
  exists red,
    red_factor img_h feat_h = Some red /\
    ((img_h < feat_h)%nat -> red = 0%nat /\ layer img_h red = None) /\
    ((feat_h <= img_h)%nat ->
     (0 < red)%nat /\
     exists h_layer fs,
       layer img_h red = Some h_layer /\ feat_shape img_h red = Some fs /\
       (feat_h <= fs <= h_layer)%nat /\
       (Nat.divide feat_h img_h -> fs = feat_h /\ h_layer = feat_h)).
Proof.
  intros Hf. exists (img_h / feat_h)%nat. unfold red_factor, floordiv.
  destruct (feat_h =? 0)%nat eqn:E; [apply Nat.eqb_eq in E; lia|].
  split; [reflexivity|]. split.
  - intros Hlt. rewrite Nat.div_small by lia. split; reflexivity.
  - intros Hle.
    assert (Hred : (0 < img_h / feat_h)%nat) by (apply Nat.div_str_pos; lia).
    split; [exact Hred|]. set (red := (img_h / feat_h)%nat) in *.
    unfold layer, feat_shape, ceildiv, floordiv.
    destruct (red =? 0)%nat eqn:Er; [apply Nat.eqb_eq in Er; lia|].
    eexists _, _. split; [reflexivity|]. split; [reflexivity|].
    assert (Hmul : (red * feat_h <= img_h)%nat)
      by (unfold red; rewrite Nat.mul_comm; apply Nat.Div0.mul_div_le).
    assert (Hfs : (feat_h <= img_h / red)%nat)
      by (apply Nat.div_le_lower_bound; lia).
    split; [split; [exact Hfs | apply Nat.Div0.div_le_mono; lia]|].
    intros [k Hk].
    assert (Ek : red = k).
    { unfold red. rewrite Hk. apply Nat.div_mul. lia. }
    assert (Ediv : (img_h / red = feat_h)%nat).
    { rewrite Hk, Ek, Nat.mul_comm. apply Nat.div_mul. lia. }
    split; [exact Ediv|].
    symmetry. apply (Nat.div_unique _ _ _ (red - 1)); [lia|]. rewrite Hk, Ek in *. nia.
Qed.

Lemma grid_sizes_witness :
  exists red,
    red_factor 224 28 = Some red /\
    ((224 < 28)%nat -> red = 0%nat /\ layer 224 red = None) /\
    ((28 <= 224)%nat ->
     (0 < red)%nat /\
     exists h_layer fs,
       layer 224 red = Some h_layer /\ feat_shape 224 red = Some fs /\
       (28 <= fs <= h_layer)%nat /\
       (Nat.divide 28 224 -> fs = 28%nat /\ h_layer = 28%nat)).
Proof.
  apply (grid_sizes 224 28). lia.
Defined.

End GridFacts.

(** * Properties of the anomaly maps *)

Section DetectorFacts.

Import Float Array2 Detector.
Local Open Scope R_scope.

Lemma fold_fmin_finite (L : R) (r : list float64) : forall m : R,
  Forall (finite L) r ->
  exists mn,
    fold_left fmin r (Fin m) = Fin mn /\ mn <= m /\
    (forall x, In (Fin x) r -> mn <= x) /\
    (mn = m \/ In (Fin mn) r).
Proof.
  induction r as [|v r IH]; intros m Hall; cbn [fold_left].
  - exists m. repeat split; auto; try lra. intros x [].
  - inversion Hall as [|? ? Hv Hr]; subst. destruct Hv as (x & -> & Hx).
    assert (E : fmin (Fin m) (Fin x) = Fin (Rmin m x)).
    { simpl. unfold Rltb, Rmin.
      destruct (Rlt_dec x m), (Rle_dec m x); try reflexivity; lra. }
    rewrite E. destruct (IH (Rmin m x) Hr) as (mn & -> & Hle & Hlow & Hin).
    exists mn. split; [reflexivity|].
    pose proof (Rmin_l m x). pose proof (Rmin_r m x).
    split; [lra|]. split.
    + intros y [[= <-] | Hy]; [lra | now apply Hlow].
    + destruct Hin as [-> | Hin]; [|right; now right].
      unfold Rmin. destruct (Rle_dec m x); [now left | right; now left].
Qed.

Lemma array_min_finite (L : R) (l : list float64) :
  l <> [] -> Forall (finite L) l ->
  exists mn,
    array_min l = ret (Fin mn) /\ In (Fin mn) l /\
    forall x, In (Fin x) l -> mn <= x.
Proof.
  intros Hne Hall. destruct l as [|v r]; [congruence|].
  inversion Hall as [|? ? Hv Hr]; subst. destruct Hv as (m & -> & Hm).
  destruct (fold_fmin_finite L r m Hr) as (mn & E & Hle & Hlow & Hin).
  exists mn. simpl. rewrite E. split; [reflexivity|]. split.
  - destruct Hin as [-> | Hin]; [now left | now right].
  - intros x [[= <-] | Hx]; [exact Hle | now apply Hlow].
Qed.

Lemma fold_fmin_nan (r : list float64) : fold_left fmin r NaN = NaN.
Proof. induction r as [|v r IH]; simpl; [reflexivity | exact IH]. Qed.

Lemma fold_fmin_has_nan (r : list float64) : forall a,
  In NaN r -> fold_left fmin r a = NaN.
Proof.
  induction r as [|v r IH]; intros a Hin; [destruct Hin|]. simpl.
  destruct Hin as [-> | Hin]; [|now apply IH].
  replace (fmin a NaN) with NaN by (now destruct a). apply fold_fmin_nan.
Qed.

Lemma array_min_nan (l : list float64) :
  In NaN l -> array_min l = ret NaN.
Proof.
  destruct l as [|a r]; [intros []|]. intros [-> | Hin]; simpl.
  - now rewrite fold_fmin_nan.
  - now rewrite fold_fmin_has_nan.
Qed.

(** A difference of two numbers of the type that is not negative comes
    out as that difference or as [+inf]. *)
Lemma overflow_difference (L x mn : R) :
  - L <= mn -> mn <= x -> x <= L ->
  (x - mn <= L /\ overflow L (fsub (Fin x) (Fin mn)) = Fin (x - mn)) \/
  (L < x - mn /\ overflow L (fsub (Fin x) (Fin mn)) = PInf).
Proof.
  intros H1 H2 H3. unfold overflow, fsub, fneg, fadd.
  replace (x + - mn) with (x - mn) by lra.
  destruct (Rlt_dec L (x - mn)); [right; now split|].
  destruct (Rlt_dec (x - mn) (- L)); [lra|]. left. split; [lra | reflexivity].
Qed.

Lemma start_at_zero_cases (L : R) (anomaly_map : matrix float64) :
  (concat anomaly_map = [] ->
   start_at_zero L anomaly_map = raise ValueError) /\
  (concat anomaly_map <> [] -> Forall (finite L) (concat anomaly_map) ->
   exists out,
     start_at_zero L anomaly_map = ret out /\
     In (Fin 0) (concat out) /\
     Forall (fun v => v = PInf \/ exists x, v = Fin x /\ 0 <= x <= L)
            (concat out) /\
     ((forall x y, In (Fin x) (concat anomaly_map) ->
                   In (Fin y) (concat anomaly_map) -> x - y <= L) ->
      Forall (finite L) (concat out))) /\
  (In NaN (concat anomaly_map) ->
   exists out,
     start_at_zero L anomaly_map = ret out /\
     Forall (fun v => v = NaN) (concat out)).
Proof.
  unfold start_at_zero. split; [|split].
  - intros ->. reflexivity.
  - intros Hne Hall.
    destruct (array_min_finite L _ Hne Hall) as (mn & -> & Hin & Hlow).
    rewrite bind_ret. eexists. split; [reflexivity|].
    rewrite concat_mmap. rewrite Forall_forall in Hall.
    destruct (Hall _ Hin) as (mn' & [= <-] & Hmn).
    split; [|split].
    + apply in_map_iff. exists (Fin mn). split; [|exact Hin].
      destruct (overflow_difference L mn mn) as [[_ ->] | [H _]]; try lra.
      f_equal. lra.
    + apply Forall_map, Forall_forall. intros v Hv.
      destruct (Hall v Hv) as (x & -> & Hx). specialize (Hlow x Hv).
      destruct (overflow_difference L x mn) as [[H ->] | [_ ->]]; try lra;
        [right | now left].
      exists (x - mn). split; [reflexivity | lra].
    + intros Hdiff. apply Forall_map, Forall_forall. intros v Hv.
      destruct (Hall v Hv) as (x & -> & Hx). specialize (Hlow x Hv).
      specialize (Hdiff x mn Hv Hin).
      destruct (overflow_difference L x mn) as [[H ->] | [H _]]; try lra.
      exists (x - mn). split; [reflexivity | lra].
  - intros Hin. rewrite (array_min_nan _ Hin), bind_ret.
    eexists. split; [reflexivity|]. rewrite concat_mmap.
    apply Forall_map, Forall_forall. intros v _. now destruct v.
Qed.

(** Two numbers of a type whose difference is beyond its range. *)
Lemma start_at_zero_overflows (L : R) :
  0 < L ->
  start_at_zero L [[Fin L; Fin (- L)]] = ret [[PInf; Fin 0]].
Proof.
  intros HL. unfold start_at_zero, array_min. cbn [concat app fold_left].
  assert (E : fmin (Fin L) (Fin (- L)) = Fin (- L)).
  { simpl. unfold Rltb. destruct (Rlt_dec (- L) L); [reflexivity | lra]. }
  rewrite E, bind_ret. unfold mmap. cbn [map]. unfold ret. do 3 f_equal.
  - destruct (overflow_difference L L (- L)) as [[H _] | [_ ->]];
      try lra. reflexivity.
  - f_equal.
    destruct (overflow_difference L (- L) (- L)) as [[_ ->] | [H _]];
      try lra. f_equal. lra.
Qed.

Lemma length_rows {A : Type} (h w : nat) : forall l : list A,
  length l = (h * w)%nat -> concat (rows h w l) = l.
Proof.
  induction h as [|h IH]; intros l Hl; simpl in *.
  - symmetry. now apply length_zero_iff_nil.
  - rewrite IH; [apply firstn_skipn|]. rewrite length_skipn. lia.
Qed.

(** X16: what [AnomalyDetector.__call__] returns.  The patch scores must
    fill the [h_layer x w_layer] grid exactly, else the reshape raises
    [ValueError]; a smoothed map with no entry raises [ValueError] at
    [min()].  When the smoothed map holds numbers only, the map returned
    starts at zero: some entry is exactly 0 and every entry is a
    non-negative number or [+inf]; all entries are numbers when no two
    entries of the smoothed map differ by more than the largest number of
    the type.  A single [NaN] in the smoothed map turns every entry of the
    result into [NaN]. *)
Theorem call_starts_at_zero (PILImage : Type) (width height : PILImage -> nat)
    (patch_scores : PILImage -> list float64)
    (cv2_resize : matrix float64 -> nat -> nat -> matrix float64)
    (gaussian_filter : matrix float64 -> matrix float64)
    (largest : R) (self : AnomalyDetector) (img : PILImage) :
  (length (patch_scores img) <> (h_layer self * w_layer self)%nat ->
   call PILImage width height patch_scores cv2_resize gaussian_filter largest
     self img = raise ValueError) /\
  (length (patch_scores img) = (h_layer self * w_layer self)%nat ->
   concat (score_patches PILImage patch_scores self img) = patch_scores img /\
   (concat (smoothed PILImage width height patch_scores cv2_resize
              gaussian_filter self img) = [] ->
    call PILImage width height patch_scores cv2_resize gaussian_filter
      largest self img = raise ValueError) /\
   (concat (smoothed PILImage width height patch_scores cv2_resize
              gaussian_filter self img) <> [] ->
    Forall (finite largest)
      (concat (smoothed PILImage width height patch_scores cv2_resize
                 gaussian_filter self img)) ->
    exists out,
      call PILImage width height patch_scores cv2_resize gaussian_filter
        largest self img = ret out /\
      In (Fin 0) (concat out) /\
      Forall (fun v => v = PInf \/ exists x, v = Fin x /\ 0 <= x <= largest)
             (concat out) /\
      ((forall x y,
          In (Fin x)
             (concat (smoothed PILImage width height patch_scores cv2_resize
                        gaussian_filter self img)) ->
          In (Fin y)
             (concat (smoothed PILImage width height patch_scores cv2_resize
                        gaussian_filter self img)) ->
          x - y <= largest) ->
       Forall (finite largest) (concat out))) /\
   (In NaN
      (concat (smoothed PILImage width height patch_scores cv2_resize
                 gaussian_filter self img)) ->
    exists out,
      call PILImage width height patch_scores cv2_resize gaussian_filter
        largest self img = ret out /\
      Forall (fun v => v = NaN) (concat out))).
Proof.
  unfold call, reshape, smoothed, score_patches. split.
  - intros Hne. apply Nat.eqb_neq in Hne. now rewrite Hne.
  - intros Hlen. rewrite Hlen, Nat.eqb_refl, bind_ret.
    split; [now apply length_rows|]. apply start_at_zero_cases.
Qed.

(** *** Image-level ground truth *)

Lemma py_int_gt (p : Z) :
  (0 <= p < 256)%Z ->
  Boxes.py_int (inject_Z p / 255)%Q = if (p =? 255)%Z then 1%Z else 0%Z.
Proof.
  intros Hp. unfold Boxes.py_int. simpl. rewrite Z.mul_1_r.
  rewrite Z.quot_div_nonneg by lia.
  destruct (p =? 255)%Z eqn:E.
  - apply Z.eqb_eq in E. now subst.
  - apply Z.eqb_neq in E. apply Z.div_small. lia.
Qed.

Lemma fold_max_flags (f : Z -> bool) (l : list Z) : forall b : bool,
  fold_left Z.max (map (fun p => if f p then 1%Z else 0%Z) l)
    (if b then 1%Z else 0%Z)
  = if b || existsb f l then 1%Z else 0%Z.
Proof.
  induction l as [|p l IH]; intros b; simpl.
  - now rewrite orb_false_r.
  - replace (Z.max (if b then 1%Z else 0%Z) (if f p then 1%Z else 0%Z))
      with (if b || f p then 1%Z else 0%Z)
      by (destruct b, (f p); reflexivity).
    rewrite IH. now rewrite orb_assoc.
Qed.

(** X17: the image-level ground truth [gts_img[i] = gt.max()] of the
    evaluation loop.  For a mask of 8-bit pixels it is 1 exactly when the
    mask has a pixel of value 255 and 0 otherwise: a pixel below 255
    becomes a fraction below 1 and [astype(np.int32)] truncates it to 0.
    A mask without pixels raises [ValueError]; a missing mask file gives
    0. *)
Theorem gts_img_entry_white_pixel (height width : nat) (mask : Image) :
  uint8_image mask ->
  (concat mask <> [] ->
   gts_img_entry (getitem_gt height width (Some mask))
   = ret (if existsb (fun p => (p =? 255)%Z) (concat mask)
          then 1%Z else 0%Z)) /\
  (concat mask = [] ->
   gts_img_entry (getitem_gt height width (Some mask)) = raise ValueError) /\
  ((height * width <> 0)%nat ->
   gts_img_entry (getitem_gt height width None) = ret 0%Z).
Proof.
  intros Hu. unfold gts_img_entry, astype_int32, getitem_gt.
  split; [|split].
  - intros Hne. rewrite mmap_mmap, concat_mmap.
    assert (Hall : Forall (fun p => (0 <= p < 256)%Z) (concat mask)).
    { unfold uint8_image in Hu. clear Hne.
      induction Hu as [|row rest Hrow _ IH]; simpl; [constructor|].
      apply Forall_app. now split. }
    rewrite (map_ext_in _ (fun p => if (p =? 255)%Z then 1%Z else 0%Z))
      by (intros p Hp; rewrite Forall_forall in Hall;
          apply py_int_gt; now apply Hall).
    destruct (concat mask) as [|p l]; [congruence|]. simpl.
    now rewrite (fold_max_flags (fun p => (p =? 255)%Z) l (p =? 255)%Z).
  - intros He. rewrite mmap_mmap, concat_mmap, He. reflexivity.
  - intros Hne. rewrite mmap_tabulate.
    change (Boxes.py_int 0) with 0%Z.
    pose proof (concat_constant height width 0%Z) as Hall.
    assert (Hc : concat (tabulate height width (fun _ _ => 0%Z)) <> [])
      by (apply concat_tabulate_nonempty; lia).
    destruct (concat _) as [|a r]; [congruence|].
    inversion Hall as [|? ? -> Hr]; subst. simpl.
    now rewrite fold_left_idem.
Qed.

Lemma gts_img_entry_white_pixel_witness :
  (concat [[0; 254]; [255; 0]]%Z <> [] ->
   gts_img_entry (getitem_gt 2 2 (Some [[0; 254]; [255; 0]]%Z))
   = ret (if existsb (fun p => (p =? 255)%Z) (concat [[0; 254]; [255; 0]]%Z)
          then 1%Z else 0%Z)) /\
  (concat [[0; 254]; [255; 0]]%Z = [] ->
   gts_img_entry (getitem_gt 2 2 (Some [[0; 254]; [255; 0]]%Z))
   = raise ValueError) /\
  ((2 * 2 <> 0)%nat -> gts_img_entry (getitem_gt 2 2 None) = ret 0%Z).
Proof.
  apply (gts_img_entry_white_pixel 2 2 [[0; 254]; [255; 0]]%Z).
  repeat constructor; lia.
Defined.

End DetectorFacts.

(** * Properties of the Gaussian detector object *)

Section GaussianObjectFacts.

Import Float Gaussian GaussianObject Projection.
Import PCA.
Local Open Scope R_scope.

Lemma broadcast_rows_sym (b k : nat) : broadcast_rows b k = broadcast_rows k b.
Proof.
  unfold broadcast_rows. rewrite (Nat.eqb_sym k b).
  destruct (b =? k)%nat eqn:E1; [apply Nat.eqb_eq in E1; now subst|].
  apply Nat.eqb_neq in E1.
  destruct (b =? 1)%nat eqn:E3; destruct (k =? 1)%nat eqn:E4;
    try reflexivity.
  apply Nat.eqb_eq in E3, E4. congruence.
Qed.

(** Shapes of two batches of [d]-dimensional vectors and a precision
    matrix. *)
Lemma mahalanobis_distance_batches (X M P : ndarray) (b k d : nat) :
  shape X = [b; d] -> shape M = [k; d] -> shape P = [d; d] ->
  mahalanobis_distance X M P =
  (rows <- broadcast_rows b k ;;
   ret (map (fun i =>
          np_sqrt (sum_upto d (fun m => sum_upto d (fun n =>
            (at2 X (if (b =? 1)%nat then 0%nat else i) m
             - at2 M (if (k =? 1)%nat then 0%nat else i) m)
            * at2 P m n
            * (at2 X (if (b =? 1)%nat then 0%nat else i) n
               - at2 M (if (k =? 1)%nat then 0%nat else i) n)))))
        (seq 0 rows))).
Proof.
  intros HX HM HP. unfold mahalanobis_distance, ndim, dim, last_dim.
  rewrite HX, HM, HP. simpl. rewrite Nat.eqb_refl. simpl.
  unfold subtract, dim. rewrite HX, HM. simpl.
  destruct (broadcast_rows b k) as [e|rows]; [reflexivity|].
  simpl. unfold ret. f_equal. unfold einsum_im_mn_in. rewrite map_map.
  change (dim (build2 rows d _) 0) with rows.
  apply map_ext_in. intros i Hi. apply in_seq in Hi. f_equal.
  rewrite quad_form_build2 by lia. reflexivity.
Qed.

(** X18: [mahalanobis_distance] between two batches of [d]-dimensional
    vectors.  With a two-dimensional [mean] the call is symmetric in its
    first two arguments: swapping the batches gives the same outcome.
    Batches of as many rows, or one of them with a single row, give one
    distance per broadcast row; any other pair of row counts raises
    [ValueError] at the subtraction. *)
Theorem mahalanobis_distance_symmetric (X M P : ndarray) (b k d : nat) :
  shape X = [b; d] -> shape M = [k; d] -> shape P = [d; d] ->
  mahalanobis_distance X M P = mahalanobis_distance M X P /\
  (b = k \/ b = 1%nat \/ k = 1%nat ->
   exists scores,
     mahalanobis_distance X M P = ret scores /\
     length scores = (if (b =? 1)%nat then k else b)) /\
  (b <> k -> b <> 1%nat -> k <> 1%nat ->
   mahalanobis_distance X M P = raise ValueError).
Proof.
  intros HX HM HP.
  rewrite (mahalanobis_distance_batches X M P b k d) by assumption.
  rewrite (mahalanobis_distance_batches M X P k b d) by assumption.
  split; [|split].
  - rewrite (broadcast_rows_sym k b).
    destruct (broadcast_rows b k) as [e|rows]; [reflexivity|].
    simpl. unfold ret. f_equal. apply map_ext. intros i. f_equal.
    apply sum_upto_ext. intros m _. apply sum_upto_ext. intros n _. ring.
  - intros Hc. unfold broadcast_rows.
    destruct (b =? k)%nat eqn:E1.
    + apply Nat.eqb_eq in E1. subst. rewrite bind_ret. eexists.
      split; [reflexivity|]. rewrite length_map, length_seq.
      destruct (k =? 1)%nat eqn:E; [now apply Nat.eqb_eq in E | reflexivity].
    + apply Nat.eqb_neq in E1. destruct (b =? 1)%nat eqn:E2.
      * rewrite bind_ret. eexists.
        split; [reflexivity|]. now rewrite length_map, length_seq.
      * apply Nat.eqb_neq in E2. destruct (k =? 1)%nat eqn:E3.
        -- rewrite bind_ret. eexists.
           split; [reflexivity|]. now rewrite length_map, length_seq.
        -- apply Nat.eqb_neq in E3. lia.
  - intros H1 H2 H3. unfold broadcast_rows.
    apply Nat.eqb_neq in H1, H2, H3. now rewrite H1, H2, H3.
Qed.

Lemma mahalanobis_distance_symmetric_witness :
  mahalanobis_distance two_samples one_sample three_components
  = mahalanobis_distance one_sample two_samples three_components /\
  (2%nat = 1%nat \/ 2%nat = 1%nat \/ 1%nat = 1%nat ->
   exists scores,
     mahalanobis_distance two_samples one_sample three_components
       = ret scores /\
     length scores = (if (2 =? 1)%nat then 1%nat else 2%nat)) /\
  (2%nat <> 1%nat -> 2%nat <> 1%nat -> 1%nat <> 1%nat ->
   mahalanobis_distance two_samples one_sample three_components
   = raise ValueError).
Proof.
  apply (mahalanobis_distance_symmetric two_samples one_sample
           three_components 2 1 3); reflexivity.
Defined.

Lemma mahalanobis_distance_asserts (X mu P : ndarray) (d : nat) :
  shape mu = [d] -> shape P = [d; d] ->
  ndim X <> 2%nat \/ dim X 1 <> d ->
  mahalanobis_distance X mu P = raise AssertionError.
Proof.
  intros Hmu HP H. unfold mahalanobis_distance.
  rewrite (last_dim_vector _ _ Hmu).
  destruct (ndim X =? 2)%nat eqn:EX; [|reflexivity].
  unfold ndim at 1 2. rewrite Hmu. simpl.
  unfold ndim. rewrite HP. simpl.
  destruct (dim X 1 =? d)%nat eqn:Ed; [|reflexivity].
  apply Nat.eqb_eq in EX, Ed. tauto.
Qed.

(** X19: the life cycle of a [GaussianAD] object.  Before [fit],
    [decision_function] returns no score, whatever it is given: it raises
    ([AssertionError] on an array that is not two-dimensional,
    [AttributeError] otherwise, the mean being [None]).  After [fit] on
    [n >= 1] samples of [d >= 1] features it returns one score per row for
    every two-dimensional array of [d] columns, and raises
    [AssertionError] for every other array. *)
Theorem gaussian_ad_fit_then_score (ledoit_wolf : ndarray -> LedoitWolf)
    (X : ndarray) (n d : nat) :
  shape X = [n; d] -> (1 <= n)%nat -> (1 <= d)%nat ->
  shape (precision_ (ledoit_wolf X)) = [d; d] ->
  (forall Y, GaussianObject.decision_function init Y
             = inl (if (ndim Y =? 2)%nat then AttributeError
                    else Raised AssertionError)) /\
  exists self,
    fit ledoit_wolf init X = inr self /\
    (forall Y, ndim Y = 2%nat -> dim Y 1 = d ->
       exists scores,
         GaussianObject.decision_function self Y = inr scores /\
         length scores = dim Y 0) /\
    (forall Y, ndim Y <> 2%nat \/ dim Y 1 <> d ->
       GaussianObject.decision_function self Y = inl (Raised AssertionError)).
Proof.
  intros HX Hn Hd HP. split.
  - intros Y. unfold GaussianObject.decision_function, init. simpl.
    destruct (ndim Y =? 2)%nat; reflexivity.
  - assert (Hmu : shape (np_mean_axis0 X) = [d])
      by (unfold np_mean_axis0, dim; now rewrite HX).
    assert (Hnd : ndim (np_mean_axis0 X) = 1%nat)
      by (unfold ndim; now rewrite Hmu).
    exists (mk_GaussianAD (Some (np_mean_axis0 X)) (Some (ledoit_wolf X))
              (Some (precision_ (ledoit_wolf X)))).
    split; [|split].
    + unfold fit, check_array, ndim, dim. rewrite HX. simpl.
      destruct n as [|n]; [lia|]. destruct d as [|d]; [lia|]. reflexivity.
    + intros Y HY HYd. unfold GaussianObject.decision_function.
      cbn [GaussianObject.mean GaussianObject.lw_prec].
      rewrite HY, Hnd. simpl.
      rewrite (mahalanobis_distance_scores Y _ _ d); auto.
      simpl. eexists. split; [reflexivity|].
      now rewrite length_map, length_seq.
    + intros Y HY. unfold GaussianObject.decision_function.
      cbn [GaussianObject.mean GaussianObject.lw_prec].
      destruct (ndim Y =? 2)%nat eqn:E; [|reflexivity]. rewrite Hnd. simpl.
      rewrite (mahalanobis_distance_asserts Y _ _ d); auto.
Qed.

Lemma gaussian_ad_fit_then_score_witness :
  (forall Y, GaussianObject.decision_function init Y
             = inl (if (ndim Y =? 2)%nat then AttributeError
                    else Raised AssertionError)) /\
  exists self,
    fit identity_estimator init two_samples = inr self /\
    (forall Y, ndim Y = 2%nat -> dim Y 1 = 3%nat ->
       exists scores,
         GaussianObject.decision_function self Y = inr scores /\
         length scores = dim Y 0) /\
    (forall Y, ndim Y <> 2%nat \/ dim Y 1 <> 3%nat ->
       GaussianObject.decision_function self Y = inl (Raised AssertionError)).
Proof.
  apply (gaussian_ad_fit_then_score identity_estimator two_samples 2 3).
  - reflexivity.
  - lia.
  - lia.
  - reflexivity.
Defined.

Lemma fit_scores (ledoit_wolf : ndarray -> LedoitWolf) (X : ndarray)
    (n d : nat) :
  shape X = [n; d] -> (1 <= n)%nat -> (1 <= d)%nat ->
  shape (precision_ (ledoit_wolf X)) = [d; d] ->
  exists self,
    fit ledoit_wolf init X = inr self /\
    forall Y, ndim Y = 2%nat -> dim Y 1 = d ->
      exists scores,
        GaussianObject.decision_function self Y = inr scores /\
        length scores = dim Y 0.
Proof.
  intros HX Hn Hd HP.
  assert (Hmu : shape (np_mean_axis0 X) = [d])
    by (unfold np_mean_axis0, dim; now rewrite HX).
  assert (Hnd : ndim (np_mean_axis0 X) = 1%nat)
    by (unfold ndim; now rewrite Hmu).
  exists (mk_GaussianAD (Some (np_mean_axis0 X)) (Some (ledoit_wolf X))
            (Some (precision_ (ledoit_wolf X)))).
  split.
  - unfold fit, check_array, ndim, dim. rewrite HX. simpl.
    destruct n as [|n]; [lia|]. destruct d as [|d]; [lia|]. reflexivity.
  - intros Y HY HYd. unfold GaussianObject.decision_function.
    cbn [GaussianObject.mean GaussianObject.lw_prec].
    rewrite HY, Hnd. simpl.
    rewrite (mahalanobis_distance_scores Y _ _ d); auto.
    simpl. eexists. split; [reflexivity|].
    now rewrite length_map, length_seq.
Qed.

Lemma fit_no_feature (ledoit_wolf : ndarray -> LedoitWolf)
    (self : GaussianAD) (X : ndarray) (n : nat) :
  shape X = [n; 0%nat] -> fit ledoit_wolf self X = inl (Raised ValueError).
Proof.
  intros HX. unfold fit, check_array, ndim, dim. rewrite HX. simpl.
  now rewrite andb_false_r.
Qed.

Lemma matmul_transpose (X comps : ndarray) (n k D : nat) :
  shape X = [n; D] -> shape comps = [k; D] ->
  exists Xp, matmul X (transpose comps) = ret Xp /\ shape Xp = [n; k].
Proof.
  intros HX HC. unfold matmul, transpose.
  change (dim (build2 ?r ?c ?f) 0) with r.
  change (dim (build2 ?r ?c ?f) 1) with c.
  unfold dim. rewrite HX, HC. simpl. rewrite Nat.eqb_refl.
  eexists. split; reflexivity.
Qed.

Lemma cut_bound (ratios : list Q) (t : Q) (i : nat) :
  i_comp_threshold ratios t = ret i -> (i < length ratios)%nat.
Proof.
  intros H. destruct (cut_cases _ _ _ H) as [[[v [Hv _]] _] | [-> _]].
  - rewrite <- length_cumsum. apply nth_error_Some. congruence.
  - destruct ratios; [discriminate | simpl; lia].
Qed.

(** X20: fitting and scoring on the reduced features, for a cut [i]
    returned by the threshold loop.  The negative selection
    [components_[i :]] is never empty: projection, [fit] and
    [decision_function] go through and every test row gets a score.  The
    standard selection [components_[: i]] is empty when the cut is 0: the
    projected training data then has no column and [fit] raises
    [ValueError]; with a cut of at least 1 it goes through as well. *)
Theorem reduced_detectors (ledoit_wolf : ndarray -> LedoitWolf)
    (ratios : list Q) (t : Q) (i : nat)
    (components train test : ndarray) (n m D : nat) :
  i_comp_threshold ratios t = ret i ->
  shape components = [length ratios; D] ->
  shape train = [n; D] -> shape test = [m; D] -> (1 <= n)%nat ->
  (forall X d, shape X = [n; d] ->
               shape (precision_ (ledoit_wolf X)) = [d; d]) ->
  (exists Xn Tn self scores,
     npca_features train components i = ret Xn /\
     npca_features test components i = ret Tn /\
     shape Xn = [n; (length ratios - i)%nat] /\
     (1 <= length ratios - i)%nat /\
     fit ledoit_wolf init Xn = inr self /\
     GaussianObject.decision_function self Tn = inr scores /\
     length scores = m) /\
  (i = 0%nat ->
   exists Xp,
     pca_features train components i = ret Xp /\
     shape Xp = [n; 0%nat] /\
     fit ledoit_wolf init Xp = inl (Raised ValueError)) /\
  ((1 <= i)%nat ->
   exists Xp Tp self scores,
     pca_features train components i = ret Xp /\
     pca_features test components i = ret Tp /\
     shape Xp = [n; i] /\
     fit ledoit_wolf init Xp = inr self /\
     GaussianObject.decision_function self Tp = inr scores /\
     length scores = m).
Proof.
  intros Hcut HC Htrain Htest Hn Hlw.
  pose proof (cut_bound _ _ _ Hcut) as Hi.
  assert (Hto : shape (rows_to components i) = [i; D]).
  { unfold rows_to, dim. rewrite HC. simpl. f_equal. lia. }
  assert (Hfrom : shape (rows_from components i)
                  = [(length ratios - i)%nat; D]).
  { unfold rows_from, dim. rewrite HC. simpl. f_equal. lia. }
  split; [|split].
  - destruct (matmul_transpose train _ n _ D Htrain Hfrom) as (Xn & HXn & SXn).
    destruct (matmul_transpose test _ m _ D Htest Hfrom) as (Tn & HTn & STn).
    destruct (fit_scores ledoit_wolf Xn n (length ratios - i) SXn Hn
                ltac:(lia) (Hlw Xn _ SXn)) as (self & Hfit & Hscore).
    destruct (Hscore Tn) as (scores & Hs & Hlen).
    { unfold ndim. now rewrite STn. }
    { unfold dim. now rewrite STn. }
    exists Xn, Tn, self, scores. unfold npca_features.
    repeat split; auto; try lia.
    rewrite Hlen. unfold dim. now rewrite STn.
  - intros ->.
    destruct (matmul_transpose train _ n _ D Htrain Hto) as (Xp & HXp & SXp).
    exists Xp. unfold pca_features. repeat split; auto.
    now apply (fit_no_feature ledoit_wolf init Xp n).
  - intros Hpos.
    destruct (matmul_transpose train _ n _ D Htrain Hto) as (Xp & HXp & SXp).
    destruct (matmul_transpose test _ m _ D Htest Hto) as (Tp & HTp & STp).
    destruct (fit_scores ledoit_wolf Xp n i SXp Hn Hpos (Hlw Xp _ SXp))
      as (self & Hfit & Hscore).
    destruct (Hscore Tp) as (scores & Hs & Hlen).
    { unfold ndim. now rewrite STp. }
    { unfold dim. now rewrite STp. }
    exists Xp, Tp, self, scores. unfold pca_features.
    repeat split; auto.
    rewrite Hlen. unfold dim. now rewrite STp.
Qed.

Lemma reduced_detectors_witness :
  (exists Xn Tn self scores,
     npca_features one_sample three_components 1 = ret Xn /\
     npca_features two_samples three_components 1 = ret Tn /\
     shape Xn = [1%nat; (length [1 # 2; 1 # 3; 1 # 6]%Q - 1)%nat] /\
     (1 <= length [1 # 2; 1 # 3; 1 # 6]%Q - 1)%nat /\
     fit identity_estimator init Xn = inr self /\
     GaussianObject.decision_function self Tn = inr scores /\
     length scores = 2%nat) /\
  (1%nat = 0%nat ->
   exists Xp,
     pca_features one_sample three_components 1 = ret Xp /\
     shape Xp = [1%nat; 0%nat] /\
     fit identity_estimator init Xp = inl (Raised ValueError)) /\
  ((1 <= 1)%nat ->
   exists Xp Tp self scores,
     pca_features one_sample three_components 1 = ret Xp /\
     pca_features two_samples three_components 1 = ret Tp /\
     shape Xp = [1%nat; 1%nat] /\
     fit identity_estimator init Xp = inr self /\
     GaussianObject.decision_function self Tp = inr scores /\
     length scores = 2%nat).
Proof.
  apply (reduced_detectors identity_estimator [1 # 2; 1 # 3; 1 # 6]%Q
           (4 # 5)%Q 1 three_components one_sample two_samples 1 2 3).
  - reflexivity.
  - reflexivity.
  - reflexivity.
  - reflexivity.
  - lia.
  - intros X d HX. unfold identity_estimator, dim. rewrite HX. reflexivity.
Defined.

End GaussianObjectFacts.

(** * Properties of the test dataset *)

Section DatasetFacts.

Import Dataset.
Import String.StringSyntax.

(** *** Dictionaries *)

Section DictFacts.

Context {K V : Type}.
Variable eqb : K -> K -> bool.
Hypothesis eqb_spec : forall a b, eqb a b = true <-> a = b.

Lemma eqb_refl' (a : K) : eqb a a = true.
Proof. now apply eqb_spec. Qed.

Lemma eqb_neq' (a b : K) : a <> b -> eqb a b = false.
Proof.
  intros H. destruct (eqb a b) eqn:E; [|reflexivity].
  apply eqb_spec in E. contradiction.
Qed.

Lemma lookup_In (d : list (K * V)) (k : K) (v : V) :
  lookup eqb d k = Some v -> In (k, v) d.
Proof.
  induction d as [|[k' v'] r IH]; simpl; [discriminate|].
  destruct (eqb k' k) eqn:E.
  - apply eqb_spec in E. subst. intros [= ->]. now left.
  - intros H. right. now apply IH.
Qed.

Lemma In_lookup (d : list (K * V)) (k : K) (v : V) :
  NoDup (map fst d) -> In (k, v) d -> lookup eqb d k = Some v.
Proof.
  induction d as [|[k' v'] r IH]; simpl; intros Hnd Hin; [destruct Hin|].
  inversion Hnd as [|? ? Hk Hr]; subst.
  destruct Hin as [[= -> ->] | Hin].
  - now rewrite eqb_refl'.
  - rewrite eqb_neq'; [now apply IH|].
    intros ->. apply Hk. apply in_map_iff. now exists (k, v).
Qed.

Lemma setitem_fresh (d : list (K * V)) (k : K) (v : V) :
  ~ In k (map fst d) -> setitem eqb d k v = d ++ [(k, v)].
Proof.
  induction d as [|[k' v'] r IH]; simpl; intros H; [reflexivity|].
  rewrite eqb_neq' by tauto. f_equal. apply IH. tauto.
Qed.

Lemma setitem_keys_NoDup (d : list (K * V)) (k : K) (v : V) :
  NoDup (map fst d) -> NoDup (map fst (setitem eqb d k v)).
Proof.
  induction d as [|[k' v'] r IH]; simpl; intros Hnd.
  - constructor; [intros [] | constructor].
  - inversion Hnd as [|? ? Hk Hr]; subst. destruct (eqb k' k) eqn:E; simpl.
    + now constructor.
    + constructor; [|now apply IH]. intros Hin. apply Hk.
      clear - Hin E eqb_spec. induction r as [|[k2 v2] r IH]; simpl in *.
      * destruct Hin as [<- | []]. rewrite eqb_refl' in E. discriminate.
      * destruct (eqb k2 k); simpl in Hin; tauto.
Qed.

Lemma setitem_values (d : list (K * V)) (k : K) (v x : V) :
  In x (map snd (setitem eqb d k v)) -> x = v \/ In x (map snd d).
Proof.
  induction d as [|[k' v'] r IH]; simpl.
  - intros [<- | []]. now left.
  - destruct (eqb k' k); simpl; intros [<- | H]; auto.
    destruct (IH H); auto.
Qed.

Lemma setitem_values_NoDup (d : list (K * V)) (k : K) (v : V) :
  NoDup (map snd d) -> ~ In v (map snd d) ->
  NoDup (map snd (setitem eqb d k v)).
Proof.
  induction d as [|[k' v'] r IH]; simpl; intros Hnd Hv.
  - constructor; [intros [] | constructor].
  - inversion Hnd as [|? ? Hk Hr]; subst. destruct (eqb k' k); simpl.
    + constructor; [tauto | exact Hr].
    + constructor; [|apply IH; tauto].
      intros Hin. apply setitem_values in Hin. destruct Hin as [-> | Hin]; tauto.
Qed.

Lemma values_injective (d : list (K * V)) (a b : K) (v : V) :
  NoDup (map snd d) -> In (a, v) d -> In (b, v) d -> a = b.
Proof.
  induction d as [|[k' v'] r IH]; simpl; intros Hnd Ha Hb; [destruct Ha|].
  inversion Hnd as [|? ? Hk Hr]; subst.
  assert (Hin : forall c, In (c, v) r -> In v (map snd r))
    by (intros c Hc; apply in_map_iff; now exists (c, v)).
  destruct Ha as [Ha | Ha]; destruct Hb as [Hb | Hb]; auto.
  - congruence.
  - injection Ha as -> ->. exfalso. eauto.
  - injection Hb as -> ->. exfalso. eauto.
Qed.

Lemma lookup_setitem (d : list (K * V)) (k k' : K) (v : V) :
  lookup eqb (setitem eqb d k v) k'
  = if eqb k k' then Some v else lookup eqb d k'.
Proof.
  induction d as [|[k2 v2] r IH]; simpl; [reflexivity|].
  destruct (eqb k2 k) eqn:E; simpl.
  - apply eqb_spec in E. subst. now destruct (eqb k k').
  - rewrite IH. destruct (eqb k2 k') eqn:E2; [|reflexivity].
    apply eqb_spec in E2. rewrite (eqb_neq' k k'); [reflexivity|].
    intros Hk. subst. rewrite eqb_refl' in E. discriminate.
Qed.

End DictFacts.

Lemma string_eqb_spec (a b : String.string) : String.eqb a b = true <-> a = b.
Proof. apply String.eqb_eq. Qed.

Lemma nat_eqb_spec (a b : nat) : Nat.eqb a b = true <-> a = b.
Proof. apply Nat.eqb_eq. Qed.

(** *** The class dictionary *)

Lemma class_fold_invariant (paths : list Path) :
  forall (k : nat) (d : list (String.string * nat)),
    NoDup (map fst d) -> NoDup (map snd d) ->
    (forall v, In v (map snd d) -> (v < k)%nat) ->
    NoDup (map fst (fold_left class_step (combine (seq k (length paths)) paths) d))
    /\ NoDup (map snd (fold_left class_step
                         (combine (seq k (length paths)) paths) d)).
Proof.
  induction paths as [|p rest IH]; intros k d Hk Hv Hlt; simpl; [now split|].
  unfold class_step at 2 4. simpl. apply IH.
  - apply setitem_keys_NoDup; [apply string_eqb_spec | exact Hk].
  - apply setitem_values_NoDup; [exact Hv|].
    intros Hin. specialize (Hlt k Hin). lia.
  - intros v Hin. apply setitem_values in Hin.
    destruct Hin as [-> | Hin]; [lia|]. specialize (Hlt v Hin). lia.
Qed.

Lemma class_map_NoDup (paths : list Path) :
  NoDup (map fst (class_map paths)) /\ NoDup (map snd (class_map paths)).
Proof.
  unfold class_map, enumerate. apply (class_fold_invariant paths 0 []).
  - constructor.
  - constructor.
  - intros v [].
Qed.

Lemma class_fold_other (paths : list Path) (key : String.string) :
  forall (k : nat) (d : list (String.string * nat)),
    ~ In key (map name paths) ->
    lookup String.eqb
      (fold_left class_step (combine (seq k (length paths)) paths) d) key
    = lookup String.eqb d key.
Proof.
  induction paths as [|p rest IH]; intros k d Hout; simpl; [reflexivity|].
  rewrite IH by (simpl in Hout; tauto). unfold class_step. simpl.
  rewrite (lookup_setitem String.eqb string_eqb_spec).
  destruct (String.eqb (name p) key) eqn:E; [|reflexivity].
  apply String.eqb_eq in E. simpl in Hout. tauto.
Qed.

Lemma class_fold_index (paths : list Path) :
  forall (k i : nat) (d : list (String.string * nat)) (p : Path),
    NoDup (map name paths) -> nth_error paths i = Some p ->
    lookup String.eqb
      (fold_left class_step (combine (seq k (length paths)) paths) d) (name p)
    = Some (k + i)%nat.
Proof.
  induction paths as [|q rest IH]; intros k i d p Hnd Hi; [now destruct i|].
  inversion Hnd as [|? ? Hq Hr]; subst. simpl. destruct i as [|i].
  - injection Hi as ->. rewrite class_fold_other by exact Hq.
    unfold class_step. simpl.
    rewrite (lookup_setitem String.eqb string_eqb_spec), String.eqb_refl.
    f_equal. lia.
  - simpl in Hi. rewrite (IH (S k) i _ p Hr Hi). f_equal. lia.
Qed.

Lemma class_fold_keys (paths : list Path) (key : String.string) :
  forall (k : nat) (d : list (String.string * nat)),
    (exists l, lookup String.eqb
                 (fold_left class_step (combine (seq k (length paths)) paths) d)
                 key = Some l) <->
    (exists l, lookup String.eqb d key = Some l) \/ In key (map name paths).
Proof.
  induction paths as [|p rest IH]; intros k d;
    cbn [length seq combine fold_left map In]; [tauto|].
  rewrite IH. unfold class_step. cbn [fst snd].
  rewrite (lookup_setitem String.eqb string_eqb_spec).
  destruct (String.eqb (name p) key) eqn:E.
  - apply String.eqb_eq in E. split; [auto | intros _; left; eauto].
  - assert (name p <> key)
      by (intros Hn; rewrite Hn, String.eqb_refl in E; discriminate).
    tauto.
Qed.

Lemma label_to_name_fold (d : list (String.string * nat)) :
  forall acc : list (nat * String.string),
    NoDup (map fst acc ++ map snd d) ->
    fold_left (fun m kv => setitem Nat.eqb m (snd kv) (fst kv)) d acc
    = acc ++ map (fun kv => (snd kv, fst kv)) d.
Proof.
  induction d as [|[n l] r IH]; intros acc Hnd; simpl.
  - now rewrite app_nil_r.
  - simpl in Hnd. rewrite (setitem_fresh Nat.eqb nat_eqb_spec).
    + rewrite IH.
      * now rewrite <- app_assoc.
      * rewrite map_app. simpl. rewrite <- app_assoc. exact Hnd.
    + apply NoDup_remove_2 in Hnd. intros Hin. apply Hnd.
      apply in_or_app. now left.
Qed.

(** X21: the two label dictionaries.  [label_to_name_map] inverts
    [gt_class_name_to_label_map]: a name has label [l] in the one exactly
    when [l] has that name in the other.  The names with a label are the
    names of the class directories (so the lookup of ['good'] raises
    [KeyError] exactly when no class directory has that name); and with
    class directories of distinct names the label of each is its position
    in the listing. *)
Theorem label_maps_invert (gt_class_paths : list Path) :
  (forall n l,
     lookup String.eqb (class_map gt_class_paths) n = Some l <->
     lookup Nat.eqb (label_to_name_map (class_map gt_class_paths)) l = Some n) /\
  (forall n,
     (exists l, lookup String.eqb (class_map gt_class_paths) n = Some l) <->
     In n (map name gt_class_paths)) /\
  (NoDup (map name gt_class_paths) ->
   forall i p, nth_error gt_class_paths i = Some p ->
               lookup String.eqb (class_map gt_class_paths) (name p) = Some i).
Proof.
  destruct (class_map_NoDup gt_class_paths) as [Hk Hv].
  split; [|split].
  - intros n l. unfold label_to_name_map.
    rewrite (label_to_name_fold _ []) by exact Hv. simpl.
    set (d := class_map gt_class_paths) in *.
    assert (Hk' : NoDup (map fst (map (fun kv : String.string * nat =>
                                         (snd kv, fst kv)) d)))
      by (rewrite map_map; exact Hv).
    split.
    + intros H. apply (lookup_In String.eqb string_eqb_spec) in H.
      apply (In_lookup Nat.eqb nat_eqb_spec); [exact Hk'|].
      apply in_map_iff. now exists (n, l).
    + intros H. apply (lookup_In Nat.eqb nat_eqb_spec) in H.
      apply in_map_iff in H. destruct H as [[n' l'] [[= -> ->] H]].
      now apply (In_lookup String.eqb string_eqb_spec).
  - intros n. unfold class_map, enumerate.
    rewrite (class_fold_keys gt_class_paths n 0 []). simpl.
    split; [intros [[l H] | H]; [discriminate | exact H] | auto].
  - intros Hnd i p Hi. unfold class_map, enumerate.
    now rewrite (class_fold_index gt_class_paths 0 i [] p Hnd Hi).
Qed.

(** *** Labels of the test images *)

Lemma parent_joinpath (p : Path) (n : String.string) : parent (joinpath p n) = p.
Proof. apply removelast_last. Qed.

Lemma name_joinpath (p : Path) (n : String.string) : name (joinpath p n) = n.
Proof. apply last_last. Qed.

Lemma append_images_same_class (gt_path p : Path) (images : list Path) :
  forall acc : list Path * list Path,
    (forall img, In img images -> parent img = p) ->
    Forall2 same_class (fst acc) (snd acc) ->
    Forall2 same_class (fst (append_images gt_path p images acc))
                       (snd (append_images gt_path p images acc)).
Proof.
  unfold append_images.
  induction images as [|img rest IH]; intros acc Hp Hacc; simpl; [exact Hacc|].
  apply IH; [intros x Hx; apply Hp; now right|]. simpl.
  apply Forall2_app; [exact Hacc|]. constructor; [|constructor].
  unfold same_class. rewrite parent_joinpath, name_joinpath.
  now rewrite (Hp img (or_introl eq_refl)).
Qed.

Section FileSystemFacts.

Variable listdir : Path -> outcome (list String.string).
Variable Img Feats : Type.
Variable open_image : Path -> outcome Img.
Variable get_features : Img -> outcome Feats.

Lemma collect_same_class (gt_path : Path) (gt_class_paths : list Path) :
  forall acc r,
    collect listdir gt_path gt_class_paths acc = inr r ->
    Forall2 same_class (fst acc) (snd acc) ->
    Forall2 same_class (fst r) (snd r).
Proof.
  induction gt_class_paths as [|p rest IH]; intros acc r; simpl.
  - now intros [= <-].
  - unfold iterdir. destruct (listdir p) as [e|names]; simpl; [discriminate|].
    intros H Hacc. apply (IH _ _ H).
    apply append_images_same_class; [|exact Hacc].
    intros img Himg. apply in_map_iff in Himg. destruct Himg as [n [<- _]].
    apply parent_joinpath.
Qed.

Lemma init_same_class (data_path gt_path : Path) (self : TestDataset) :
  init listdir data_path gt_path = inr self ->
  Forall2 same_class (img_paths self) (gt_paths self) /\
  exists gt_class_paths,
    iterdir listdir data_path = inr gt_class_paths /\
    gt_class_name_to_label_map self = class_map gt_class_paths.
Proof.
  unfold init. destruct (iterdir listdir data_path) as [e|paths]; simpl;
    [discriminate|].
  destruct (collect listdir gt_path paths ([], [])) as [e|r] eqn:Ec; simpl;
    [discriminate|].
  intros [= <-]. simpl. split.
  - apply (collect_same_class _ _ _ _ Ec). constructor.
  - now exists paths.
Qed.

Lemma list_getitem_nat {A : Type} (l : list A) (i : nat) (a : A) :
  list_getitem l (Z.of_nat i) = inr a -> nth_error l i = Some a.
Proof.
  unfold list_getitem.
  destruct (Z.of_nat i <? 0)%Z eqn:E; [apply Z.ltb_lt in E; lia|].
  rewrite E, Nat2Z.id. destruct (nth_error l i); [now intros [= ->]|discriminate].
Qed.

Lemma extract_labelled (self : TestDataset) (indices : list nat) :
  forall feats labels,
    extract Img Feats open_image get_features self indices
      = inr (feats, labels) ->
    Forall2 (labelled self) indices labels.
Proof.
  induction indices as [|i rest IH]; intros feats labels; simpl.
  - intros [= <- <-]. constructor.
  - unfold getitem.
    destruct (list_getitem (img_paths self) (Z.of_nat i)) as [e|ip] eqn:E1;
      simpl; [discriminate|].
    destruct (list_getitem (gt_paths self) (Z.of_nat i)) as [e|gp] eqn:E2;
      simpl; [discriminate|].
    destruct (lookup String.eqb _ (name (parent gp))) as [label|] eqn:E3;
      simpl; [|discriminate].
    destruct (open_image ip) as [e|img]; simpl; [discriminate|].
    destruct (get_features img) as [e|f]; simpl; [discriminate|].
    destruct (extract Img Feats open_image get_features self rest)
      as [e|[fs ls]] eqn:E4; simpl; [discriminate|].
    intros [= <- <-]. constructor; [|now apply (IH fs)].
    exists ip, gp. repeat split; auto; now apply list_getitem_nat.
Qed.

End FileSystemFacts.

Lemma Forall2_seq_nth {A B : Type} (Q : A -> B -> Prop) (l : list A) :
  forall (pre : list A) (ys : list B),
    Forall2 (fun i y => exists x, nth_error (pre ++ l) i = Some x /\ Q x y)
            (seq (length pre) (length l)) ys ->
    Forall2 Q l ys.
Proof.
  induction l as [|a l IH]; intros pre ys H; simpl in H.
  - inversion H. constructor.
  - inversion H as [|? y ? ys' [x [Hx HQ]] Hrest]; subst.
    rewrite nth_error_app2, Nat.sub_diag in Hx by lia.
    injection Hx as <-. constructor; [exact HQ|].
    apply (IH (pre ++ [a])). rewrite <- app_assoc, length_app. simpl.
    now rewrite Nat.add_1_r.
Qed.

Lemma Forall2_nth_error {A B : Type} (Q : A -> B -> Prop) (l : list A)
    (m : list B) :
  Forall2 Q l m ->
  forall i a b, nth_error l i = Some a -> nth_error m i = Some b -> Q a b.
Proof.
  induction 1 as [|x y l m Hxy _ IH]; intros [|i] a b; simpl; try discriminate.
  - now intros [= <-] [= <-].
  - apply IH.
Qed.

Lemma Forall2_map_right {A B C : Type} (Q : A -> B -> Prop)
    (R : A -> C -> Prop) (f : B -> C) (l : list A) (m : list B) :
  (forall a b, Q a b -> R a (f b)) ->
  Forall2 Q l m -> Forall2 R l (map f m).
Proof.
  intros Himp. induction 1; simpl; constructor; auto.
Qed.

(** X22: [ano_gt] marks the images outside the directory named [good].
    Whenever the dataset is built, the label of ['good'] is found and the
    extraction loop runs through, [ano_gt] has one entry per image in the
    order of [img_paths], every entry is 0 or 1, and the entry of an image
    is 0 exactly when the directory the image was listed from is named
    [good]. *)
Theorem ano_gt_marks_defects (listdir : Path -> outcome (list String.string))
    (Img Feats : Type) (open_image : Path -> outcome Img)
    (get_features : Img -> outcome Feats)
    (data_path gt_path : Path) (self : TestDataset)
    (test_features : list Feats) (test_labels : list nat) (good : nat) :
  init listdir data_path gt_path = inr self ->
  test_features_and_labels Img Feats open_image get_features self
    = inr (test_features, test_labels) ->
  good_label self = inr good ->
  Forall2 (fun img_path a =>
             (a = 0%Z \/ a = 1%Z) /\
             (a = 0%Z <-> name (parent img_path) = "good"%string))
          (img_paths self) (ano_gt test_labels good).
Proof.
  intros Hinit Hloop Hgood.
  destruct (init_same_class listdir _ _ _ Hinit) as [Hsame [paths [_ Hmap]]].
  destruct (class_map_NoDup paths) as [_ Hv]. rewrite <- Hmap in Hv.
  unfold good_label in Hgood.
  destruct (lookup String.eqb (gt_class_name_to_label_map self) "good"%string)
    as [g|] eqn:Eg; [|discriminate].
  injection Hgood as ->.
  unfold test_features_and_labels, len in Hloop.
  apply extract_labelled in Hloop.
  assert (HQ : Forall2 (fun img_path label =>
                          lookup String.eqb (gt_class_name_to_label_map self)
                            (name (parent img_path)) = Some label)
                       (img_paths self) test_labels).
  { apply (Forall2_seq_nth _ (img_paths self) []). simpl.
    eapply Forall2_impl; [|exact Hloop].
    intros i label (ip & gp & Hip & Hgp & Hl). exists ip. split; [exact Hip|].
    now rewrite <- (Forall2_nth_error _ _ _ Hsame i ip gp Hip Hgp). }
  unfold ano_gt. refine (Forall2_map_right _ _ _ _ _ _ HQ).
  intros ip label Hl. cbv beta in *.
  destruct (label =? good)%nat eqn:E.
  - apply Nat.eqb_eq in E. subst. split; [now left|].
    split; [intros _|reflexivity].
    apply (values_injective (gt_class_name_to_label_map self) _ _ good Hv);
      now apply (lookup_In String.eqb string_eqb_spec).
  - apply Nat.eqb_neq in E. split; [now right|].
    split; [discriminate|]. intros Hn. rewrite Hn, Eg in Hl. congruence.
Qed.

Lemma ano_gt_marks_defects_witness :
  Forall2 (fun img_path a =>
             (a = 0%Z \/ a = 1%Z) /\
             (a = 0%Z <-> name (parent img_path) = "good"%string))
          (img_paths small_dataset) (ano_gt [0; 1; 1]%nat 0).
Proof.
  apply (ano_gt_marks_defects small_listdir Path unit (fun p => inr p)
           (fun _ => inr tt) ["test"%string] ["ground_truth"%string]
           small_dataset [tt; tt; tt] [0; 1; 1]%nat 0%nat).
  - reflexivity.
  - reflexivity.
  - reflexivity.
Defined.

End DatasetFacts.
